(** * littrow: table access, identifier ordering and the reactive mirror

    A shallow embedding of the table wranglers, the validation gate, the
    identifier comparator and the transaction wrapper of the data layer,
    together with the properties its specification states about them.

    JavaScript values are embedded as the inductive type [jsval]; a store
    of the durable database is an association list kept in key order;
    asynchronous functions become computations in a state-and-exception
    monad over the durable database, the reactive mirror and a journal of
    the calls made to the external capabilities. Code that holds a
    transaction handle is a task: such a computation that also carries
    the handles that are active. *)

From Stdlib Require Import String Ascii ZArith Bool Lia Arith List.
From Equations Require Import Equations.
Import ListNotations.

Local Open Scope string_scope.
Local Open Scope list_scope.
Local Open Scope Z_scope.

Set Implicit Arguments.
Set Warnings "-register-all".

(** ** Thrown faults *)

Inductive error : Type :=
| TypeError          (* property read on undefined, call of a missing method *)
| ValidationError    (* the validator's assert rejected a value *)
| DataError          (* the store was handed a value without a valid key *)
| Raised (msg : string).  (* an exception of the store, by its name, or
                             what a caller-supplied callback throws *)

Inductive result (A : Type) : Type :=
| Ok (a : A)
| Throw (e : error).
Arguments Ok {A} a.
Arguments Throw {A} e.

Definition rbind {A B} (r : result A) (k : A -> result B) : result B :=
  match r with
  | Ok a => k a
  | Throw e => Throw e
  end.

Fixpoint rmap {A B} (f : A -> result B) (l : list A) : result (list B) :=
  match l with
  | [] => Ok []
  | x :: l' => rbind (f x) (fun y => rbind (rmap f l') (fun ys => Ok (y :: ys)))
  end.

(** ** JavaScript values

    Numbers are the integers (identifiers that are numbers are integral),
    strings are byte strings, and an object is the list of its own
    properties in insertion order. *)

Inductive jsval : Type :=
| JUndefined
| JNumber (n : Z)
| JString (s : string)
| JObject (props : list (string * jsval)).

Fixpoint size (v : jsval) : nat :=
  match v with
  | JObject props => S (list_sum (map (fun p => size (snd p)) props))
  | _ => 1%nat
  end.

Fixpoint lookup (k : string) (props : list (string * jsval)) : option jsval :=
  match props with
  | [] => None
  | (k', v) :: rest => if String.eqb k k' then Some v else lookup k rest
  end.

(** [k in v] for an object [v]. *)
Definition hasProp (k : string) (v : jsval) : bool :=
  match v with
  | JObject props => match lookup k props with Some _ => true | None => false end
  | _ => false
  end.

(** The value [v.k] reads as when the read does not throw. *)
Definition prop (v : jsval) (k : string) : jsval :=
  match v with
  | JObject props => match lookup k props with Some x => x | None => JUndefined end
  | _ => JUndefined
  end.

(** [v.k]: a TypeError on undefined, undefined on a primitive. *)
Definition getProp (v : jsval) (k : string) : result jsval :=
  match v with
  | JUndefined => Throw TypeError
  | _ => Ok (prop v k)
  end.

(** [v[k] = x] on an object: overwrite in place, or append. *)
Fixpoint assign (k : string) (x : jsval) (props : list (string * jsval))
  : list (string * jsval) :=
  match props with
  | [] => [(k, x)]
  | (k', v) :: rest =>
      if String.eqb k k' then (k', x) :: rest else (k', v) :: assign k x rest
  end.

Definition setProp (v : jsval) (k : string) (x : jsval) : result jsval :=
  match v with
  | JUndefined => Throw TypeError
  | JObject props => Ok (JObject (assign k x props))
  | _ => Ok v
  end.

Definition isObject (v : jsval) : bool :=
  match v with JObject _ => true | _ => false end.

(** Truthiness, for [value ? ... : ...] and [!item]. *)
Definition truthy (v : jsval) : bool :=
  match v with
  | JUndefined => false
  | JNumber n => negb (n =? 0)
  | JString s => negb (String.eqb s "")
  | JObject _ => true
  end.

(** [a === b]. Two objects are the same only when they are one reference;
    the records compared here are always distinct copies. *)
Definition strictEq (a b : jsval) : bool :=
  match a, b with
  | JUndefined, JUndefined => true
  | JNumber x, JNumber y => x =? y
  | JString s, JString t => String.eqb s t
  | _, _ => false
  end.

(** ** Strings *)

Definition isDigit (c : ascii) : bool :=
  let n := nat_of_ascii c in ((48 <=? n) && (n <=? 57))%nat.

Definition isLowerAlpha (c : ascii) : bool :=
  let n := nat_of_ascii c in ((97 <=? n) && (n <=? 122))%nat.

Definition isUpperAlpha (c : ascii) : bool :=
  let n := nat_of_ascii c in ((65 <=? n) && (n <=? 90))%nat.

Fixpoint allChars (p : ascii -> bool) (s : string) : bool :=
  match s with
  | EmptyString => true
  | String c s' => p c && allChars p s'
  end.

(** [/^\d+$/.test(s)] on a string. *)
Definition digitsOnly (s : string) : bool :=
  match s with
  | EmptyString => false
  | _ => allChars isDigit s
  end.

(** String(v), as a regular expression test or the argument of
    [localeCompare] sees a value. Numbers never reach it. *)
Definition toString (v : jsval) : string :=
  match v with
  | JUndefined => "undefined"
  | JNumber _ => ""
  | JString s => s
  | JObject _ => "[object Object]"
  end.

Fixpoint parseDigits (acc : Z) (s : string) : Z :=
  match s with
  | EmptyString => acc
  | String c s' => parseDigits (10 * acc + (Z.of_nat (nat_of_ascii c) - 48)) s'
  end.

(** Number(s) for a string of decimal digits: its value, which is what
    the host computes for values below 2^53. *)
Definition Number (s : string) : Z := parseDigits 0 s.

(** [s.localeCompare(t)]: the host's collation, taken here as the
    lexicographic order on code units, which is the order the host gives
    strings of digits and lower-case letters. *)
Definition localeCompare (s t : string) : Z :=
  match String.compare s t with
  | Lt => -1
  | Eq => 0
  | Gt => 1
  end.

(** [s.slice(start, stop)] for indices that are not negative. *)
Definition slice (s : string) (start stop : nat) : string :=
  substring start (stop - start) s.

Definition lowerChar (c : ascii) : ascii :=
  if isUpperAlpha c then ascii_of_nat (nat_of_ascii c + 32) else c.

Fixpoint toLowerCase (s : string) : string :=
  match s with
  | EmptyString => EmptyString
  | String c s' => String (lowerChar c) (toLowerCase s')
  end.

(** ** The identifier comparator *)

Lemma size_pos v : (1 <= size v)%nat.
Proof. destruct v; simpl; lia. Qed.

Lemma lookup_size k props x :
  lookup k props = Some x ->
  (size x <= list_sum (map (fun p => size (snd p)) props))%nat.
Proof.
  induction props as [| [k' v] rest IH]; simpl; [discriminate |].
  destruct (String.eqb k k').
  - intros [= ->]. lia.
  - intros H. apply IH in H. lia.
Qed.

Lemma prop_size_le v k : (size (prop v k) <= size v)%nat.
Proof.
  destruct v as [| | | props]; simpl; try lia.
  destruct (lookup k props) eqn:E; simpl; [| lia].
  apply lookup_size in E. lia.
Qed.

Lemma prop_size_lt v k :
  isObject v && hasProp k v = true -> (size (prop v k) < size v)%nat.
Proof.
  destruct v as [| | | props]; simpl; try discriminate.
  destruct (lookup k props) eqn:E; [| discriminate].
  intros _. apply lookup_size in E. lia.
Qed.

(** Lines 268 to 274 of the comparator: neither argument is an object
    carrying an [id]. [a.localeCompare] exists on strings only. *)
Definition compareIds (a b : jsval) : result Z :=
  match a, b with
  | JNumber x, JNumber y => Ok (x - y)
  | JNumber _, _ => Ok (-1)
  | _, JNumber _ => Ok 1
  | _, _ =>
      if digitsOnly (toString a) && digitsOnly (toString b)
      then Ok (Number (toString a) - Number (toString b))
      else match a with
           | JString s => Ok (localeCompare s (toString b))
           | _ => Throw TypeError
           end
  end.

Definition inspect {A : Type} (x : A) : { y : A | x = y } :=
  exist _ x eq_refl.

(** The two object branches both return [idComparator(a.id, b.id)]; the
    inner match is the read of [id] off the other argument, which throws
    on undefined and gives undefined on a number or a string. The
    recursion is on the sizes of the two values together. *)

Equations? idComparator (a b : jsval) : result Z by wf (size a + size b)%nat lt :=
  idComparator a b with inspect (isObject a && hasProp "id" a) := {
    | exist _ true Ha with b := {
        | JUndefined := Throw TypeError
        | JNumber n := idComparator (prop a "id") (prop (JNumber n) "id")
        | JString s := idComparator (prop a "id") (prop (JString s) "id")
        | JObject ps := idComparator (prop a "id") (prop (JObject ps) "id") };
    | exist _ false Ha with inspect (isObject b && hasProp "id" b) := {
        | exist _ true Hb with a := {
            | JUndefined := Throw TypeError
            | JNumber n := idComparator (prop (JNumber n) "id") (prop b "id")
            | JString s := idComparator (prop (JString s) "id") (prop b "id")
            | JObject ps := idComparator (prop (JObject ps) "id") (prop b "id") };
        | exist _ false Hb := compareIds a b } }.
Proof.
  all: try (pose proof (prop_size_lt a "id" Ha));
       try (pose proof (prop_size_lt b "id" Hb));
       try (pose proof (prop_size_le (JObject ps) "id"));
       simpl in *; lia.
Qed.

(** ** Generated identifiers

    [Math.random()] draws a double in [0, 1) and [toString(36)] prints it
    in base 36 with as many fraction digits as identify the double: none
    for the draw 0 (printed "0"), the single digit 18 for the draw 0.5
    (printed "0.i"), eleven or so for a typical draw. A draw is given by
    the fraction digits it prints. *)

Definition base36 : string := "0123456789abcdefghijklmnopqrstuvwxyz".

Definition digit36 (d : nat) : ascii :=
  match String.get d base36 with
  | Some c => c
  | None => "0"%char
  end.

Fixpoint digits36 (ds : list nat) : string :=
  match ds with
  | [] => EmptyString
  | d :: ds' => String (digit36 d) (digits36 ds')
  end.

Definition wellFormedDraw (fraction : list nat) : Prop :=
  Forall (fun d => (d < 36)%nat) fraction.

Definition toString36 (fraction : list nat) : string :=
  match fraction with
  | [] => "0"
  | _ => "0." ++ digits36 fraction
  end.

Definition generateId (table : string) (fraction : list nat) : string :=
  toLowerCase (slice table 0 1) ++ slice (toString36 fraction) 2 9.

Definition isBase36 (c : ascii) : bool := isDigit c || isLowerAlpha c.

(** [/^[a-z][0-9a-z]{7}$/.test(s)] *)
Definition matchesGeneratedId (s : string) : bool :=
  match s with
  | EmptyString => false
  | String c rest =>
      isLowerAlpha c && (String.length rest =? 7)%nat && allChars isBase36 rest
  end.

(** ** The table registry *)

Inductive tableName : Type :=
| Image | ImageFile | Observation | Metadata | Protocol | Settings.

Scheme Equality for tableName.

Definition nameOf (t : tableName) : string :=
  match t with
  | Image => "Image"
  | ImageFile => "ImageFile"
  | Observation => "Observation"
  | Metadata => "Metadata"
  | Protocol => "Protocol"
  | Settings => "Settings"
  end.

(** Object.keys(Tables) *)
Definition tableNames : list tableName :=
  [Image; ImageFile; Observation; Metadata; Protocol; Settings].

Definition NO_REACTIVE_STATE_TABLES : list tableName := [ImageFile].

Definition isReactiveTable (name : tableName) : bool :=
  forallb (fun n => negb (tableName_beq n name)) NO_REACTIVE_STATE_TABLES.

(** The index lists the tables are declared with; the first is the key
    path of the table's store. *)
Definition indexes (t : tableName) : list string :=
  match t with
  | ImageFile => ["id"]
  | Image => ["id"; "addedAt"]
  | Observation => ["id"; "addedAt"]
  | Metadata => ["id"]
  | Protocol => ["id"]
  | Settings => ["id"]
  end.

Definition keyPath (t : tableName) : string := hd "id" (indexes t).

(** A validator is the [assert] of a table's schema: the validated value,
    or a thrown ValidationError. *)
Definition validator : Type := jsval -> result jsval.

(** ** The durable store

    Keys of the store are numbers and strings, numbers first; a store
    holds its records in key order, which is the order [getAll] returns. *)

Inductive key : Type :=
| KNumber (n : Z)
| KString (s : string).

Definition toKey (v : jsval) : option key :=
  match v with
  | JNumber n => Some (KNumber n)
  | JString s => Some (KString s)
  | _ => None
  end.

Definition ofKey (k : key) : jsval :=
  match k with
  | KNumber n => JNumber n
  | KString s => JString s
  end.

Definition keyCompare (a b : key) : comparison :=
  match a, b with
  | KNumber x, KNumber y => Z.compare x y
  | KNumber _, KString _ => Lt
  | KString _, KNumber _ => Gt
  | KString s, KString t => String.compare s t
  end.

Definition objectStore : Type := list (key * jsval).

Fixpoint storePut (k : key) (v : jsval) (s : objectStore) : objectStore :=
  match s with
  | [] => [(k, v)]
  | (k', v') :: rest =>
      match keyCompare k k' with
      | Lt => (k, v) :: (k', v') :: rest
      | Eq => (k, v) :: rest
      | Gt => (k', v') :: storePut k v rest
      end
  end.

Fixpoint storeGet (k : key) (s : objectStore) : option jsval :=
  match s with
  | [] => None
  | (k', v') :: rest =>
      match keyCompare k k' with
      | Eq => Some v'
      | _ => storeGet k rest
      end
  end.

Fixpoint storeDelete (k : key) (s : objectStore) : objectStore :=
  match s with
  | [] => []
  | (k', v') :: rest =>
      match keyCompare k k' with
      | Eq => storeDelete k rest
      | _ => (k', v') :: storeDelete k rest
      end
  end.

Definition storeGetAll (s : objectStore) : list jsval := map snd s.

(** ** Arrays *)

(** [arr.findIndex(p)]: the first index whose element satisfies [p], or
    -1; a callback that throws ends the search. *)
Fixpoint findIndexFrom (p : jsval -> result bool) (arr : list jsval) (i : Z)
  : result Z :=
  match arr with
  | [] => Ok (-1)
  | x :: rest =>
      rbind (p x) (fun b => if b then Ok i else findIndexFrom p rest (i + 1))
  end.

Definition findIndex (p : jsval -> result bool) (arr : list jsval) : result Z :=
  findIndexFrom p arr 0.

(** [(item) => item.id === id] *)
Definition hasId (id : jsval) (item : jsval) : result bool :=
  rbind (getProp item "id") (fun i => Ok (strictEq i id)).

(** [(item) => item.id === value.id] *)
Definition sameId (value : jsval) (item : jsval) : result bool :=
  rbind (getProp item "id") (fun i =>
  rbind (getProp value "id") (fun j => Ok (strictEq i j))).

(** [arr[i] = x] for an index that is not negative; past the end the
    array grows, the slots in between left empty. *)
Fixpoint arraySetNat (arr : list jsval) (i : nat) (x : jsval) : list jsval :=
  match arr, i with
  | [], O => [x]
  | [], S i' => JUndefined :: arraySetNat [] i' x
  | _ :: rest, O => x :: rest
  | y :: rest, S i' => y :: arraySetNat rest i' x
  end.

Definition arraySet (arr : list jsval) (i : Z) (x : jsval) : list jsval :=
  if i <? 0 then arr else arraySetNat arr (Z.to_nat i) x.

(** [delete arr[i]]: an element in range becomes an empty slot; any other
    index, -1 among them, names a property the array does not have and
    nothing changes. *)
Fixpoint arrayDeleteNat (arr : list jsval) (i : nat) : list jsval :=
  match arr, i with
  | [], _ => []
  | _ :: rest, O => JUndefined :: rest
  | y :: rest, S i' => y :: arrayDeleteNat rest i'
  end.

Definition arrayDelete (arr : list jsval) (i : Z) : list jsval :=
  if i <? 0 then arr else arrayDeleteNat arr (Z.to_nat i).

(** [arr.sort(cmp)]: a stable sort, written as an insertion sort: [x]
    goes before the first element it does not compare greater than. Every
    stable sort returns this list when the comparator orders the elements
    consistently. Elements that are undefined go last and are never
    handed to the comparator; a comparator that throws ends the sort. *)
Fixpoint insertBy (cmp : jsval -> jsval -> result Z) (x : jsval)
  (sorted : list jsval) : result (list jsval) :=
  match sorted with
  | [] => Ok [x]
  | y :: rest =>
      rbind (cmp x y) (fun c =>
        if c <=? 0 then Ok (x :: y :: rest)
        else rbind (insertBy cmp x rest) (fun r => Ok (y :: r)))
  end.

Fixpoint insertionSort (cmp : jsval -> jsval -> result Z) (arr : list jsval)
  : result (list jsval) :=
  match arr with
  | [] => Ok []
  | x :: rest => rbind (insertionSort cmp rest) (insertBy cmp x)
  end.

Definition isUndefined (v : jsval) : bool :=
  match v with JUndefined => true | _ => false end.

Definition sort (cmp : jsval -> jsval -> result Z) (arr : list jsval)
  : result (list jsval) :=
  rbind (insertionSort cmp (filter (fun v => negb (isUndefined v)) arr))
        (fun sorted => Ok (sorted ++ filter isUndefined arr)).

(** ** Transactions, the world and its monad *)

Inductive IDBTransactionMode : Type := readonly | readwrite | versionchange.

Record transaction : Type := mkTransaction {
  txId : string;
  txTables : list tableName;
  txMode : IDBTransactionMode
}.

(** The calls made to the external capabilities, oldest first. *)
Inductive event : Type :=
| Asserted (t : tableName) (v : jsval)   (* Tables[t].assert(v) *)
| Opened (tx : transaction)              (* db.transaction(names, mode) *)
| Committed (tx : transaction)           (* tx.commit() *)
| Refreshed (t : tableName).             (* tables[t].refresh() *)

Record world : Type := mkWorld {
  database : tableName -> objectStore;
  _tablesState : tableName -> list jsval;
  journal : list event
}.

Definition M (A : Type) : Type := world -> result A * world.

Definition ret {A} (a : A) : M A := fun w => (Ok a, w).

Definition throw {A} (e : error) : M A := fun w => (Throw e, w).

Definition lift {A} (r : result A) : M A := fun w => (r, w).

Definition bind {A B} (m : M A) (k : A -> M B) : M B :=
  fun w =>
    match m w with
    | (Ok a, w') => k a w'
    | (Throw e, w') => (Throw e, w')
    end.

Notation "x <- m ;; k" := (bind m (fun x => k))
  (at level 61, m at next level, right associativity).
Notation "m ;;; k" := (bind m (fun _ => k))
  (at level 61, right associativity).

Fixpoint mapM {A B} (f : A -> M B) (l : list A) : M (list B) :=
  match l with
  | [] => ret []
  | x :: l' => y <- f x ;; ys <- mapM f l' ;; ret (y :: ys)
  end.

(** [for (const x of l) await f(x)] *)
Fixpoint forEach {A} (f : A -> M unit) (l : list A) : M unit :=
  match l with
  | [] => ret tt
  | x :: l' => f x ;;; forEach f l'
  end.

Definition update_at {V} (f : tableName -> V) (t : tableName) (x : V)
  : tableName -> V :=
  fun t' => if tableName_beq t t' then x else f t'.

Definition emit (e : event) : M unit :=
  fun w => (Ok tt, mkWorld (database w) (_tablesState w) (journal w ++ [e])).

Definition readState (t : tableName) : M (list jsval) :=
  fun w => (Ok (_tablesState w t), w).

Definition writeState (t : tableName) (arr : list jsval) : M unit :=
  fun w => (Ok tt, mkWorld (database w) (update_at (_tablesState w) t arr) (journal w)).

Definition modifyStore (t : tableName) (f : objectStore -> objectStore) : M unit :=
  fun w => (Ok tt, mkWorld (update_at (database w) t (f (database w t)))
                           (_tablesState w) (journal w)).

(** *** The store capability *)

(** [db.put(t, value)]: the key is read at the store's key path. *)
Definition db_put (t : tableName) (value : jsval) : M jsval :=
  match toKey (prop value (keyPath t)) with
  | Some k => modifyStore t (storePut k value) ;;; ret (ofKey k)
  | None => throw DataError
  end.

Definition db_get (t : tableName) (k : jsval) : M jsval :=
  match toKey k with
  | Some k' =>
      fun w => (Ok (match storeGet k' (database w t) with
                    | Some v => v
                    | None => JUndefined
                    end), w)
  | None => throw DataError
  end.

Definition db_delete (t : tableName) (k : jsval) : M unit :=
  match toKey k with
  | Some k' => modifyStore t (storeDelete k')
  | None => throw DataError
  end.

Definition db_clear (t : tableName) : M unit := modifyStore t (fun _ => []).

Definition db_getAll (t : tableName) : M (list jsval) :=
  fun w => (Ok (storeGetAll (database w t)), w).

(** ** Transaction handles

    A handle is active while the code that opened it runs, and again in
    the continuation of a request made on it. It is never aborted by this
    layer: once control goes back to the event loop with no request of
    the handle pending, the store commits it by itself and the handle has
    finished. Awaiting anything that is not a request on the handle does
    just that, and every call of the data layer completes a request
    outside all handles before it returns. A task is a computation that
    carries the identifiers of the handles that are active. What is
    requested on a handle reaches the store at once. *)

Definition Task (A : Type) : Type := list string -> M (A * list string).

Definition done {A} (a : A) : Task A := fun active => ret (a, active).

Definition raise {A} (e : error) : Task A := fun _ => throw e.

Definition andThen {A B} (m : Task A) (k : A -> Task B) : Task B :=
  fun active => r <- m active ;; k (fst r) (snd r).

Notation "x <~ m ;; k" := (andThen m (fun x => k))
  (at level 61, m at next level, right associativity).
Notation "m ~;; k" := (andThen m (fun _ => k))
  (at level 61, right associativity).

(** [await m] for a call [m] of the data layer: when it resolves no
    handle is active any more. *)
Definition await {A} (m : M A) : Task A :=
  fun _ => a <- m ;; ret (a, []).

(** A synchronous call leaves the handles as they are. *)
Definition sync {A} (m : M A) : Task A :=
  fun active => a <- m ;; ret (a, active).

(** [for (const x of l) await f(x)] *)
Fixpoint forEachTask {A} (f : A -> Task unit) (l : list A) : Task unit :=
  match l with
  | [] => done tt
  | x :: l' => f x ~;; forEachTask f l'
  end.

Definition isActive (tx : transaction) (active : list string) : bool :=
  existsb (String.eqb (txId tx)) active.

(** [db.transaction(names, mode)]: an empty scope and the mode
    versionchange are refused. *)
Definition db_transaction (names : list tableName) (mode : IDBTransactionMode)
  (txid : string) : Task transaction :=
  fun active =>
    match names, mode with
    | [], _ => throw (Raised "InvalidAccessError")
    | _, versionchange => throw TypeError
    | _, _ =>
        let tx := mkTransaction txid names mode in
        emit (Opened tx) ;;; ret (tx, txid :: active)
    end.

(** [tx.commit()] throws on a handle that is not active. *)
Definition commit (tx : transaction) : Task unit :=
  fun active =>
    if isActive tx active
    then emit (Committed tx) ;;;
         ret (tt, filter (fun id => negb (String.eqb (txId tx) id)) active)
    else throw (Raised "InvalidStateError").

(** [tx.objectStore(t)]: the pair of the handle and the table. A handle
    that is no longer active has finished. *)
Definition tx_objectStore (tx : transaction) (t : tableName)
  : Task (transaction * tableName) :=
  fun active =>
    if negb (isActive tx active) then throw (Raised "InvalidStateError")
    else if negb (existsb (tableName_beq t) (txTables tx))
         then throw (Raised "NotFoundError")
         else ret ((tx, t), active).

(** A request on a store of a handle: in its continuation that handle is
    the active one. *)
Definition request {A} (store : transaction * tableName) (writes : bool)
  (m : M A) : Task A :=
  fun active =>
    if negb (isActive (fst store) active)
    then throw (Raised "TransactionInactiveError")
    else
      match writes, txMode (fst store) with
      | true, readonly => throw (Raised "ReadOnlyError")
      | _, _ => a <- m ;; ret (a, [txId (fst store)])
      end.

(** [store.put(value)], [store.get(key)], [store.delete(key)] and
    [store.clear()] *)
Definition store_put (store : transaction * tableName) (value : jsval)
  : Task jsval :=
  request store true (db_put (snd store) value).

Definition store_get (store : transaction * tableName) (k : jsval)
  : Task jsval :=
  request store false (db_get (snd store) k).

Definition store_delete (store : transaction * tableName) (k : jsval)
  : Task unit :=
  request store true (db_delete (snd store) k).

Definition store_clear (store : transaction * tableName) : Task unit :=
  request store true (db_clear (snd store)).

(** ** The data layer *)

Section DataLayer.

(** The schemas of the tables are the validation engine's; the layer
    only calls their [assert]. *)
Variable Tables : tableName -> validator.

(** [Tables[t].assert(v)] *)
Definition assert (t : tableName) (v : jsval) : M jsval :=
  emit (Asserted t v) ;;; lift (Tables t v).

(** The label of the timer reads [value.id] before anything else. *)
Definition set (tableName : tableName) (value : jsval) : M jsval :=
  lift (getProp value "id") ;;;
  assert tableName value ;;;
  db_put tableName value.

Definition clear (table : tableName) : M unit := db_clear table.

Definition get (tableName : tableName) (key : jsval) : M jsval :=
  value <- db_get tableName key ;;
  if truthy value then assert tableName value else ret JUndefined.

Definition list_ (tableName : tableName) : M (list jsval) :=
  values <- db_getAll tableName ;;
  outs <- mapM (assert tableName) values ;;
  lift (sort idComparator outs).

(** [drop] of one key (key ranges are left out); the line it logs reads
    the [id] of every record left. *)
Definition drop (table : tableName) (id : jsval) : M unit :=
  db_delete table id ;;;
  l <- list_ table ;;
  lift (rmap (fun o => getProp o "id") l) ;;;
  ret tt.

(** *** The wrangler of a reactive table *)

Definition refresh (table : tableName) : M unit :=
  emit (Refreshed table) ;;;
  l <- list_ table ;;
  writeState table l.

Definition raw_set (table : tableName) (value : jsval) : M jsval :=
  db_put table value.

Definition raw_get (table : tableName) (key : jsval) : M jsval :=
  db_get table key.

Definition wrangler_set (table : tableName) (value : jsval) : M jsval :=
  set table value ;;;
  output <- assert table value ;;
  state <- readState table ;;
  index <- lift (findIndex (sameId value) state) ;;
  (if negb (index =? -1)
   then writeState table (arraySet state index output)
   else writeState table (state ++ [output]) ;;;
        sorted <- lift (sort idComparator (state ++ [output])) ;;
        writeState table sorted) ;;;
  ret output.

Definition update (table : tableName) (key : jsval) (property : string)
  (value : jsval) : M bool :=
  item <- raw_get table key ;;
  if negb (truthy item) then ret false
  else
    item' <- lift (setProp item property value) ;;
    set table item' ;;;
    state <- readState table ;;
    index <- lift (findIndex (hasId key) state) ;;
    (if index =? -1
     then l <- list_ table ;; writeState table l
     else output <- assert table item' ;;
          writeState table (arraySet state index output)) ;;;
    ret true.

(** [{ ...value, id: generateId(table) }] *)
Definition withId (value : jsval) (id : string) : jsval :=
  match value with
  | JObject props => JObject (assign "id" (JString id) props)
  | _ => JObject [("id", JString id)]
  end.

Definition add (table : tableName) (value : jsval) (fraction : list nat)
  : M jsval :=
  wrangler_set table (withId value (generateId (nameOf table) fraction)).

Definition wrangler_clear (table : tableName) : M unit :=
  clear table ;;;
  writeState table [].

Definition remove (table : tableName) (id : jsval) : M unit :=
  drop table id ;;;
  state <- readState table ;;
  index <- lift (findIndex (hasId id) state) ;;
  if negb (index =? -1)
  then l <- list_ table ;; writeState table l
  else writeState table (arrayDelete state index).

(** *** The transaction wrapper

    [txid] is the identifier drawn with [nanoid(8)]. *)

Definition openTransaction (txid : string) (tableNames : list tableName)
  (mode : option IDBTransactionMode) (tx : option transaction)
  (actions : transaction -> Task unit) : Task unit :=
  let mode := match mode with Some m => m | None => readwrite end in
  match tx with
  | Some tx => actions tx
  | None =>
      newTx <~ db_transaction tableNames mode txid ;;
      actions newTx ~;;
      commit newTx ~;;
      forEachTask (fun table => await (refresh table))
                  (filter isReactiveTable tableNames)
  end.

(** The actions are handed [tx.objectStore(table)]. *)
Definition do (txid : string) (table : tableName)
  (actions : transaction * tableName -> Task unit) : Task unit :=
  openTransaction txid [table] None None
    (fun tx => store <~ tx_objectStore tx table ;; actions store).

(** [tables.initialize()] *)
Definition initialize : M unit :=
  forEach (fun name => if negb (isReactiveTable name) then ret tt else refresh name)
          tableNames.

(** The validated records of a store, sorted by the identifier
    comparator: what [list] returns, without the journal. *)
Definition validatedStore (table : tableName) (s : objectStore) : result (list jsval) :=
  rbind (rmap (Tables table) (storeGetAll s)) (sort idComparator).

Definition validatedContents (table : tableName) (w : world) : result (list jsval) :=
  validatedStore table (database w table).

(** The mirror of [table] agrees with the store: it is the validated
    contents of the store in the comparator's order. *)
Definition mirrorInSync (table : tableName) (w : world) : Prop :=
  validatedContents table w = Ok (_tablesState w table).

End DataLayer.

(** ** Sample data *)

(** The state a fresh page starts from with an empty database. *)
Definition emptyWorld : world := mkWorld (fun _ => []) (fun _ => []) [].

(** A schema that accepts any object whose [id] is a string or a number
    and returns it as it is. *)
Definition anyRecord : validator :=
  fun v =>
    match v with
    | JObject _ =>
        match toKey (prop v "id") with
        | Some _ => Ok v
        | None => Throw ValidationError
        end
    | _ => Throw ValidationError
    end.

Definition record (id : string) : jsval := JObject [("id", JString id)].

(** A body that writes one record to Settings and one to Image through
    the raw path of their wranglers. *)
Definition writeTwoTables (_ : transaction) : Task unit :=
  await (raw_set Settings (record "user")) ~;;
  await (raw_set Image (record "img")) ~;;
  done tt.

(** The same writes, requested on the handle. *)
Definition putTwoTables (tx : transaction) : Task unit :=
  settings <~ tx_objectStore tx Settings ;;
  store_put settings (record "user") ~;;
  files <~ tx_objectStore tx ImageFile ;;
  store_put files (record "img") ~;;
  done tt.

(** A body that writes one record on the handle and then fails. *)
Definition writeThenFail (tx : transaction) : Task unit :=
  settings <~ tx_objectStore tx Settings ;;
  store_put settings (record "user") ~;;
  raise (Raised "abort").

(** A body that writes one record with the wrangler and then fails. *)
Definition setThenFail (Tables : tableName -> validator) (_ : transaction)
  : Task unit :=
  await (wrangler_set Tables Settings (record "user")) ~;;
  raise (Raised "abort").

(** A Settings table holding one record, mirrored. *)
Definition themed (theme : string) : jsval :=
  JObject [("id", JString "user"); ("theme", JString theme)].

Definition oneSetting : world :=
  mkWorld (update_at (fun _ => []) Settings [(KString "user", themed "dark")])
          (update_at (fun _ => []) Settings [themed "dark"])
          [].

(** ** Reading the journal *)

Definition isAsserted (e : event) : bool :=
  match e with Asserted _ _ => true | _ => false end.

Definition isCommitted (e : event) : bool :=
  match e with Committed _ => true | _ => false end.

Definition isOpened (e : event) : bool :=
  match e with Opened _ => true | _ => false end.

Definition isRefreshOf (t : tableName) (e : event) : bool :=
  match e with Refreshed t' => tableName_beq t t' | _ => false end.

(** The journal without the calls of validators: the handles opened and
    committed and the mirrors refreshed, in the order it happened. *)
Definition txEvents (j : list event) : list event :=
  filter (fun e => negb (isAsserted e)) j.

Definition countEvents (p : event -> bool) (j : list event) : nat :=
  length (filter p j).

Definition logged (e : event) (w : world) : world :=
  mkWorld (database w) (_tablesState w) (journal w ++ [e]).

(** The handle [openTransaction] opens when it is given none. *)
Definition newHandle (txid : string) (names : list tableName)
  (mode : option IDBTransactionMode) : transaction :=
  mkTransaction txid names (match mode with Some m => m | None => readwrite end).

(** The store opens a handle over [names] in [mode]. *)
Definition opens (names : list tableName) (mode : option IDBTransactionMode)
  : Prop :=
  names <> [] /\ mode <> Some versionchange.

(** * Properties *)

(** ** Identifier ordering *)

Lemma idComparator_identifiers a b :
  isObject a && hasProp "id" a = false ->
  isObject b && hasProp "id" b = false ->
  idComparator a b = compareIds a b.
Proof.
  funelim (idComparator a b); intros; try congruence.
Qed.

Lemma idComparator_record_left a b :
  isObject a && hasProp "id" a = true ->
  idComparator a b =
    rbind (getProp b "id") (fun bid => idComparator (prop a "id") bid).
Proof.
  funelim (idComparator a b); intros; simpl in *; congruence.
Qed.

Lemma idComparator_record_right a b :
  isObject a && hasProp "id" a = false ->
  isObject b && hasProp "id" b = true ->
  idComparator a b =
    rbind (getProp a "id") (fun aid => idComparator aid (prop b "id")).
Proof.
  funelim (idComparator a b); intros; simpl in *; congruence.
Qed.

(** The rules of the comparator on two arguments of one kind. *)
Lemma idComparator_records a b :
  isObject a && hasProp "id" a = true ->
  isObject b && hasProp "id" b = true ->
  idComparator a b = idComparator (prop a "id") (prop b "id").
Proof.
  intros Ha Hb. rewrite idComparator_record_left by assumption.
  destruct b; simpl in *; try discriminate. reflexivity.
Qed.

Lemma idComparator_numbers x y :
  idComparator (JNumber x) (JNumber y) = Ok (x - y).
Proof. now rewrite idComparator_identifiers. Qed.

Lemma idComparator_number_first x s :
  idComparator (JNumber x) (JString s) = Ok (-1) /\
  idComparator (JString s) (JNumber x) = Ok 1.
Proof. now rewrite !idComparator_identifiers. Qed.

Lemma idComparator_digit_strings s t :
  digitsOnly s = true -> digitsOnly t = true ->
  idComparator (JString s) (JString t) = Ok (Number s - Number t).
Proof.
  intros Hs Ht. rewrite idComparator_identifiers by reflexivity.
  simpl. now rewrite Hs, Ht.
Qed.

Lemma idComparator_strings s t :
  digitsOnly s && digitsOnly t = false ->
  idComparator (JString s) (JString t) = Ok (localeCompare s t).
Proof.
  intros H. rewrite idComparator_identifiers by reflexivity.
  simpl. now rewrite H.
Qed.

Lemma idComparator_examples :
  (exists n, idComparator (JString "2") (JString "10") = Ok n /\ n < 0) /\
  (exists n, idComparator (JString "2") (JString "b") = Ok n /\ n < 0) /\
  (exists n, idComparator (JString "b") (JString "a") = Ok n /\ 0 < n).
Proof.
  split; [exists (-8) | split; [exists (-1) | exists 1]];
    (split; [reflexivity | lia]).
Qed.

(** A record against a bare identifier: the comparator reads [id] off
    both arguments, so the identifier is replaced by undefined. *)
Lemma idComparator_record_identifier a s :
  isObject a && hasProp "id" a = true ->
  idComparator a (JString s) = idComparator (prop a "id") JUndefined.
Proof. intros Ha. now rewrite idComparator_record_left. Qed.

Lemma idComparator_identifier_record s b :
  isObject b && hasProp "id" b = true ->
  idComparator (JString s) b = idComparator JUndefined (prop b "id").
Proof. intros Hb. now rewrite idComparator_record_right. Qed.

(** C3. The comparator does not compare a record with a bare identifier
    by the record's primary key: where comparing "b" with "a" is
    positive, and so is comparing the records that carry them, the record
    of "b" against the identifier "a" is negative (its [id] is compared
    with the text of undefined), and the identifier "a" against the
    record of "b" throws a TypeError. *)
Theorem idComparator_mixed_arguments :
  idComparator (JString "b") (JString "a") = Ok 1 /\
  idComparator (record "b") (record "a") = Ok 1 /\
  idComparator (record "b") (JString "a") = Ok (-1) /\
  idComparator (JString "a") (record "b") = Throw TypeError.
Proof. repeat split; reflexivity. Qed.

(** ** Generated identifiers *)

Lemma substring_digits36 n ds :
  substring 0 n (digits36 ds) = digits36 (firstn n ds).
Proof.
  revert ds. induction n as [| n IH]; intros [| d ds]; simpl; try reflexivity.
  now rewrite IH.
Qed.

Lemma digit36_isBase36 d : (d < 36)%nat -> isBase36 (digit36 d) = true.
Proof.
  intros H. do 36 (destruct d as [| d]; [reflexivity |]). lia.
Qed.

Lemma digits36_isBase36 ds :
  wellFormedDraw ds -> allChars isBase36 (digits36 ds) = true.
Proof.
  induction 1 as [| d ds Hd _ IH]; simpl; [reflexivity |].
  now rewrite digit36_isBase36, IH.
Qed.

Lemma digits36_length ds : String.length (digits36 ds) = length ds.
Proof. induction ds; simpl; congruence. Qed.

Lemma slice_toString36 fraction :
  slice (toString36 fraction) 2 9 = digits36 (firstn 7 fraction).
Proof.
  destruct fraction as [| d ds]; [reflexivity |].
  unfold slice, toString36. simpl Nat.sub.
  change ("0." ++ digits36 (d :: ds))%string
    with (String "0" (String "." (digits36 (d :: ds)))).
  cbn [substring]. apply substring_digits36.
Qed.

Lemma lowerChar_isLowerAlpha c :
  isUpperAlpha c || isLowerAlpha c = true -> isLowerAlpha (lowerChar c) = true.
Proof.
  destruct c as [[] [] [] [] [] [] [] []]; vm_compute; congruence.
Qed.

(** C9, as the code has it. The generated identifier is the first
    character of the table name in lower case followed by the first seven
    fraction digits of the draw in base 36: at most seven characters, all
    of them base-36 digits, and exactly seven (so that the identifier
    matches the pattern of a lower-case letter and seven base-36
    characters) when the draw prints at least seven fraction digits and
    the table name starts with a letter. *)
Theorem generateId_shape (c : ascii) (rest : string) (fraction : list nat) :
  wellFormedDraw fraction ->
  let suffix := digits36 (firstn 7 fraction) in
  generateId (String c rest) fraction = String (lowerChar c) suffix /\
  allChars isBase36 suffix = true /\
  String.length suffix = Nat.min 7 (length fraction) /\
  ((7 <= length fraction)%nat ->
   isUpperAlpha c || isLowerAlpha c = true ->
   matchesGeneratedId (generateId (String c rest) fraction) = true).
Proof.
  intros Hwf suffix.
  assert (Hgen : generateId (String c rest) fraction = String (lowerChar c) suffix).
  { unfold generateId. rewrite slice_toString36.
    unfold slice. simpl. now destruct rest. }
  assert (Hall : allChars isBase36 suffix = true).
  { apply digits36_isBase36. unfold wellFormedDraw in *.
    rewrite Forall_forall in *. intros d Hd. apply Hwf.
    rewrite <- (firstn_skipn 7 fraction). apply in_or_app. now left. }
  assert (Hlen : String.length suffix = Nat.min 7 (length fraction)).
  { unfold suffix. now rewrite digits36_length, length_firstn. }
  repeat split; try assumption.
  intros H7 Hc. rewrite Hgen. unfold matchesGeneratedId.
  rewrite lowerChar_isLowerAlpha, Hall, Hlen by assumption.
  rewrite Nat.min_l by assumption. reflexivity.
Qed.

Lemma generateId_shape_witness :
  wellFormedDraw [4; 15; 35; 34; 24; 8; 2; 22; 31; 27; 0]%nat /\
  generateId "Widget" [4; 15; 35; 34; 24; 8; 2; 22; 31; 27; 0]%nat = "w4fzyo82" /\
  matchesGeneratedId "w4fzyo82" = true.
Proof.
  assert (Hwf : wellFormedDraw [4; 15; 35; 34; 24; 8; 2; 22; 31; 27; 0]%nat).
  { repeat constructor. }
  split; [exact Hwf |].
  destruct (@generateId_shape "W" "idget" _ Hwf) as [Hgen [_ [_ Hmatch]]].
  split; [exact Hgen |].
  apply Hmatch; [simpl; lia | reflexivity].
Defined.

(** A draw that prints fewer than seven fraction digits yields a shorter
    identifier: the draw 0.5 prints "0.i" and gives "wi" for the table
    Widget, the draw 0 prints "0" and gives "w"; neither matches the
    pattern of a letter and seven base-36 characters. *)
Lemma generateId_short_draw :
  wellFormedDraw [18%nat] /\
  generateId "Widget" [18%nat] = "wi" /\
  matchesGeneratedId (generateId "Widget" [18%nat]) = false /\
  generateId "Widget" [] = "w" /\
  matchesGeneratedId (generateId "Widget" []) = false.
Proof.
  split; [repeat constructor | repeat split; reflexivity].
Qed.

(** ** The store and the maps indexed by table *)

Lemma string_compare_refl s : String.compare s s = Eq.
Proof.
  induction s as [| c s IH]; simpl; [reflexivity |].
  unfold Ascii.compare. now rewrite N.compare_refl.
Qed.

Lemma keyCompare_refl k : keyCompare k k = Eq.
Proof.
  destruct k; simpl; [apply Z.compare_refl | apply string_compare_refl].
Qed.

Lemma storeGet_storePut k v s : storeGet k (storePut k v s) = Some v.
Proof.
  induction s as [| [k' v'] rest IH]; simpl.
  - now rewrite keyCompare_refl.
  - destruct (keyCompare k k') eqn:E; simpl.
    + now rewrite keyCompare_refl.
    + now rewrite keyCompare_refl.
    + now rewrite E.
Qed.

Lemma tableName_beq_refl t : tableName_beq t t = true.
Proof. now destruct t. Qed.

Lemma tableName_beq_eq t t' : tableName_beq t t' = true -> t = t'.
Proof. destruct t, t'; simpl; congruence. Qed.

Lemma update_at_same {V} (f : tableName -> V) t x : update_at f t x t = x.
Proof. unfold update_at. now rewrite tableName_beq_refl. Qed.

Lemma update_at_other {V} (f : tableName -> V) t x t' :
  t <> t' -> update_at f t x t' = f t'.
Proof.
  intros H. unfold update_at. destruct (tableName_beq t t') eqn:E; [| reflexivity].
  now apply tableName_beq_eq in E.
Qed.

(** A record of a store with a key path is an object. *)
Lemma keyed_value_is_object v path k :
  toKey (prop v path) = Some k -> isObject v = true.
Proof. destruct v; simpl; congruence. Qed.

(** ** Reading and writing through the validation gate *)

(** C10. When the store of a table holds no record at a key, [get]
    resolves to undefined and leaves the world as it was: the journal
    gains no call of the table's validator, whatever that validator is,
    and nothing is thrown. *)
Theorem get_missing_record (Tables : tableName -> validator) (t : tableName)
  (id : jsval) (k : key) (w : world) :
  toKey id = Some k ->
  storeGet k (database w t) = None ->
  get Tables t id w = (Ok JUndefined, w).
Proof.
  intros Hk Hnone. unfold get, bind, db_get. rewrite Hk, Hnone. reflexivity.
Qed.

Lemma get_missing_record_witness :
  get (fun _ _ => Throw ValidationError) Settings (JString "user") emptyWorld
  = (Ok JUndefined, emptyWorld).
Proof.
  apply (@get_missing_record _ Settings (JString "user") (KString "user") emptyWorld);
    reflexivity.
Defined.

(** C4. A record the validator of a table accepts, written with [set]
    and read back with [get] at its primary key, comes back as the
    validator's output for it. *)
Theorem set_then_get (Tables : tableName -> validator) (t : tableName)
  (r v : jsval) (k : key) (w : world) :
  Tables t r = Ok v ->
  toKey (prop r (keyPath t)) = Some k ->
  exists w1 w2,
    set Tables t r w = (Ok (ofKey k), w1) /\
    get Tables t (ofKey k) w1 = (Ok v, w2).
Proof.
  intros Hv Hk.
  pose proof (keyed_value_is_object _ _ Hk) as Hobj.
  destruct r as [| | | props]; simpl in Hobj; try discriminate.
  unfold set, get, assert, db_put, db_get, bind, emit, lift, modifyStore, ret,
    getProp.
  rewrite Hv, Hk. simpl.
  do 2 eexists. split; [reflexivity |].
  assert (Hkk : toKey (ofKey k) = Some k) by now destruct k.
  rewrite Hkk. simpl. rewrite update_at_same, storeGet_storePut. simpl.
  rewrite Hv. reflexivity.
Qed.

Lemma set_then_get_witness :
  exists w1 w2,
    set (fun _ => anyRecord) Settings (record "user") emptyWorld
      = (Ok (JString "user"), w1) /\
    get (fun _ => anyRecord) Settings (JString "user") w1
      = (Ok (record "user"), w2).
Proof.
  apply (@set_then_get (fun _ => anyRecord) Settings (record "user") (record "user")
           (KString "user") emptyWorld); reflexivity.
Defined.

(** ** Listing a table and refreshing its mirror *)

Lemma txEvents_app j j' : txEvents (j ++ j') = txEvents j ++ txEvents j'.
Proof. apply filter_app. Qed.

Section Listing.

Variable Tables : tableName -> validator.

Lemma mapM_assert t vs : forall w,
  exists w',
    mapM (assert Tables t) vs w = (rmap (Tables t) vs, w') /\
    database w' = database w /\
    _tablesState w' = _tablesState w /\
    txEvents (journal w') = txEvents (journal w).
Proof.
  induction vs as [| v vs IH]; intros w; simpl.
  - exists w. now repeat split.
  - unfold bind at 1. unfold assert at 1, bind, emit, lift.
    destruct (Tables t v) as [y | e]; simpl.
    + destruct (IH (logged (Asserted t v) w)) as (w' & Hrun & Hdb & Hst & Hj).
      unfold logged in Hrun. rewrite Hrun.
      exists w'. split; [now destruct (rmap (Tables t) vs) |].
      repeat split; try assumption.
      rewrite Hj. simpl. rewrite txEvents_app. simpl. apply app_nil_r.
    + eexists. split; [reflexivity |]. repeat split.
      simpl. rewrite txEvents_app. simpl. apply app_nil_r.
Qed.

Lemma list_spec t w :
  exists w',
    list_ Tables t w = (validatedContents Tables t w, w') /\
    database w' = database w /\
    _tablesState w' = _tablesState w /\
    txEvents (journal w') = txEvents (journal w).
Proof.
  destruct (mapM_assert t (storeGetAll (database w t)) w) as (w' & Hrun & Hrest).
  exists w'. split; [| exact Hrest].
  unfold list_, validatedContents, validatedStore, bind, db_getAll. rewrite Hrun.
  now destruct (rmap (Tables t) (storeGetAll (database w t))).
Qed.

Lemma validatedContents_database t w w' :
  database w' = database w ->
  validatedContents Tables t w' = validatedContents Tables t w.
Proof. intros H. unfold validatedContents. now rewrite H. Qed.

Lemma refresh_ok t w l :
  validatedContents Tables t w = Ok l ->
  exists w',
    refresh Tables t w = (Ok tt, w') /\
    database w' = database w /\
    _tablesState w' = update_at (_tablesState w) t l /\
    txEvents (journal w') = txEvents (journal w) ++ [Refreshed t].
Proof.
  intros Hl.
  destruct (list_spec t (logged (Refreshed t) w)) as (w1 & Hrun & Hdb & Hst & Hj).
  rewrite (@validatedContents_database t w (logged (Refreshed t) w) eq_refl) in Hrun.
  rewrite Hl in Hrun.
  unfold refresh, bind, emit. unfold logged in Hrun. rewrite Hrun.
  unfold writeState. eexists. split; [reflexivity |]. simpl.
  rewrite Hdb, Hst, Hj. simpl. rewrite txEvents_app. now repeat split.
Qed.

(** A refresh leaves the mirror in sync, whenever it completes. *)
Lemma refresh_in_sync t w w' :
  refresh Tables t w = (Ok tt, w') -> mirrorInSync Tables t w'.
Proof.
  intros Hrun.
  destruct (validatedContents Tables t w) as [l | e] eqn:Hl.
  - destruct (refresh_ok t w Hl) as (w1 & Hrun1 & Hdb & Hst & _).
    rewrite Hrun in Hrun1. injection Hrun1 as <-.
    unfold mirrorInSync. rewrite (@validatedContents_database t w _ Hdb).
    now rewrite Hst, update_at_same.
  - destruct (list_spec t (logged (Refreshed t) w)) as (w1 & Hrun1 & _).
    rewrite (@validatedContents_database t w (logged (Refreshed t) w) eq_refl) in Hrun1.
    rewrite Hl in Hrun1.
    unfold refresh, bind, emit in Hrun. unfold logged in Hrun1.
    rewrite Hrun1 in Hrun. discriminate.
Qed.

Lemma forEach_refresh ts : forall w,
  (forall t, In t ts -> exists l, validatedContents Tables t w = Ok l) ->
  exists w',
    forEach (refresh Tables) ts w = (Ok tt, w') /\
    database w' = database w /\
    txEvents (journal w') = txEvents (journal w) ++ map Refreshed ts /\
    (forall t, In t ts -> mirrorInSync Tables t w') /\
    (forall t, ~ In t ts -> _tablesState w' t = _tablesState w t).
Proof.
  induction ts as [| t ts IH]; intros w Hvalid; simpl.
  - exists w. repeat split; [now rewrite app_nil_r | contradiction].
  - destruct (Hvalid t (or_introl eq_refl)) as [l Hl].
    destruct (refresh_ok t w Hl) as (w1 & Hrun1 & Hdb1 & Hst1 & Hj1).
    destruct (IH w1) as (w' & Hrun & Hdb & Hj & Hsync & Hkeep).
    { intros t' Hin. rewrite (@validatedContents_database t' w _ Hdb1).
      apply Hvalid. now right. }
    exists w'. unfold bind. rewrite Hrun1, Hrun.
    split; [reflexivity |]. split; [congruence |].
    split; [rewrite Hj, Hj1, <- app_assoc; reflexivity |].
    split.
    + intros t' [<- | Hin]; [| now apply Hsync].
      destruct (in_dec tableName_eq_dec t ts) as [Hin | Hout]; [now apply Hsync |].
      unfold mirrorInSync. rewrite (Hkeep t Hout), Hst1, update_at_same.
      rewrite (@validatedContents_database t w w') by congruence.
      exact Hl.
    + intros t' Hout. rewrite Hkeep by tauto. rewrite Hst1.
      apply update_at_other. tauto.
Qed.

End Listing.

(** ** The transaction wrapper *)

Lemma countEvents_app p j j' :
  countEvents p (j ++ j') = (countEvents p j + countEvents p j')%nat.
Proof. unfold countEvents. now rewrite filter_app, length_app. Qed.

Lemma countEvents_one p e :
  countEvents p [e] = if p e then 1%nat else 0%nat.
Proof. unfold countEvents. simpl. now destruct (p e). Qed.

Lemma countEvents_txEvents p j :
  (forall e, isAsserted e = true -> p e = false) ->
  countEvents p (txEvents j) = countEvents p j.
Proof.
  intros Hp. unfold countEvents, txEvents.
  induction j as [| e j IH]; simpl; [reflexivity |].
  destruct (isAsserted e) eqn:E; simpl.
  - now rewrite (Hp e E).
  - destruct (p e); simpl; now rewrite IH.
Qed.

Lemma count_refreshes t names :
  countEvents (isRefreshOf t) (map Refreshed names)
  = count_occ tableName_eq_dec names t.
Proof.
  unfold countEvents.
  induction names as [| n names IH]; simpl; [reflexivity |].
  destruct (tableName_eq_dec n t) as [-> | Hne].
  - rewrite tableName_beq_refl. simpl. now rewrite IH.
  - destruct (tableName_beq t n) eqn:E; [| exact IH].
    apply tableName_beq_eq in E. congruence.
Qed.

Lemma count_other_events (p : event -> bool) names :
  (forall t, p (Refreshed t) = false) ->
  countEvents p (map Refreshed names) = 0%nat.
Proof.
  intros Hp. unfold countEvents.
  induction names as [| n names IH]; simpl; [reflexivity |].
  now rewrite Hp.
Qed.

Lemma count_occ_filter_reactive names t :
  count_occ tableName_eq_dec (filter isReactiveTable names) t
  = if isReactiveTable t then count_occ tableName_eq_dec names t else 0%nat.
Proof.
  induction names as [| n names IH]; cbn [filter count_occ].
  - now destruct (isReactiveTable t).
  - destruct (isReactiveTable n) eqn:En; cbn [count_occ];
      destruct (tableName_eq_dec n t) as [-> | Hne]; rewrite IH; try reflexivity.
    + now rewrite En.
    + now rewrite En.
Qed.

(** *** Tasks, step by step *)

Lemma andThen_ok {A B} (m : Task A) (f : A -> Task B) active w a active1 w1 :
  m active w = (Ok (a, active1), w1) -> andThen m f active w = f a active1 w1.
Proof. intros H. unfold andThen, bind. now rewrite H. Qed.

Lemma andThen_throw {A B} (m : Task A) (f : A -> Task B) active w e w1 :
  m active w = (Throw e, w1) -> andThen m f active w = (Throw e, w1).
Proof. intros H. unfold andThen, bind. now rewrite H. Qed.

Arguments andThen_ok {A B} m f {active w a active1 w1} _.
Arguments andThen_throw {A B} m f {active w e w1} _.

Lemma await_ok {A} (m : M A) active w a w1 :
  m w = (Ok a, w1) -> await m active w = (Ok (a, []), w1).
Proof. intros H. unfold await, bind. now rewrite H. Qed.

Lemma await_throw {A} (m : M A) active w e w1 :
  m w = (Throw e, w1) -> await m active w = (Throw e, w1).
Proof. intros H. unfold await, bind. now rewrite H. Qed.

Lemma db_transaction_opens names mode txid active w :
  opens names mode ->
  db_transaction names (match mode with Some m => m | None => readwrite end)
    txid active w
  = (Ok (newHandle txid names mode, txid :: active),
     logged (Opened (newHandle txid names mode)) w).
Proof.
  intros [Hnames Hmode]. unfold db_transaction, newHandle.
  destruct names as [| n names]; [congruence |].
  destruct mode as [[| |] |]; try reflexivity. congruence.
Qed.

Lemma commit_active tx active w :
  isActive tx active = true ->
  commit tx active w
  = (Ok (tt, filter (fun id => negb (String.eqb (txId tx) id)) active),
     logged (Committed tx) w).
Proof. intros H. unfold commit. now rewrite H. Qed.

Lemma commit_finished tx active w :
  isActive tx active = false ->
  commit tx active w = (Throw (Raised "InvalidStateError"), w).
Proof. intros H. unfold commit. now rewrite H. Qed.

Lemma committed_handle_is_finished tx active :
  isActive tx (filter (fun id => negb (String.eqb (txId tx) id)) active) = false.
Proof.
  unfold isActive. induction active as [| id active IH]; simpl; [reflexivity |].
  destruct (String.eqb (txId tx) id) eqn:E; simpl; [exact IH |].
  now rewrite E.
Qed.

Lemma tx_objectStore_active tx t active w :
  isActive tx active = true ->
  existsb (tableName_beq t) (txTables tx) = true ->
  tx_objectStore tx t active w = (Ok ((tx, t), active), w).
Proof. intros Ha Hin. unfold tx_objectStore. now rewrite Ha, Hin. Qed.

Lemma isActive_own tx : isActive tx [txId tx] = true.
Proof. unfold isActive. simpl. now rewrite String.eqb_refl. Qed.

Lemma isActive_opened txid names mode active :
  isActive (newHandle txid names mode) (txid :: active) = true.
Proof. unfold isActive. simpl. now rewrite String.eqb_refl. Qed.

Section Transactions.

Variable Tables : tableName -> validator.

(** The refreshes after a commit are those of [forEach], awaited one
    after the other. *)
Lemma forEachTask_refresh ts : forall active w,
  forEachTask (fun t => await (refresh Tables t)) ts active w
  = match forEach (refresh Tables) ts w with
    | (Ok _, w') => (Ok (tt, match ts with [] => active | _ => [] end), w')
    | (Throw e, w') => (Throw e, w')
    end.
Proof.
  induction ts as [| t ts IH]; intros active w; [reflexivity |].
  cbn [forEachTask forEach]. unfold andThen, await, bind at 1 2 4.
  destruct (refresh Tables t w) as [[[] | e] w1]; [| reflexivity].
  cbn [ret fst snd]. rewrite IH.
  destruct (forEach (refresh Tables) ts w1) as [[[] | e] w2]; [| reflexivity].
  now destruct ts.
Qed.

(** A call that opens a handle of its own and whose body returns with
    the handle active: [w1] is the world the body leaves behind. *)
Lemma openTransaction_new_handle txid names mode actions active active1 w w1 :
  let tx := newHandle txid names mode in
  opens names mode ->
  actions tx (txid :: active) (logged (Opened tx) w) = (Ok (tt, active1), w1) ->
  isActive tx active1 = true ->
  (forall t, In t names -> isReactiveTable t = true ->
     exists l, validatedContents Tables t w1 = Ok l) ->
  exists w' active',
    openTransaction Tables txid names mode None actions active w
      = (Ok (tt, active'), w') /\
    isActive tx active' = false /\
    txEvents (journal w') =
      txEvents (journal w1) ++
      Committed tx :: map Refreshed (filter isReactiveTable names) /\
    database w' = database w1 /\
    (forall t, In t names -> isReactiveTable t = true -> mirrorInSync Tables t w') /\
    (forall t, isReactiveTable t = false -> _tablesState w' t = _tablesState w1 t).
Proof.
  intros tx Hopens Hbody Hactive Hvalid.
  destruct (@forEach_refresh Tables (filter isReactiveTable names)
              (logged (Committed tx) w1))
    as (w' & Hrun & Hdb & Hj & Hsync & Hkeep).
  { intros t Hin. apply filter_In in Hin as [Hin Hre].
    rewrite (@validatedContents_database Tables t w1 (logged (Committed tx) w1) eq_refl).
    now apply Hvalid. }
  exists w'.
  exists (match filter isReactiveTable names with
          | [] => filter (fun id => negb (String.eqb (txId tx) id)) active1
          | _ => []
          end).
  split.
  { unfold openTransaction.
    rewrite (andThen_ok _ _ (@db_transaction_opens names mode txid active w Hopens)).
    fold tx. rewrite (andThen_ok _ _ Hbody).
    rewrite (andThen_ok _ _ (@commit_active tx active1 w1 Hactive)).
    rewrite forEachTask_refresh, Hrun. reflexivity. }
  split.
  { destruct (filter isReactiveTable names); [apply committed_handle_is_finished |].
    reflexivity. }
  split.
  { rewrite Hj. simpl. rewrite txEvents_app. simpl. now rewrite <- app_assoc. }
  split; [exact Hdb |]. split.
  - intros t Hin Hre. apply Hsync. apply filter_In. now split.
  - intros t Hre. rewrite Hkeep; [reflexivity |].
    intros Hin. apply filter_In in Hin as [_ Hre']. congruence.
Qed.

(** When the body returns and the handle is no longer active, the commit
    throws and the wrapper stops there. *)
Lemma openTransaction_finished_handle txid names mode actions active active1 w w1 :
  let tx := newHandle txid names mode in
  opens names mode ->
  actions tx (txid :: active) (logged (Opened tx) w) = (Ok (tt, active1), w1) ->
  isActive tx active1 = false ->
  openTransaction Tables txid names mode None actions active w
    = (Throw (Raised "InvalidStateError"), w1).
Proof.
  intros tx Hopens Hbody Hfinished. unfold openTransaction.
  rewrite (andThen_ok _ _ (@db_transaction_opens names mode txid active w Hopens)).
  fold tx. rewrite (andThen_ok _ _ Hbody).
  apply andThen_throw. now apply commit_finished.
Qed.

(** When the body throws, so does the wrapper, at once. *)
Lemma openTransaction_failed_body txid names mode actions active w w1 e :
  let tx := newHandle txid names mode in
  opens names mode ->
  actions tx (txid :: active) (logged (Opened tx) w) = (Throw e, w1) ->
  openTransaction Tables txid names mode None actions active w = (Throw e, w1).
Proof.
  intros tx Hopens Hbody. unfold openTransaction.
  rewrite (andThen_ok _ _ (@db_transaction_opens names mode txid active w Hopens)).
  fold tx. now apply andThen_throw.
Qed.

Lemma refresh_counts (p : event -> bool) tx names w' w1 :
  (forall e, isAsserted e = true -> p e = false) ->
  txEvents (journal w') =
    txEvents (journal w1) ++
    Committed tx :: map Refreshed (filter isReactiveTable names) ->
  countEvents p (journal w') =
    (countEvents p (journal w1) + countEvents p [Committed tx]
     + countEvents p (map Refreshed (filter isReactiveTable names)))%nat.
Proof.
  intros Hp Hj.
  rewrite <- (countEvents_txEvents p (journal w')),
          <- (countEvents_txEvents p (journal w1)) by assumption.
  rewrite Hj.
  change (Committed tx :: map Refreshed (filter isReactiveTable names))
    with ([Committed tx] ++ map Refreshed (filter isReactiveTable names)).
  rewrite !countEvents_app. apply Nat.add_assoc.
Qed.

End Transactions.

(** C6. A call of the transaction wrapper that opens a handle of its own
    and whose body returns commits that handle only when the handle is
    still active, which it is when the body awaited nothing but requests
    on it. Then, after the commit and before the wrapper returns, the
    mirror of each reactive table among [tableNames] is refreshed, one
    after the other in the order of the list, and ends in sync; a table
    that is not reactive gets no refresh and its entry of the mirror
    state is left alone. When the handle is no longer active the commit
    throws an InvalidStateError, which the wrapper throws in turn, and
    no mirror is refreshed. *)
Theorem openTransaction_commit_then_refresh (Tables : tableName -> validator)
  (txid : string) (names : list tableName) (mode : option IDBTransactionMode)
  (actions : transaction -> Task unit) (active active1 : list string)
  (w w1 : world) :
  let tx := newHandle txid names mode in
  opens names mode ->
  actions tx (txid :: active) (logged (Opened tx) w) = (Ok (tt, active1), w1) ->
  (isActive tx active1 = true ->
   (forall t, In t names -> isReactiveTable t = true ->
      exists l, validatedContents Tables t w1 = Ok l) ->
   exists w' active',
     openTransaction Tables txid names mode None actions active w
       = (Ok (tt, active'), w') /\
     isActive tx active' = false /\
     txEvents (journal w') =
       txEvents (journal w1) ++
       Committed tx :: map Refreshed (filter isReactiveTable names) /\
     database w' = database w1 /\
     (forall t, In t names -> isReactiveTable t = true -> mirrorInSync Tables t w') /\
     (forall t, isReactiveTable t = false ->
        _tablesState w' t = _tablesState w1 t /\
        countEvents (isRefreshOf t) (journal w')
        = countEvents (isRefreshOf t) (journal w1))) /\
  (isActive tx active1 = false ->
   openTransaction Tables txid names mode None actions active w
     = (Throw (Raised "InvalidStateError"), w1)).
Proof.
  intros tx Hopens Hbody. split.
  - intros Hactive Hvalid.
    destruct (@openTransaction_new_handle Tables txid names mode actions active
                active1 w w1 Hopens Hbody Hactive Hvalid)
      as (w' & active' & Hrun & Hdone & Hj & Hdb & Hsync & Hkeep).
    exists w', active'.
    split; [exact Hrun |]. split; [exact Hdone |]. split; [exact Hj |].
    split; [exact Hdb |]. split; [exact Hsync |].
    intros t Hre. split; [now apply Hkeep |].
    rewrite (@refresh_counts (isRefreshOf t) tx names w' w1)
      by (try exact Hj; intros []; simpl; congruence).
    rewrite count_refreshes, count_occ_filter_reactive, Hre, countEvents_one.
    simpl. lia.
  - intros Hfinished.
    exact (@openTransaction_finished_handle Tables txid names mode actions active
             active1 w w1 Hopens Hbody Hfinished).
Qed.

Lemma openTransaction_commit_then_refresh_witness :
  exists w' active',
    openTransaction (fun _ => anyRecord) "t1" [ImageFile; Settings] None None
      putTwoTables [] emptyWorld = (Ok (tt, active'), w') /\
    txEvents (journal w') =
      [Opened (newHandle "t1" [ImageFile; Settings] None);
       Committed (newHandle "t1" [ImageFile; Settings] None);
       Refreshed Settings] /\
    _tablesState w' Settings = [record "user"] /\
    _tablesState w' ImageFile = [].
Proof.
  pose (w1 := snd (putTwoTables (newHandle "t1" [ImageFile; Settings] None) ["t1"]
                     (logged (Opened (newHandle "t1" [ImageFile; Settings] None))
                        emptyWorld))).
  destruct (@openTransaction_commit_then_refresh (fun _ => anyRecord) "t1"
              [ImageFile; Settings] None putTwoTables [] ["t1"] emptyWorld w1)
    as [Hcommits _].
  - split; discriminate.
  - reflexivity.
  - destruct Hcommits as (w' & active' & Hrun & _ & Hj & _ & _ & _).
    + reflexivity.
    + intros t [<- | [<- | []]] _; eexists; reflexivity.
    + pose proof Hrun as Hw. vm_compute in Hw. injection Hw as _ Hw. subst w'.
      eexists. exists active'. split; [exact Hrun |]. split; [exact Hj |].
      split; reflexivity.
Defined.

(** A body that returns after it awaited a wrangler is not followed by
    a commit and a refresh: the body of [writeTwoTables] returns, its
    writes are in the store, and the wrapper throws at the commit with no
    refresh made: the mirrors of Settings and Image stay empty. *)
Theorem openTransaction_commit_after_await :
  exists w1,
    writeTwoTables (newHandle "t1" [Image; Settings] None) ["t1"]
      (logged (Opened (newHandle "t1" [Image; Settings] None)) emptyWorld)
      = (Ok (tt, []), w1) /\
    openTransaction (fun _ => anyRecord) "t1" [Image; Settings] None None
      writeTwoTables [] emptyWorld = (Throw (Raised "InvalidStateError"), w1) /\
    journal w1 = [Opened (newHandle "t1" [Image; Settings] None)] /\
    database w1 Settings = [(KString "user", record "user")] /\
    database w1 Image = [(KString "img", record "img")] /\
    _tablesState w1 Settings = [] /\
    _tablesState w1 Image = [] /\
    ~ mirrorInSync (fun _ => anyRecord) Settings w1.
Proof.
  eexists. split; [vm_compute; reflexivity |].
  split; [vm_compute; reflexivity |].
  do 5 (split; [reflexivity |]).
  unfold mirrorInSync. vm_compute. discriminate.
Qed.

(** C5. Given an ambient handle the wrapper is its body applied to that
    handle: nothing is opened, committed or refreshed besides what the
    body does. So when a call that opens a handle runs, as its body, a
    second call that is passed that handle, and the innermost body leaves
    the handle active, the two together add to what the innermost body
    did exactly one commit, of the handle the outer call opened, no
    further handle, and for every reactive table as many refreshes as the
    table occurs in the outer call's [tableNames]: one when the names are
    distinct. The refreshed mirrors end in sync. *)
Theorem openTransaction_ambient_handle (Tables : tableName -> validator)
  (txid txid' : string) (names names' : list tableName)
  (mode mode' : option IDBTransactionMode)
  (ambient : transaction) (inner : transaction -> Task unit)
  (active active1 : list string) (w w1 : world) :
  let tx := newHandle txid names mode in
  let nested := fun handle => openTransaction Tables txid' names' mode' (Some handle) inner in
  opens names mode ->
  inner tx (txid :: active) (logged (Opened tx) w) = (Ok (tt, active1), w1) ->
  isActive tx active1 = true ->
  (forall t, In t names -> isReactiveTable t = true ->
     exists l, validatedContents Tables t w1 = Ok l) ->
  (forall active0 w0,
     openTransaction Tables txid' names' mode' (Some ambient) inner active0 w0
     = inner ambient active0 w0) /\
  exists w' active',
    openTransaction Tables txid names mode None nested active w
      = (Ok (tt, active'), w') /\
    txEvents (journal w') =
      txEvents (journal w1) ++
      Committed tx :: map Refreshed (filter isReactiveTable names) /\
    countEvents isOpened (journal w') = countEvents isOpened (journal w1) /\
    countEvents isCommitted (journal w') = S (countEvents isCommitted (journal w1)) /\
    (forall t, isReactiveTable t = true ->
       countEvents (isRefreshOf t) (journal w')
       = (countEvents (isRefreshOf t) (journal w1)
          + count_occ tableName_eq_dec names t)%nat) /\
    (NoDup names ->
     forall t, In t names -> isReactiveTable t = true ->
       countEvents (isRefreshOf t) (journal w')
       = S (countEvents (isRefreshOf t) (journal w1))) /\
    (forall t, In t names -> isReactiveTable t = true -> mirrorInSync Tables t w').
Proof.
  intros tx nested Hopens Hbody Hactive Hvalid. split; [reflexivity |].
  destruct (@openTransaction_new_handle Tables txid names mode nested active
              active1 w w1 Hopens Hbody Hactive Hvalid)
    as (w' & active' & Hrun & _ & Hj & _ & Hsync & _).
  fold tx in Hj.
  assert (Hrefresh : forall t, isReactiveTable t = true ->
            countEvents (isRefreshOf t) (journal w')
            = (countEvents (isRefreshOf t) (journal w1)
               + count_occ tableName_eq_dec names t)%nat).
  { intros t Hre.
    rewrite (@refresh_counts (isRefreshOf t) tx names w' w1)
      by (try exact Hj; intros []; simpl; congruence).
    rewrite count_refreshes, count_occ_filter_reactive, Hre, countEvents_one.
    simpl. lia. }
  exists w', active'. split; [exact Hrun |]. split; [exact Hj |].
  split; [| split; [| split; [| split]]].
  - rewrite (@refresh_counts isOpened tx names w' w1)
      by (try exact Hj; intros []; simpl; congruence).
    rewrite count_other_events, countEvents_one by reflexivity. simpl. lia.
  - rewrite (@refresh_counts isCommitted tx names w' w1)
      by (try exact Hj; intros []; simpl; congruence).
    rewrite count_other_events, countEvents_one by reflexivity. simpl. lia.
  - exact Hrefresh.
  - intros Hnodup t Hin Hre. rewrite Hrefresh by assumption.
    rewrite (proj1 (NoDup_count_occ' tableName_eq_dec names) Hnodup t Hin). lia.
  - exact Hsync.
Qed.

Lemma openTransaction_ambient_handle_witness :
  exists w' active',
    openTransaction (fun _ => anyRecord) "outer" [ImageFile; Settings] None None
      (fun handle =>
         openTransaction (fun _ => anyRecord) "inner" [Settings] None (Some handle)
           putTwoTables)
      [] emptyWorld = (Ok (tt, active'), w') /\
    txEvents (journal w') =
      [Opened (newHandle "outer" [ImageFile; Settings] None);
       Committed (newHandle "outer" [ImageFile; Settings] None);
       Refreshed Settings] /\
    countEvents isCommitted (journal w') = 1%nat /\
    countEvents (isRefreshOf Settings) (journal w') = 1%nat /\
    mirrorInSync (fun _ => anyRecord) Settings w'.
Proof.
  pose (w1 := snd (putTwoTables (newHandle "outer" [ImageFile; Settings] None)
                     ["outer"]
                     (logged (Opened (newHandle "outer" [ImageFile; Settings] None))
                        emptyWorld))).
  destruct (@openTransaction_ambient_handle (fun _ => anyRecord) "outer" "inner"
              [ImageFile; Settings] [Settings] None None
              (newHandle "outer" [ImageFile; Settings] None)
              putTwoTables [] ["outer"] emptyWorld w1)
    as (_ & w' & active' & Hrun & Hj & _ & Hcommit & _ & Hone & Hsync).
  - split; discriminate.
  - reflexivity.
  - reflexivity.
  - intros t [<- | [<- | []]] _; eexists; reflexivity.
  - exists w', active'. split; [exact Hrun |]. split; [exact Hj |].
    split; [exact Hcommit |]. split.
    + apply Hone; [| simpl; tauto | reflexivity].
      repeat constructor; simpl; intuition congruence.
    + apply Hsync; [simpl; tauto | reflexivity].
Defined.

(** Nested calls that share a handle need not end in one commit and one
    refresh per table. With an innermost body that awaits a wrangler the
    handle passed down has finished when the outer call commits: the call
    throws, and there is no commit and no refresh at all. With a table
    named twice by the outer call and a body that stays on the handle
    there are two refreshes of that table. *)
Theorem openTransaction_nested_counts :
  (exists w',
     openTransaction (fun _ => anyRecord) "outer" [Image; Settings] None None
       (fun handle =>
          openTransaction (fun _ => anyRecord) "inner" [Settings] None (Some handle)
            writeTwoTables)
       [] emptyWorld = (Throw (Raised "InvalidStateError"), w') /\
     countEvents isCommitted (journal w') = 0%nat /\
     countEvents (isRefreshOf Settings) (journal w') = 0%nat) /\
  (exists w' active',
     openTransaction (fun _ => anyRecord) "outer" [Settings; Settings] None None
       (fun handle =>
          openTransaction (fun _ => anyRecord) "inner" [Settings] None (Some handle)
            (fun tx => settings <~ tx_objectStore tx Settings ;;
                       store_put settings (record "user") ~;; done tt))
       [] emptyWorld = (Ok (tt, active'), w') /\
     countEvents isCommitted (journal w') = 1%nat /\
     countEvents (isRefreshOf Settings) (journal w') = 2%nat).
Proof.
  split.
  - eexists. split; [vm_compute; reflexivity |]. split; reflexivity.
  - do 2 eexists. split; [vm_compute; reflexivity |]. split; reflexivity.
Qed.

(** C7. When the body of a call that opens a handle of its own throws,
    the wrapper throws the same error and the world is the one the body
    left: the wrapper calls neither [commit] nor [refresh], and the store
    and the mirror are what they were when the body failed, with what the
    body wrote before. *)
Theorem openTransaction_body_throws (Tables : tableName -> validator)
  (txid : string) (names : list tableName) (mode : option IDBTransactionMode)
  (actions : transaction -> Task unit) (active : list string)
  (w w1 : world) (e : error) :
  let tx := newHandle txid names mode in
  opens names mode ->
  actions tx (txid :: active) (logged (Opened tx) w) = (Throw e, w1) ->
  openTransaction Tables txid names mode None actions active w = (Throw e, w1).
Proof.
  intros tx Hopens Hbody.
  exact (@openTransaction_failed_body Tables txid names mode actions active w w1 e
           Hopens Hbody).
Qed.

Lemma openTransaction_body_throws_witness :
  exists w',
    openTransaction (fun _ => anyRecord) "t1" [Settings] None None
      writeThenFail [] emptyWorld = (Throw (Raised "abort"), w') /\
    journal w' = [Opened (newHandle "t1" [Settings] None)] /\
    _tablesState w' Settings = [].
Proof.
  eexists. split.
  - apply (@openTransaction_body_throws (fun _ => anyRecord) "t1" [Settings] None
             writeThenFail [] emptyWorld _ (Raised "abort")).
    + split; discriminate.
    + vm_compute. reflexivity.
  - split; reflexivity.
Defined.

(** A failed call leaves behind what its body did. The handle is never
    aborted, so the record the body put on it before failing is in the
    store although [commit] was not called; and a body that wrote with a
    wrangler before failing has changed the mirror. *)
Theorem openTransaction_failed_body_keeps_writes :
  (exists w',
     openTransaction (fun _ => anyRecord) "t1" [Settings] None None
       writeThenFail [] emptyWorld = (Throw (Raised "abort"), w') /\
     countEvents isCommitted (journal w') = 0%nat /\
     database emptyWorld Settings = [] /\
     database w' Settings = [(KString "user", record "user")]) /\
  (exists w',
     openTransaction (fun _ => anyRecord) "t1" [Settings] None None
       (setThenFail (fun _ => anyRecord)) [] emptyWorld
       = (Throw (Raised "abort"), w') /\
     _tablesState emptyWorld Settings = [] /\
     _tablesState w' Settings = [record "user"]).
Proof.
  split.
  - eexists. split; [vm_compute; reflexivity |]. now repeat split.
  - eexists. split; [vm_compute; reflexivity |]. now split.
Qed.

(** ** Running computations step by step *)

Lemma bind_ok {A B} (m : M A) (f : A -> M B) w a w1 :
  m w = (Ok a, w1) -> bind m f w = f a w1.
Proof. intros H. unfold bind. now rewrite H. Qed.

Lemma bind_throw {A B} (m : M A) (f : A -> M B) w e w1 :
  m w = (Throw e, w1) -> bind m f w = (Throw e, w1).
Proof. intros H. unfold bind. now rewrite H. Qed.

Arguments bind_ok {A B} m f {w a w1} _.
Arguments bind_throw {A B} m f {w e w1} _.

Lemma assert_run Tables t v w :
  assert Tables t v w = (Tables t v, logged (Asserted t v) w).
Proof. reflexivity. Qed.

Lemma set_ok Tables t v out k w :
  Tables t v = Ok out ->
  toKey (prop v (keyPath t)) = Some k ->
  set Tables t v w =
    (Ok (ofKey k),
     mkWorld (update_at (database w) t (storePut k v (database w t)))
             (_tablesState w) (journal w ++ [Asserted t v])).
Proof.
  intros Hout Hk. unfold set.
  rewrite (bind_ok _ _ (a := prop v "id") (w1 := w))
    by (pose proof (keyed_value_is_object _ _ Hk); now destruct v).
  rewrite (bind_ok _ _ (a := out) (w1 := logged (Asserted t v) w))
    by (now rewrite assert_run, Hout).
  unfold db_put. now rewrite Hk.
Qed.

Arguments set_ok Tables t v {out k} w _ _.

Lemma object_defined props : JObject props <> JUndefined.
Proof. discriminate. Qed.

Lemma set_rejected Tables t v e w :
  v <> JUndefined ->
  Tables t v = Throw e ->
  set Tables t v w = (Throw e, logged (Asserted t v) w).
Proof.
  intros Hdef Hbad. unfold set.
  rewrite (bind_ok _ _ (a := prop v "id") (w1 := w)) by now destruct v.
  apply bind_throw. now rewrite assert_run, Hbad.
Qed.

Arguments set_rejected Tables t v {e} w _ _.

Lemma jsval_undefined_dec v : {v = JUndefined} + {v <> JUndefined}.
Proof. destruct v; [now left | right; discriminate ..]. Qed.

(** On undefined the read of [value.id] throws before the validator is
    called. *)
Lemma set_undefined Tables t w :
  set Tables t JUndefined w = (Throw TypeError, w).
Proof. reflexivity. Qed.

Lemma raw_get_run t id k w :
  toKey id = Some k ->
  raw_get t id w =
    (Ok (match storeGet k (database w t) with Some v => v | None => JUndefined end), w).
Proof. intros Hk. unfold raw_get, db_get. now rewrite Hk. Qed.

Arguments raw_get_run t id {k} w _.

(** ** Updating one field of a record *)

Lemma update_at_id {V} (f : tableName -> V) t t' : update_at f t (f t) t' = f t'.
Proof.
  unfold update_at. destruct (tableName_beq t t') eqn:E; [| reflexivity].
  now apply tableName_beq_eq in E as ->.
Qed.

(** C8. [update] on a key the store does not hold returns false and
    leaves the world as it was: nothing is written and the mirror is not
    touched. On a key the store holds it sets the field on the stored
    record and writes the whole record back through the validator: when
    the validator rejects the record, its error is thrown and neither the
    store nor the mirror changes; when it accepts, the record is put in
    the store and, the mirror being patched at the index of the key or,
    the key missing from the mirror, reloaded from the store, [update]
    returns true. *)
Theorem update_contract (Tables : tableName -> validator) (t : tableName)
  (id : jsval) (k : key) (property : string) (value : jsval) (w : world) :
  toKey id = Some k ->
  (storeGet k (database w t) = None ->
   update Tables t id property value w = (Ok false, w)) /\
  (forall props e,
     storeGet k (database w t) = Some (JObject props) ->
     Tables t (JObject (assign property value props)) = Throw e ->
     exists w',
       update Tables t id property value w = (Throw e, w') /\
       database w' = database w /\
       _tablesState w' = _tablesState w) /\
  (forall props out k' index,
     let item := JObject (assign property value props) in
     let written := storePut k' item (database w t) in
     storeGet k (database w t) = Some (JObject props) ->
     Tables t item = Ok out ->
     toKey (prop item (keyPath t)) = Some k' ->
     findIndex (hasId id) (_tablesState w t) = Ok index ->
     (index = -1 -> exists l, validatedStore Tables t written = Ok l) ->
     exists w',
       update Tables t id property value w = (Ok true, w') /\
       database w' t = written /\
       (index <> -1 ->
        _tablesState w' t = arraySet (_tablesState w t) index out) /\
       (index = -1 ->
        validatedStore Tables t written = Ok (_tablesState w' t))).
Proof.
  intros Hk. split; [| split].
  - intros Hnone. unfold update.
    rewrite (bind_ok _ _ (raw_get_run t id w Hk)), Hnone. reflexivity.
  - intros props e Hsome Hbad. unfold update.
    rewrite (bind_ok _ _ (raw_get_run t id w Hk)), Hsome. cbn [truthy negb setProp].
    rewrite (bind_ok _ _ (a := JObject (assign property value props)) (w1 := w))
      by reflexivity.
    rewrite (bind_throw _ _ (set_rejected Tables t _ w (@object_defined _) Hbad)).
    eexists. split; [reflexivity |]. now split.
  - intros props out k' index item written Hsome Hout Hk' Hindex Hlist.
    unfold update.
    rewrite (bind_ok _ _ (raw_get_run t id w Hk)), Hsome. cbn [truthy negb setProp].
    rewrite (bind_ok _ _ (a := item) (w1 := w)) by reflexivity.
    rewrite (bind_ok _ _ (set_ok Tables t item w Hout Hk')). fold written.
    set (wA := mkWorld (update_at (database w) t written) (_tablesState w)
                       (journal w ++ [Asserted t item])).
    rewrite (bind_ok _ _ (a := _tablesState w t) (w1 := wA)) by reflexivity.
    rewrite (bind_ok _ _ (a := index) (w1 := wA))
      by (unfold lift; now rewrite Hindex).
    destruct (Z.eqb_spec index (-1)) as [Hminus | Hfound].
    + destruct (Hlist Hminus) as [l Hl].
      destruct (list_spec Tables t wA) as (w1 & Hrun & Hdb & Hst & _).
      unfold validatedContents in Hrun. simpl in Hrun.
      rewrite update_at_same, Hl in Hrun.
      rewrite (bind_ok _ _ (a := tt)
                 (w1 := mkWorld (database w1) (update_at (_tablesState w1) t l) (journal w1)))
        by (now rewrite (bind_ok _ _ Hrun)).
      eexists. split; [reflexivity |]. simpl. rewrite Hdb. simpl.
      rewrite !update_at_same.
      split; [reflexivity | split; [intros; contradiction | now intros _]].
    + rewrite (bind_ok _ _ (a := tt)
                 (w1 := mkWorld (database wA)
                          (update_at (_tablesState wA) t (arraySet (_tablesState w t) index out))
                          (journal wA ++ [Asserted t item])))
        by (rewrite (bind_ok _ _ (a := out) (w1 := logged (Asserted t item) wA));
            [reflexivity | now rewrite assert_run, Hout]).
      eexists. split; [reflexivity |]. simpl.
      rewrite !update_at_same.
      split; [reflexivity | split; [reflexivity | intros; contradiction]].
Qed.

Lemma update_contract_witness :
  update (fun _ => anyRecord) Settings (JString "nobody") "theme" (JString "light")
    oneSetting = (Ok false, oneSetting) /\
  (exists w',
     update (fun _ => anyRecord) Settings (JString "user") "id" JUndefined
       oneSetting = (Throw ValidationError, w') /\
     database w' = database oneSetting /\
     _tablesState w' = _tablesState oneSetting) /\
  (exists w',
     update (fun _ => anyRecord) Settings (JString "user") "theme" (JString "light")
       oneSetting = (Ok true, w') /\
     database w' Settings = [(KString "user", themed "light")] /\
     _tablesState w' Settings = [themed "light"]).
Proof.
  split; [| split].
  - apply (proj1 (@update_contract (fun _ => anyRecord) Settings (JString "nobody")
                    (KString "nobody") "theme" (JString "light") oneSetting eq_refl)).
    reflexivity.
  - apply (proj1 (proj2 (@update_contract (fun _ => anyRecord) Settings (JString "user")
                    (KString "user") "id" JUndefined oneSetting eq_refl))
             [("id", JString "user"); ("theme", JString "dark")] ValidationError);
      reflexivity.
  - destruct (proj2 (proj2 (@update_contract (fun _ => anyRecord) Settings (JString "user")
                    (KString "user") "theme" (JString "light") oneSetting eq_refl))
                [("id", JString "user"); ("theme", JString "dark")]
                (themed "light") (KString "user") 0
                eq_refl eq_refl eq_refl eq_refl)
      as (w' & Hrun & Hdb & Hpatch & _).
    { intros H. discriminate H. }
    exists w'. split; [exact Hrun |]. split; [exact Hdb |].
    apply Hpatch. discriminate.
Defined.

(** ** Removing a record *)

Section Removal.

Variable Tables : tableName -> validator.

Lemma db_delete_state t id w r w1 :
  db_delete t id w = (r, w1) -> _tablesState w1 = _tablesState w.
Proof.
  unfold db_delete. destruct (toKey id); intros [= _ <-]; reflexivity.
Qed.

Lemma drop_state t id w r w1 :
  drop Tables t id w = (r, w1) -> _tablesState w1 = _tablesState w.
Proof.
  unfold drop, bind.
  destruct (db_delete t id w) as [[[] | e] wD] eqn:Hd;
    apply db_delete_state in Hd; [| now intros [= _ <-]].
  destruct (list_spec Tables t wD) as (wL & Hrun & _ & Hst & _).
  rewrite Hrun.
  destruct (validatedContents Tables t wD) as [l | e]; [| intros [= _ <-]; congruence].
  unfold lift, ret.
  destruct (rmap (fun o => getProp o "id") l); intros [= _ <-]; congruence.
Qed.

(** When no record of the mirror carries the key, [remove] leaves every
    mirror as it was: the branch taken deletes the element at index -1,
    which no array has, and no refresh takes place. *)
Lemma remove_absent_keeps_mirror t id w r w' :
  findIndex (hasId id) (_tablesState w t) = Ok (-1) ->
  remove Tables t id w = (r, w') ->
  forall t', _tablesState w' t' = _tablesState w t'.
Proof.
  intros Hindex. unfold remove. unfold bind at 1.
  destruct (drop Tables t id w) as [[[] | e] w1] eqn:Hdrop;
    apply drop_state in Hdrop; [| intros [= _ <-] t'; now rewrite Hdrop].
  rewrite (bind_ok _ _ (a := _tablesState w1 t) (w1 := w1)) by reflexivity.
  rewrite Hdrop.
  rewrite (bind_ok _ _ (a := -1) (w1 := w1)) by (unfold lift; now rewrite Hindex).
  simpl. unfold writeState, arrayDelete. simpl.
  intros [= _ <-] t'. simpl. rewrite <- Hdrop. apply update_at_id.
Qed.

Lemma drop_ok t id w w1 :
  drop Tables t id w = (Ok tt, w1) ->
  exists k l,
    toKey id = Some k /\
    database w1 = update_at (database w) t (storeDelete k (database w t)) /\
    validatedContents Tables t w1 = Ok l.
Proof.
  unfold drop, bind at 1, db_delete.
  destruct (toKey id) as [k |]; [| discriminate].
  unfold modifyStore.
  set (wD := mkWorld (update_at (database w) t (storeDelete k (database w t)))
                     (_tablesState w) (journal w)).
  destruct (list_spec Tables t wD) as (wL & Hrun & Hdb & _).
  unfold bind at 1. rewrite Hrun.
  destruct (validatedContents Tables t wD) as [l | e] eqn:Hl; [| discriminate].
  unfold bind, lift, ret.
  destruct (rmap (fun o => getProp o "id") l); [| discriminate].
  intros [= <-]. exists k, l. split; [reflexivity |]. split; [exact Hdb |].
  now rewrite (@validatedContents_database Tables t wD wL Hdb).
Qed.

(** When a record of the mirror carries the key, [remove] reloads the
    mirror from the store. *)
Lemma remove_found_refreshes t id w w1 index :
  drop Tables t id w = (Ok tt, w1) ->
  findIndex (hasId id) (_tablesState w t) = Ok index ->
  index <> -1 ->
  exists w',
    remove Tables t id w = (Ok tt, w') /\
    database w' = database w1 /\
    mirrorInSync Tables t w'.
Proof.
  intros Hdrop Hindex Hfound.
  destruct (drop_ok _ _ _ Hdrop) as (k & l & _ & _ & Hl).
  pose proof (drop_state _ _ _ Hdrop) as Hst.
  destruct (list_spec Tables t w1) as (wL & Hrun & Hdb & HstL & _).
  rewrite Hl in Hrun.
  unfold remove.
  rewrite (bind_ok _ _ Hdrop).
  rewrite (bind_ok _ _ (a := _tablesState w1 t) (w1 := w1)) by reflexivity.
  rewrite Hst.
  rewrite (bind_ok _ _ (a := index) (w1 := w1)) by (unfold lift; now rewrite Hindex).
  destruct (Z.eqb_spec index (-1)) as [| _]; [contradiction |]. cbn [negb].
  rewrite (bind_ok _ _ Hrun). unfold writeState.
  eexists. split; [reflexivity |]. split; [exact Hdb |].
  unfold mirrorInSync, validatedContents in *. cbn [database _tablesState].
  rewrite Hdb, update_at_same. exact Hl.
Qed.

End Removal.

(** C2. [remove] of a key that no record of the mirror carries does not
    refresh the mirror. With the records "a" and "b" in the store of
    Settings and an empty mirror, removing "a" deletes it from the store
    and returns, and the mirror is still empty although the store, read
    back through the validator, holds the record "b". *)
Theorem remove_absent_from_mirror_no_refresh :
  exists w0 w',
    (raw_set Settings (record "a") ;;; raw_set Settings (record "b")) emptyWorld
      = (Ok (JString "b"), w0) /\
    database w0 Settings = [(KString "a", record "a"); (KString "b", record "b")] /\
    _tablesState w0 Settings = [] /\
    findIndex (hasId (JString "a")) (_tablesState w0 Settings) = Ok (-1) /\
    remove (fun _ => anyRecord) Settings (JString "a") w0 = (Ok tt, w') /\
    database w' Settings = [(KString "b", record "b")] /\
    _tablesState w' Settings = [] /\
    validatedContents (fun _ => anyRecord) Settings w' = Ok [record "b"] /\
    ~ mirrorInSync (fun _ => anyRecord) Settings w'.
Proof.
  do 2 eexists.
  split; [vm_compute; reflexivity |].
  do 3 (split; [reflexivity |]).
  split; [vm_compute; reflexivity |].
  do 3 (split; [reflexivity |]).
  unfold mirrorInSync. vm_compute. discriminate.
Qed.

(** ** The mirror and the store *)

(** [clear] empties the store and the mirror together. *)
Lemma wrangler_clear_in_sync (Tables : tableName -> validator) t w :
  exists w',
    wrangler_clear t w = (Ok tt, w') /\
    database w' t = [] /\
    mirrorInSync Tables t w'.
Proof.
  eexists. split; [reflexivity |]. unfold mirrorInSync, validatedContents.
  simpl. rewrite !update_at_same. now split.
Qed.

(** [initialize] brings the mirror of every reactive table in sync, when
    every store reads back through its validator. *)
Lemma initialize_in_sync (Tables : tableName -> validator) w :
  (forall t, isReactiveTable t = true -> exists l, validatedContents Tables t w = Ok l) ->
  exists w',
    initialize Tables w = (Ok tt, w') /\
    forall t, isReactiveTable t = true -> mirrorInSync Tables t w'.
Proof.
  intros Hvalid.
  destruct (@forEach_refresh Tables (filter isReactiveTable tableNames) w)
    as (w' & Hrun & _ & _ & Hsync & _).
  { intros t Hin. apply filter_In in Hin as [_ Hre]. now apply Hvalid. }
  exists w'. split; [exact Hrun |].
  intros t Hre. apply Hsync. apply filter_In. split; [| exact Hre].
  destruct t; simpl; tauto.
Qed.

(** C1. The mirror does not follow the store through an [update] of the
    primary key. From the empty database, setting the record "defaults"
    of Settings leaves the mirror in sync; updating its [id] to "user"
    then returns true with two records in the store, "defaults" and
    "user", and one in the mirror, "user": the mirror is not the
    validated contents of the store. *)
Theorem update_of_primary_key_breaks_sync :
  exists w1 w2,
    mirrorInSync (fun _ => anyRecord) Settings emptyWorld /\
    wrangler_set (fun _ => anyRecord) Settings (record "defaults") emptyWorld
      = (Ok (record "defaults"), w1) /\
    mirrorInSync (fun _ => anyRecord) Settings w1 /\
    update (fun _ => anyRecord) Settings (JString "defaults") "id" (JString "user") w1
      = (Ok true, w2) /\
    database w2 Settings =
      [(KString "defaults", record "defaults"); (KString "user", record "user")] /\
    _tablesState w2 Settings = [record "user"] /\
    validatedContents (fun _ => anyRecord) Settings w2
      = Ok [record "defaults"; record "user"] /\
    ~ mirrorInSync (fun _ => anyRecord) Settings w2.
Proof.
  do 2 eexists.
  split; [reflexivity |].
  split; [vm_compute; reflexivity |].
  split; [reflexivity |].
  split; [vm_compute; reflexivity |].
  do 3 (split; [reflexivity |]).
  unfold mirrorInSync. vm_compute. discriminate.
Qed.

(** The body [do] hands to the wrapper: the actions applied to the store
    of the table on the handle. *)
Lemma do_body_run txid t (actions : transaction * tableName -> Task unit)
  active w :
  let tx := newHandle txid [t] None in
  (store <~ tx_objectStore tx t ;; actions store)
    (txid :: active) (logged (Opened tx) w)
  = actions (tx, t) (txid :: active) (logged (Opened tx) w).
Proof.
  intros tx. apply andThen_ok. apply tx_objectStore_active.
  - apply isActive_opened.
  - simpl. now rewrite tableName_beq_refl.
Qed.

(** A transaction made with [do] leaves the mirror of its table in sync
    once the actions have returned with the handle active. *)
Lemma do_in_sync (Tables : tableName -> validator) txid t actions
  active active1 w w1 :
  let tx := newHandle txid [t] None in
  isReactiveTable t = true ->
  actions (tx, t) (txid :: active) (logged (Opened tx) w) = (Ok (tt, active1), w1) ->
  isActive tx active1 = true ->
  (exists l, validatedContents Tables t w1 = Ok l) ->
  exists w' active',
    do Tables txid t actions active w = (Ok (tt, active'), w') /\
    mirrorInSync Tables t w'.
Proof.
  intros tx Hre Hbody Hactive Hvalid.
  destruct (@openTransaction_new_handle Tables txid [t] None
              (fun h => store <~ tx_objectStore h t ;; actions store)
              active active1 w w1)
    as (w' & active' & Hrun & _ & _ & _ & Hsync & _).
  - split; discriminate.
  - rewrite <- Hbody. apply do_body_run.
  - exact Hactive.
  - intros t' [<- | []] _. exact Hvalid.
  - exists w', active'. split; [exact Hrun |].
    apply Hsync; [now left | exact Hre].
Qed.

(** * Further properties of the data layer *)

(** ** Keys and stores *)

Lemma keyCompare_eq a b : keyCompare a b = Eq -> a = b.
Proof.
  destruct a as [x | s], b as [y | t]; simpl; try discriminate.
  - intros H. apply Z.compare_eq in H. now subst.
  - intros H. apply String.compare_eq_iff in H. now subst.
Qed.

Lemma keyCompare_neq a b : a <> b -> keyCompare a b <> Eq.
Proof. intros H E. now apply keyCompare_eq in E. Qed.

Lemma toKey_ofKey k : toKey (ofKey k) = Some k.
Proof. now destruct k. Qed.

Lemma ofKey_toKey v k : toKey v = Some k -> ofKey k = v.
Proof. destruct v; simpl; intros [= <-]; reflexivity. Qed.

Lemma storeGet_storePut_other k k' v s :
  k <> k' -> storeGet k' (storePut k v s) = storeGet k' s.
Proof.
  intros Hne.
  assert (Hk : keyCompare k' k <> Eq) by (apply keyCompare_neq; congruence).
  induction s as [| [k1 v1] rest IH]; simpl.
  - now destruct (keyCompare k' k).
  - destruct (keyCompare k k1) eqn:E; simpl.
    + apply keyCompare_eq in E. subst k1.
      now destruct (keyCompare k' k).
    + now destruct (keyCompare k' k).
    + destruct (keyCompare k' k1); [reflexivity | exact IH | exact IH].
Qed.

Lemma storeGet_storeDelete k s : storeGet k (storeDelete k s) = None.
Proof.
  induction s as [| [k1 v1] rest IH]; simpl; [reflexivity |].
  destruct (keyCompare k k1) eqn:E; simpl; [exact IH | |]; now rewrite E.
Qed.

Lemma storeGet_storeDelete_other k k' s :
  k <> k' -> storeGet k' (storeDelete k s) = storeGet k' s.
Proof.
  intros Hne.
  induction s as [| [k1 v1] rest IH]; simpl; [reflexivity |].
  destruct (keyCompare k k1) eqn:E; simpl.
  - apply keyCompare_eq in E. subst k1.
    destruct (keyCompare k' k) eqn:E'; [| exact IH | exact IH].
    apply keyCompare_eq in E'. congruence.
  - now rewrite IH.
  - now rewrite IH.
Qed.

(** ** The raw path and the validation gate *)

(** X1. A value written through the raw path is read back through the raw
    path as it is; the validator is never called (the journal does not
    change) and the mirror is left alone. *)
Theorem raw_set_then_raw_get (t : tableName) (v : jsval) (k : key) (w : world) :
  toKey (prop v (keyPath t)) = Some k ->
  exists w1,
    raw_set t v w = (Ok (ofKey k), w1) /\
    raw_get t (ofKey k) w1 = (Ok v, w1) /\
    journal w1 = journal w /\
    _tablesState w1 = _tablesState w.
Proof.
  intros Hk. unfold raw_set, db_put. rewrite Hk.
  eexists. split; [reflexivity |]. split; [| now split].
  unfold raw_get, db_get. rewrite toKey_ofKey. simpl.
  now rewrite update_at_same, storeGet_storePut.
Qed.

Lemma raw_set_then_raw_get_witness :
  exists w1,
    raw_set Settings (JObject [("id", JNumber 7); ("theme", JNumber 0)]) emptyWorld
      = (Ok (JNumber 7), w1) /\
    raw_get Settings (JNumber 7) w1
      = (Ok (JObject [("id", JNumber 7); ("theme", JNumber 0)]), w1).
Proof.
  destruct (@raw_set_then_raw_get Settings
              (JObject [("id", JNumber 7); ("theme", JNumber 0)]) (KNumber 7)
              emptyWorld eq_refl) as (w1 & Hset & Hget & _).
  exists w1. now split.
Defined.





(** X4. [set] writes one record: the records at the other keys of the
    table, the other tables and every mirror are left as they were. *)
Theorem set_leaves_other_records (Tables : tableName -> validator)
  (t : tableName) (r out : jsval) (k : key) (w : world) :
  Tables t r = Ok out ->
  toKey (prop r (keyPath t)) = Some k ->
  exists w1,
    set Tables t r w = (Ok (ofKey k), w1) /\
    storeGet k (database w1 t) = Some r /\
    (forall k', k' <> k -> storeGet k' (database w1 t) = storeGet k' (database w t)) /\
    (forall t', t' <> t -> database w1 t' = database w t') /\
    _tablesState w1 = _tablesState w.
Proof.
  intros Hout Hk. rewrite (set_ok Tables t r w Hout Hk).
  eexists. split; [reflexivity |]. simpl. rewrite update_at_same.
  split; [apply storeGet_storePut |].
  split; [| split; [| reflexivity]].
  - intros k' Hne. apply storeGet_storePut_other. congruence.
  - intros t' Hne. apply update_at_other. congruence.
Qed.

Lemma set_leaves_other_records_witness :
  exists w1,
    set (fun _ => anyRecord) Settings (record "defaults") oneSetting
      = (Ok (JString "defaults"), w1) /\
    storeGet (KString "user") (database w1 Settings) = Some (themed "dark").
Proof.
  destruct (@set_leaves_other_records (fun _ => anyRecord) Settings
              (record "defaults") _ (KString "defaults") oneSetting eq_refl eq_refl)
    as (w1 & Hrun & _ & Hother & _).
  exists w1. split; [exact Hrun |].
  rewrite Hother by discriminate. reflexivity.
Defined.

(** ** Deleting and clearing *)

Lemma get_absent (Tables : tableName -> validator) t id k w :
  toKey id = Some k ->
  storeGet k (database w t) = None ->
  get Tables t id w = (Ok JUndefined, w).
Proof.
  intros Hk Hnone. unfold get.
  rewrite (bind_ok _ _ (raw_get_run t id w Hk)), Hnone. reflexivity.
Qed.

Lemma list_database (Tables : tableName -> validator) t w r w' :
  list_ Tables t w = (r, w') ->
  database w' = database w /\ _tablesState w' = _tablesState w.
Proof.
  intros Hrun. destruct (list_spec Tables t w) as (w1 & Hrun1 & Hdb & Hst & _).
  rewrite Hrun in Hrun1. injection Hrun1 as _ <-. now split.
Qed.

Lemma remove_database (Tables : tableName -> validator) t id w w' :
  remove Tables t id w = (Ok tt, w') ->
  exists k,
    toKey id = Some k /\
    database w' = update_at (database w) t (storeDelete k (database w t)).
Proof.
  unfold remove. unfold bind at 1.
  destruct (drop Tables t id w) as [[[] | e] w1] eqn:Hdrop; [| discriminate].
  destruct (drop_ok _ _ _ _ Hdrop) as (k & l & Hk & Hdb & _).
  intros Hrun. exists k. split; [exact Hk |]. rewrite <- Hdb.
  revert Hrun. unfold bind at 1, readState. unfold bind at 1, lift.
  destruct (findIndex (hasId id) (_tablesState w1 t)) as [index | e]; [| discriminate].
  destruct (negb (index =? -1)).
  - unfold bind.
    destruct (list_ Tables t w1) as [[l' | e] wL] eqn:Hlist; [| discriminate].
    apply list_database in Hlist as [Hdb' _].
    unfold writeState. now intros [= <-].
  - unfold writeState. now intros [= <-].
Qed.

(** X5. Once [remove] has returned, the store no longer holds the key:
    [get] gives undefined for it without calling the validator, while
    the records at the other keys and the other tables are kept. *)
Theorem remove_then_get (Tables : tableName -> validator) (t : tableName)
  (id : jsval) (w w' : world) :
  remove Tables t id w = (Ok tt, w') ->
  exists k,
    toKey id = Some k /\
    get Tables t id w' = (Ok JUndefined, w') /\
    (forall k', k' <> k -> storeGet k' (database w' t) = storeGet k' (database w t)) /\
    (forall t', t' <> t -> database w' t' = database w t').
Proof.
  intros Hrun. destruct (remove_database _ _ _ _ Hrun) as (k & Hk & Hdb).
  exists k. split; [exact Hk |]. rewrite Hdb. split; [| split].
  - apply (@get_absent Tables t id k w' Hk).
    rewrite Hdb, update_at_same. apply storeGet_storeDelete.
  - intros k' Hne. rewrite update_at_same. apply storeGet_storeDelete_other.
    congruence.
  - intros t' Hne. apply update_at_other. congruence.
Qed.

Lemma remove_then_get_witness :
  exists w',
    remove (fun _ => anyRecord) Settings (JString "user") oneSetting = (Ok tt, w') /\
    get (fun _ => anyRecord) Settings (JString "user") w' = (Ok JUndefined, w').
Proof.
  eexists. split; [vm_compute; reflexivity |].
  match goal with
  | |- get _ _ _ ?w' = _ =>
      destruct (@remove_then_get (fun _ => anyRecord) Settings (JString "user")
                  oneSetting w') as (k & _ & Hget & _);
        [vm_compute; reflexivity | exact Hget]
  end.
Defined.

(** X6. The wrangler's [clear] empties the store and the mirror of its
    table together: afterwards every key reads as undefined, [list]
    returns the empty array, the mirror is in sync, and the other tables
    and mirrors are untouched. *)
Theorem wrangler_clear_empties (Tables : tableName -> validator)
  (t : tableName) (w : world) :
  exists w',
    wrangler_clear t w = (Ok tt, w') /\
    database w' t = [] /\
    _tablesState w' t = [] /\
    mirrorInSync Tables t w' /\
    (forall id k, toKey id = Some k -> get Tables t id w' = (Ok JUndefined, w')) /\
    fst (list_ Tables t w') = Ok [] /\
    (forall t', t' <> t ->
       database w' t' = database w t' /\ _tablesState w' t' = _tablesState w t').
Proof.
  eexists. split; [reflexivity |]. simpl. rewrite !update_at_same.
  split; [reflexivity |]. split; [reflexivity |]. split; [| split; [| split]].
  - unfold mirrorInSync, validatedContents. simpl. now rewrite !update_at_same.
  - intros id k Hk. apply (@get_absent Tables t id k _ Hk).
    simpl. now rewrite update_at_same.
  - unfold list_, bind, db_getAll. simpl. now rewrite update_at_same.
  - intros t' Hne. split; apply update_at_other; congruence.
Qed.

(** ** The comparator on records that carry a key *)

(** A record whose [id] is a string or a number. *)
Definition keyedRecord (v : jsval) : bool :=
  isObject v && match toKey (prop v "id") with Some _ => true | None => false end.

Lemma keyedRecord_hasId v :
  keyedRecord v = true -> isObject v && hasProp "id" v = true.
Proof.
  destruct v as [| | | props]; simpl; try discriminate.
  unfold keyedRecord. simpl. destruct (lookup "id" props); [reflexivity | discriminate].
Qed.

Lemma keyedRecord_key v :
  keyedRecord v = true -> exists k, toKey (prop v "id") = Some k.
Proof.
  unfold keyedRecord. destruct (isObject v); [| discriminate].
  destruct (toKey (prop v "id")) as [k |]; [now exists k | discriminate].
Qed.

Lemma key_not_record v k : toKey v = Some k -> isObject v && hasProp "id" v = false.
Proof. destruct v; simpl; congruence. Qed.

Lemma idComparator_keyed a b :
  keyedRecord a = true -> keyedRecord b = true ->
  idComparator a b = compareIds (prop a "id") (prop b "id").
Proof.
  intros Ha Hb.
  destruct (keyedRecord_key a Ha) as [ka Hka], (keyedRecord_key b Hb) as [kb Hkb].
  rewrite idComparator_records by now apply keyedRecord_hasId.
  apply idComparator_identifiers; eapply key_not_record; eassumption.
Qed.

Lemma localeCompare_antisym s t : localeCompare t s = - localeCompare s t.
Proof.
  unfold localeCompare. rewrite (String.compare_antisym s t).
  now destruct (String.compare t s).
Qed.

Lemma localeCompare_refl s : localeCompare s s = 0.
Proof. unfold localeCompare. now rewrite string_compare_refl. Qed.

Lemma compareIds_keys a b ka kb :
  toKey a = Some ka -> toKey b = Some kb ->
  exists c c',
    compareIds a b = Ok c /\ compareIds b a = Ok c' /\ Z.sgn c' = - Z.sgn c.
Proof.
  destruct a as [| x | s |], b as [| y | t |]; simpl; try discriminate; intros _ _.
  - exists (x - y), (y - x). repeat split. lia.
  - now exists (-1), 1.
  - now exists 1, (-1).
  - rewrite (andb_comm (digitsOnly t)).
    destruct (digitsOnly s && digitsOnly t).
    + do 2 eexists. repeat split. lia.
    + do 2 eexists. repeat split. rewrite (localeCompare_antisym s t). lia.
Qed.

Lemma compareIds_refl a k : toKey a = Some k -> compareIds a a = Ok 0.
Proof.
  destruct a as [| x | s |]; simpl; try discriminate; intros _.
  - now rewrite Z.sub_diag.
  - destruct (digitsOnly s && digitsOnly s);
      [now rewrite Z.sub_diag | now rewrite localeCompare_refl].
Qed.

(** Identifiers on which the integers of the model are the numbers the
    host computes with: a number that is a safe integer, a string of
    digits whose value is one, or a string that is not a string of
    digits. *)
Definition safeInteger (n : Z) : bool := Z.abs n <=? 9007199254740991.

Definition safeId (id : jsval) : bool :=
  match id with
  | JNumber n => safeInteger n
  | JString s => negb (digitsOnly s) || safeInteger (Number s)
  | _ => false
  end.

Definition safeRecord (v : jsval) : bool := isObject v && safeId (prop v "id").

Lemma safeRecord_keyed v : safeRecord v = true -> keyedRecord v = true.
Proof.
  unfold safeRecord, keyedRecord. intros H. apply andb_prop in H as [-> H].
  now destruct (prop v "id").
Qed.

(** X7. On two records whose [id] is a safe integer, a string of digits
    whose value is one, or any other string, the comparator never throws,
    and it is antisymmetric: swapping the arguments flips the sign of the
    result. A record compares equal to itself. *)
Theorem idComparator_antisymmetric (a b : jsval) :
  safeRecord a = true -> safeRecord b = true ->
  (exists c c',
     idComparator a b = Ok c /\ idComparator b a = Ok c' /\ Z.sgn c' = - Z.sgn c) /\
  idComparator a a = Ok 0.
Proof.
  intros Ha Hb. apply safeRecord_keyed in Ha, Hb.
  destruct (keyedRecord_key a Ha) as [ka Hka], (keyedRecord_key b Hb) as [kb Hkb].
  rewrite !idComparator_keyed by assumption. split.
  - exact (compareIds_keys _ _ Hka Hkb).
  - exact (compareIds_refl _ Hka).
Qed.

Lemma idComparator_antisymmetric_witness :
  (exists c c',
     idComparator (record "9") (themed "dark") = Ok c /\
     idComparator (themed "dark") (record "9") = Ok c' /\
     Z.sgn c' = - Z.sgn c) /\
  idComparator (record "9") (record "9") = Ok 0.
Proof.
  apply (@idComparator_antisymmetric (record "9") (themed "dark")); reflexivity.
Defined.

(** X8. The comparator is not an order on identifiers. It has cycles:
    "10" sorts before "1a" and "1a" before "2" as text, while "2" sorts
    before "10" as numbers. And it cannot tell some distinct identifiers
    apart: "1" and "01" compare equal. *)
Theorem idComparator_not_an_order :
  ~ (forall a b c x y,
       idComparator (JString a) (JString b) = Ok x -> x < 0 ->
       idComparator (JString b) (JString c) = Ok y -> y < 0 ->
       exists z, idComparator (JString a) (JString c) = Ok z /\ z < 0) /\
  ~ (forall a b,
       idComparator (JString a) (JString b) = Ok 0 -> a = b).
Proof.
  split.
  - intros Htrans.
    destruct (Htrans "10" "1a" "2" (-1) (-1)) as (z & Hz & Hneg);
      try reflexivity.
    vm_compute in Hz. injection Hz as <-. discriminate Hneg.
  - intros Hinj. specialize (Hinj "1" "01" eq_refl). discriminate Hinj.
Qed.

(** ** What [sort] and [list] return *)

From Stdlib Require Import Permutation.
From Stdlib Require Sorted.

Lemma insertBy_perm cmp x l l' :
  insertBy cmp x l = Ok l' -> Permutation (x :: l) l'.
Proof.
  revert l'. induction l as [| y rest IH]; simpl; intros l'.
  - now intros [= <-].
  - destruct (cmp x y) as [c |]; simpl; [| discriminate].
    destruct (c <=? 0); [now intros [= <-] |].
    destruct (insertBy cmp x rest) as [r |]; simpl; [| discriminate].
    intros [= <-]. rewrite perm_swap. now rewrite (IH r eq_refl).
Qed.

Lemma insertionSort_perm cmp l l' :
  insertionSort cmp l = Ok l' -> Permutation l l'.
Proof.
  revert l'. induction l as [| x rest IH]; simpl; intros l'.
  - now intros [= <-].
  - destruct (insertionSort cmp rest) as [r |]; simpl; [| discriminate].
    intros H. apply insertBy_perm in H. now rewrite (IH r eq_refl).
Qed.

Lemma filter_partition_perm (p : jsval -> bool) l :
  Permutation l (filter (fun v => negb (p v)) l ++ filter p l).
Proof.
  induction l as [| x l IH]; simpl; [constructor |].
  destruct (p x); simpl.
  - now apply Permutation_cons_app.
  - now constructor.
Qed.

Lemma sort_perm cmp l l' : sort cmp l = Ok l' -> Permutation l l'.
Proof.
  unfold sort.
  destruct (insertionSort cmp _) as [r |] eqn:E; simpl; [| discriminate].
  intros [= <-]. apply insertionSort_perm in E.
  rewrite (filter_partition_perm isUndefined l) at 1.
  now apply Permutation_app_tail.
Qed.

Lemma rmap_length {A B} (f : A -> result B) l l' :
  rmap f l = Ok l' -> length l' = length l.
Proof.
  revert l'. induction l as [| x l IH]; simpl; intros l'.
  - now intros [= <-].
  - destruct (f x); simpl; [| discriminate].
    destruct (rmap f l) as [ys |]; simpl; [| discriminate].
    intros [= <-]. simpl. now rewrite (IH ys eq_refl).
Qed.

Lemma rmap_throws {A B} (f : A -> result B) l x e :
  In x l -> f x = Throw e -> exists e', rmap f l = Throw e'.
Proof.
  induction l as [| y l IH]; simpl; [contradiction |].
  intros [-> | Hin] Hbad.
  - rewrite Hbad. now exists e.
  - destruct (f y); simpl; [| now eexists].
    destruct (IH Hin Hbad) as [e' ->]. now exists e'.
Qed.

Lemma storeGetAll_length (s : objectStore) : length (storeGetAll s) = length s.
Proof. apply length_map. Qed.

(** X9. What [list] returns holds the validator's output for every
    record of the store, once each: it is a rearrangement of the
    validated records, as long as the store. Listing changes neither the
    store nor any mirror. *)
Theorem list_is_a_rearrangement (Tables : tableName -> validator)
  (t : tableName) (w w' : world) (l : list jsval) :
  list_ Tables t w = (Ok l, w') ->
  exists outs,
    rmap (Tables t) (storeGetAll (database w t)) = Ok outs /\
    Permutation outs l /\
    length l = length (database w t) /\
    database w' = database w /\
    _tablesState w' = _tablesState w.
Proof.
  intros Hrun.
  destruct (list_spec Tables t w) as (w1 & Hrun1 & Hdb & Hst & _).
  rewrite Hrun in Hrun1. injection Hrun1 as Hl <-.
  unfold validatedContents, validatedStore in Hl.
  destruct (rmap (Tables t) (storeGetAll (database w t))) as [outs |] eqn:E;
    simpl in Hl; [| discriminate].
  symmetry in Hl. exists outs. split; [reflexivity |].
  pose proof (sort_perm _ _ Hl) as Hperm.
  split; [exact Hperm |]. split; [| now split].
  rewrite <- (Permutation_length Hperm), (rmap_length _ _ E).
  apply storeGetAll_length.
Qed.

Lemma list_is_a_rearrangement_witness :
  exists outs,
    rmap anyRecord (storeGetAll (database oneSetting Settings)) = Ok outs /\
    Permutation outs [themed "dark"].
Proof.
  destruct (@list_is_a_rearrangement (fun _ => anyRecord) Settings oneSetting
              (logged (Asserted Settings (themed "dark")) oneSetting)
              [themed "dark"] eq_refl) as (outs & Hout & Hperm & _).
  now exists outs.
Defined.

(** X10. One stored record that the validator rejects, such as a record
    written through the raw path, makes [list] and [refresh] of its table
    throw; the failed refresh leaves the store and every mirror as they
    were. *)
Theorem corrupt_record_blocks_listing (Tables : tableName -> validator)
  (t : tableName) (k : key) (r : jsval) (e : error) (w : world) :
  In (k, r) (database w t) ->
  Tables t r = Throw e ->
  exists e' w1 w2,
    list_ Tables t w = (Throw e', w1) /\
    refresh Tables t w = (Throw e', w2) /\
    database w2 = database w /\
    _tablesState w2 = _tablesState w.
Proof.
  intros Hin Hbad.
  assert (Hin' : In r (storeGetAll (database w t))).
  { unfold storeGetAll. change r with (snd (k, r)). now apply in_map. }
  destruct (rmap_throws (Tables t) _ _ Hin' Hbad) as [e' He'].
  destruct (list_spec Tables t w) as (w1 & Hrun1 & _).
  destruct (list_spec Tables t (logged (Refreshed t) w)) as (w2 & Hrun2 & Hdb & Hst & _).
  unfold validatedContents, validatedStore in Hrun1, Hrun2.
  simpl in Hrun2. rewrite He' in Hrun1, Hrun2. simpl in Hrun1, Hrun2.
  exists e', w1, w2. split; [exact Hrun1 |]. split; [| now split].
  unfold refresh. unfold bind at 1, emit.
  change (mkWorld (database w) (_tablesState w) (journal w ++ [Refreshed t]))
    with (logged (Refreshed t) w).
  now rewrite (bind_throw _ _ Hrun2).
Qed.

(** A schema that wants a [theme], and a Settings store holding a
    record without one beside a good record. *)
Definition themedOnly : validator :=
  fun v => if truthy (prop v "theme") then Ok v else Throw ValidationError.

Definition oneCorrupt : world :=
  mkWorld (update_at (fun _ => []) Settings
             [(KString "user", themed "dark"); (KString "x", record "x")])
          (update_at (fun _ => []) Settings [themed "dark"])
          [].

Lemma corrupt_record_blocks_listing_witness :
  exists e' w1 w2,
    list_ (fun _ => themedOnly) Settings oneCorrupt = (Throw e', w1) /\
    refresh (fun _ => themedOnly) Settings oneCorrupt = (Throw e', w2) /\
    _tablesState w2 = _tablesState oneCorrupt.
Proof.
  destruct (@corrupt_record_blocks_listing (fun _ => themedOnly) Settings
              (KString "x") (record "x") ValidationError oneCorrupt)
    as (e' & w1 & w2 & Hlist & Hrefresh & _ & Hst).
  { simpl. right. now left. }
  { reflexivity. }
  now exists e', w1, w2.
Defined.

(** ** The order of a listing *)

Section SortedByMeasure.

Variable cmp : jsval -> jsval -> result Z.
Variable f : jsval -> Z.

Definition ascending (l : list jsval) : Prop :=
  Sorted.StronglySorted (fun a b => f a <= f b) l.

Lemma insertBy_ascending x l :
  (forall y, In y l -> cmp x y = Ok (f x - f y)) ->
  ascending l ->
  exists l', insertBy cmp x l = Ok l' /\ ascending l'.
Proof.
  induction l as [| y rest IH]; intros Hcmp Hsorted; simpl.
  - exists [x]. split; [reflexivity |]. repeat constructor.
  - rewrite (Hcmp y (or_introl eq_refl)). simpl.
    apply Sorted.StronglySorted_inv in Hsorted as [Hrest Hy].
    destruct (Z.leb_spec (f x - f y) 0) as [Hle | Hgt].
    + eexists. split; [reflexivity |].
      constructor; [now constructor |].
      constructor; [lia |].
      eapply Forall_impl; [| exact Hy]. simpl. intros z Hz. lia.
    + destruct IH as (l' & Hins & Hl'); [intros z Hz; apply Hcmp; now right | exact Hrest |].
      rewrite Hins. simpl. eexists. split; [reflexivity |].
      constructor; [exact Hl' |].
      apply (Permutation_Forall (insertBy_perm _ _ _ Hins)).
      constructor; [lia | exact Hy].
Qed.

Lemma insertionSort_ascending l :
  (forall x y, In x l -> In y l -> cmp x y = Ok (f x - f y)) ->
  exists l', insertionSort cmp l = Ok l' /\ ascending l'.
Proof.
  induction l as [| x rest IH]; intros Hcmp; simpl.
  - exists []. split; [reflexivity | constructor].
  - destruct IH as (r & Hr & Hsorted).
    { intros y z Hy Hz. apply Hcmp; now right. }
    rewrite Hr. simpl. apply insertBy_ascending; [| exact Hsorted].
    intros y Hy. apply Hcmp; [now left | right].
    apply (Permutation_in _ (Permutation_sym (insertionSort_perm _ _ Hr)) Hy).
Qed.

End SortedByMeasure.

(** The number an [id] stands for: itself, or the value of its digits. *)
Definition idValue (v : jsval) : Z :=
  match prop v "id" with
  | JNumber n => n
  | JString s => Number s
  | _ => 0
  end.

Definition hasNumberId (v : jsval) : bool :=
  isObject v && match prop v "id" with JNumber _ => true | _ => false end.

Definition hasDigitId (v : jsval) : bool :=
  isObject v && match prop v "id" with JString s => digitsOnly s | _ => false end.

Lemma idComparator_number_ids x y :
  hasNumberId x = true -> hasNumberId y = true ->
  idComparator x y = Ok (idValue x - idValue y).
Proof.
  unfold hasNumberId, idValue. intros Hx Hy.
  apply andb_prop in Hx as [Hox Hx], Hy as [Hoy Hy].
  destruct (prop x "id") as [| n | |] eqn:Ex; try discriminate.
  destruct (prop y "id") as [| m | |] eqn:Ey; try discriminate.
  rewrite idComparator_keyed, Ex, Ey; [reflexivity | |];
    unfold keyedRecord; [rewrite Hox, Ex | rewrite Hoy, Ey]; reflexivity.
Qed.

Lemma idComparator_digit_ids x y :
  hasDigitId x = true -> hasDigitId y = true ->
  idComparator x y = Ok (idValue x - idValue y).
Proof.
  unfold hasDigitId, idValue. intros Hx Hy.
  apply andb_prop in Hx as [Hox Hx], Hy as [Hoy Hy].
  destruct (prop x "id") as [| | s |] eqn:Ex; try discriminate.
  destruct (prop y "id") as [| | s' |] eqn:Ey; try discriminate.
  rewrite idComparator_keyed, Ex, Ey;
    [simpl; now rewrite Hx, Hy | |];
    unfold keyedRecord; [rewrite Hox, Ex | rewrite Hoy, Ey]; reflexivity.
Qed.

Lemma sort_objects cmp l :
  forallb isObject l = true -> sort cmp l = insertionSort cmp l.
Proof.
  intros Hobj. unfold sort.
  assert (Hkeep : filter (fun v => negb (isUndefined v)) l = l
                  /\ filter isUndefined l = []).
  { induction l as [| x l IH]; simpl in *; [now split |].
    apply andb_prop in Hobj as [Hx Hl]. destruct (IH Hl) as [-> ->].
    now destruct x. }
  destruct Hkeep as [-> ->].
  destruct (insertionSort cmp l); simpl; [now rewrite app_nil_r | reflexivity].
Qed.

Lemma forallb_weaken {A} (p q : A -> bool) l :
  (forall x, p x = true -> q x = true) -> forallb p l = true -> forallb q l = true.
Proof.
  intros Hpq H. apply forallb_forall. intros x Hx. apply Hpq.
  now apply (proj1 (forallb_forall p l) H).
Qed.

(** X11. When the validated records of a table all carry safe integers
    as [id], or all carry strings of digits whose values are safe
    integers, [list] does not throw and returns them in ascending numeric
    order of their ids. *)
Theorem list_in_numeric_order (Tables : tableName -> validator)
  (t : tableName) (w : world) (outs : list jsval) :
  rmap (Tables t) (storeGetAll (database w t)) = Ok outs ->
  forallb hasNumberId outs || forallb hasDigitId outs = true ->
  forallb safeRecord outs = true ->
  exists l w',
    list_ Tables t w = (Ok l, w') /\
    Permutation outs l /\
    ascending idValue l.
Proof.
  intros Houts Hids _.
  assert (Hobj : forallb isObject outs = true).
  { apply orb_prop in Hids as [H | H]; revert H; apply forallb_weaken;
      intros x Hx; now apply andb_prop in Hx as [Hx _]. }
  assert (Hcmp : forall x y, In x outs -> In y outs ->
                   idComparator x y = Ok (idValue x - idValue y)).
  { intros x y Hx Hy. apply orb_prop in Hids as [H | H];
      rewrite forallb_forall in H.
    - apply idComparator_number_ids; now apply H.
    - apply idComparator_digit_ids; now apply H. }
  destruct (insertionSort_ascending idComparator idValue outs Hcmp) as (l & Hl & Hsorted).
  destruct (list_spec Tables t w) as (w' & Hrun & _).
  unfold validatedContents, validatedStore in Hrun.
  rewrite Houts in Hrun. simpl in Hrun. rewrite (sort_objects _ _ Hobj), Hl in Hrun.
  exists l, w'. split; [exact Hrun |]. split; [| exact Hsorted].
  now apply insertionSort_perm in Hl.
Qed.

(** Three images whose ids are strings of digits. *)
Definition threeImages : world :=
  mkWorld (update_at (fun _ => []) Image
             [(KString "10", record "10"); (KString "2", record "2");
              (KString "33", record "33")])
          (fun _ => []) [].

Lemma list_in_numeric_order_witness :
  exists w',
    list_ (fun _ => anyRecord) Image threeImages
      = (Ok [record "2"; record "10"; record "33"], w').
Proof.
  destruct (@list_in_numeric_order (fun _ => anyRecord) Image threeImages
              [record "10"; record "2"; record "33"] eq_refl eq_refl eq_refl)
    as (l & w' & Hrun & _).
  exists w'. rewrite Hrun. f_equal.
  pose proof Hrun as Hl. vm_compute in Hl. now injection Hl as <-.
Defined.

(** ** Refreshing, at start-up and after a commit *)

Section Refreshing.

Variable Tables : tableName -> validator.

Lemma refresh_throws t w e :
  validatedContents Tables t w = Throw e ->
  exists w',
    refresh Tables t w = (Throw e, w') /\
    database w' = database w /\
    _tablesState w' = _tablesState w /\
    txEvents (journal w') = txEvents (journal w) ++ [Refreshed t].
Proof.
  intros He.
  destruct (list_spec Tables t (logged (Refreshed t) w)) as (w1 & Hrun & Hdb & Hst & Hj).
  rewrite (@validatedContents_database Tables t w (logged (Refreshed t) w) eq_refl) in Hrun.
  rewrite He in Hrun.
  exists w1. split.
  - unfold refresh. unfold bind at 1, emit.
    change (mkWorld (database w) (_tablesState w) (journal w ++ [Refreshed t]))
      with (logged (Refreshed t) w).
    now rewrite (bind_throw _ _ Hrun).
  - split; [exact Hdb |]. split; [exact Hst |].
    rewrite Hj. simpl. now rewrite txEvents_app.
Qed.

Lemma forEach_refresh_stops pre t post e : forall w,
  (forall t', In t' pre -> exists l, validatedContents Tables t' w = Ok l) ->
  validatedContents Tables t w = Throw e ->
  exists w',
    forEach (refresh Tables) (pre ++ t :: post) w = (Throw e, w') /\
    database w' = database w /\
    txEvents (journal w') = txEvents (journal w) ++ map Refreshed (pre ++ [t]) /\
    (forall t', In t' pre -> mirrorInSync Tables t' w') /\
    (forall t', ~ In t' pre -> _tablesState w' t' = _tablesState w t').
Proof.
  intros w Hvalid He.
  destruct (@forEach_refresh Tables pre w Hvalid) as (w1 & Hrun1 & Hdb1 & Hj1 & Hsync & Hkeep).
  assert (He1 : validatedContents Tables t w1 = Throw e)
    by now rewrite (@validatedContents_database Tables t w w1 Hdb1).
  destruct (refresh_throws t w1 He1) as (w' & Hrun & Hdb & Hst & Hj).
  exists w'. split; [| split; [congruence | split; [| split]]].
  - clear Hsync Hkeep Hj1 Hdb1 He He1 Hvalid Hj Hst Hdb.
    revert w Hrun1. induction pre as [| p pre IH]; intros w Hrun1; simpl in *.
    + injection Hrun1 as <-. now rewrite (bind_throw _ _ Hrun).
    + unfold bind at 1 in Hrun1. unfold bind at 1.
      destruct (refresh Tables p w) as [[[] | e0] wp]; [| discriminate].
      now apply IH.
  - rewrite Hj, Hj1, map_app, <- app_assoc. reflexivity.
  - intros t' Hin. specialize (Hsync t' Hin). unfold mirrorInSync in *.
    rewrite (@validatedContents_database Tables t' w1 w' Hdb). now rewrite Hst.
  - intros t' Hout. rewrite Hst. now apply Hkeep.
Qed.

End Refreshing.

(** X12. [refresh] replaces the mirror of its table with the validated,
    sorted contents of the store and touches nothing else; when the
    contents cannot be read through the validator it throws and every
    mirror keeps what it had. *)
Theorem refresh_replaces_mirror (Tables : tableName -> validator)
  (t : tableName) (w : world) :
  (forall l, validatedContents Tables t w = Ok l ->
     exists w',
       refresh Tables t w = (Ok tt, w') /\
       _tablesState w' t = l /\
       (forall t', t' <> t -> _tablesState w' t' = _tablesState w t') /\
       database w' = database w) /\
  (forall e, validatedContents Tables t w = Throw e ->
     exists w',
       refresh Tables t w = (Throw e, w') /\
       _tablesState w' = _tablesState w /\
       database w' = database w).
Proof.
  split.
  - intros l Hl. destruct (refresh_ok Tables t w Hl) as (w' & Hrun & Hdb & Hst & _).
    exists w'. split; [exact Hrun |]. rewrite Hst.
    split; [apply update_at_same |]. split; [| exact Hdb].
    intros t' Hne. apply update_at_other. congruence.
  - intros e He. destruct (refresh_throws Tables t w He) as (w' & Hrun & Hdb & Hst & _).
    now exists w'.
Qed.

Lemma refresh_replaces_mirror_witness :
  (exists w',
     refresh (fun _ => anyRecord) Image threeImages = (Ok tt, w') /\
     _tablesState w' Image = [record "2"; record "10"; record "33"]) /\
  (exists w',
     refresh (fun _ => themedOnly) Settings oneCorrupt = (Throw ValidationError, w') /\
     _tablesState w' = _tablesState oneCorrupt).
Proof.
  split.
  - destruct (proj1 (refresh_replaces_mirror (fun _ => anyRecord) Image threeImages)
                [record "2"; record "10"; record "33"] eq_refl)
      as (w' & Hrun & Hst & _).
    now exists w'.
  - destruct (proj2 (refresh_replaces_mirror (fun _ => themedOnly) Settings oneCorrupt)
                ValidationError eq_refl)
      as (w' & Hrun & Hst & _).
    now exists w'.
Defined.

(** X13. [initialize] refreshes the mirrors of the reactive tables, in
    the order Image, Observation, Metadata, Protocol, Settings, and leaves
    them in sync; ImageFile, which is not reactive, is skipped and the
    store is not changed. *)
Theorem initialize_refreshes_reactive_tables (Tables : tableName -> validator)
  (w : world) :
  (forall t, isReactiveTable t = true ->
     exists l, validatedContents Tables t w = Ok l) ->
  exists w',
    initialize Tables w = (Ok tt, w') /\
    txEvents (journal w') =
      txEvents (journal w) ++
      map Refreshed [Image; Observation; Metadata; Protocol; Settings] /\
    (forall t, isReactiveTable t = true -> mirrorInSync Tables t w') /\
    _tablesState w' ImageFile = _tablesState w ImageFile /\
    database w' = database w.
Proof.
  intros Hvalid.
  destruct (@forEach_refresh Tables (filter isReactiveTable tableNames) w)
    as (w' & Hrun & Hdb & Hj & Hsync & Hkeep).
  { intros t Hin. apply filter_In in Hin as [_ Hre]. now apply Hvalid. }
  exists w'. split; [exact Hrun |]. split; [exact Hj |]. split; [| split].
  - intros t Hre. apply Hsync. apply filter_In. split; [| exact Hre].
    destruct t; simpl; tauto.
  - apply Hkeep. simpl. intuition discriminate.
  - exact Hdb.
Qed.

Lemma initialize_refreshes_reactive_tables_witness :
  exists w',
    initialize (fun _ => anyRecord) threeImages = (Ok tt, w') /\
    _tablesState w' Image = [record "2"; record "10"; record "33"].
Proof.
  destruct (@initialize_refreshes_reactive_tables (fun _ => anyRecord) threeImages)
    as (w' & Hrun & _ & Hsync & _).
  { intros t _. destruct t; eexists; reflexivity. }
  exists w'. split; [exact Hrun |].
  specialize (Hsync Image eq_refl). unfold mirrorInSync in Hsync.
  pose proof Hrun as Hw. vm_compute in Hw. injection Hw as <-. reflexivity.
Defined.


(** Schemas strict on Settings only, and a body that leaves, by requests
    on the handle, a record the Settings schema rejects. *)
Definition strictSettings (t : tableName) : validator :=
  match t with
  | Settings => themedOnly
  | _ => anyRecord
  end.

Definition writeCorruptSetting (tx : transaction) : Task unit :=
  images <~ tx_objectStore tx Image ;;
  store_put images (record "1") ~;;
  settings <~ tx_objectStore tx Settings ;;
  store_put settings (record "x") ~;;
  done tt.


(** ** Searching and patching the mirror *)

Lemma findIndexFrom_spec p l : forall i j,
  findIndexFrom p l i = Ok j ->
  (j = -1 /\ Forall (fun x => p x = Ok false) l) \/
  (exists n x,
     j = i + Z.of_nat n /\ nth_error l n = Some x /\ p x = Ok true /\
     Forall (fun y => p y = Ok false) (firstn n l)).
Proof.
  induction l as [| y rest IH]; intros i j; simpl.
  - intros [= <-]. left. now split.
  - destruct (p y) as [[] |] eqn:Hy; simpl; [| | discriminate].
    + intros [= <-]. right. exists 0%nat, y. simpl. repeat split; [lia | exact Hy | constructor].
    + intros H. apply IH in H as [[-> Hall] | (n & x & -> & Hn & Hx & Hall)].
      * left. split; [reflexivity | now constructor].
      * right. exists (S n), x. simpl. repeat split; [lia | exact Hn | exact Hx |].
        now constructor.
Qed.

Lemma findIndex_found p l j :
  findIndex p l = Ok j -> j <> -1 ->
  exists n x,
    j = Z.of_nat n /\ nth_error l n = Some x /\ p x = Ok true /\
    Forall (fun y => p y = Ok false) (firstn n l).
Proof.
  intros H Hj. apply findIndexFrom_spec in H as [[-> _] | (n & x & -> & Hrest)];
    [contradiction |].
  now exists n, x.
Qed.

Lemma findIndex_absent p l :
  findIndex p l = Ok (-1) -> Forall (fun x => p x = Ok false) l.
Proof.
  intros H. apply findIndexFrom_spec in H as [[_ Hall] | (n & x & Hj & _)];
    [exact Hall | lia].
Qed.

Lemma nth_error_split_at {A} (l : list A) n y :
  nth_error l n = Some y -> l = firstn n l ++ y :: skipn (S n) l.
Proof.
  revert l. induction n as [| n IH]; intros [| x l]; simpl; try discriminate.
  - now intros [= ->].
  - intros H. f_equal. now apply IH.
Qed.

Lemma arraySet_in_range l n y x :
  nth_error l n = Some y ->
  arraySet l (Z.of_nat n) x = firstn n l ++ x :: skipn (S n) l.
Proof.
  intros Hn. unfold arraySet.
  destruct (Z.ltb_spec (Z.of_nat n) 0) as [Hneg | _]; [lia |].
  rewrite Nat2Z.id. revert l Hn.
  induction n as [| n IH]; intros [| z l]; simpl; try discriminate.
  - reflexivity.
  - intros H. f_equal. now apply IH.
Qed.

(** X15. [remove] lists the table after the deletion, for the line it
    logs. When a record left in the store is rejected by the validator,
    [remove] throws although the key has been deleted, and the mirror is
    not brought up to date. *)
Theorem remove_throws_after_deleting (Tables : tableName -> validator)
  (t : tableName) (id : jsval) (k k' : key) (r : jsval) (e : error) (w : world) :
  toKey id = Some k ->
  In (k', r) (storeDelete k (database w t)) ->
  Tables t r = Throw e ->
  exists e' w',
    remove Tables t id w = (Throw e', w') /\
    database w' t = storeDelete k (database w t) /\
    _tablesState w' = _tablesState w.
Proof.
  intros Hk Hin Hbad.
  set (wD := mkWorld (update_at (database w) t (storeDelete k (database w t)))
                     (_tablesState w) (journal w)).
  assert (Hin' : In (k', r) (database wD t)) by (simpl; now rewrite update_at_same).
  assert (Hin'' : In r (storeGetAll (database wD t))).
  { unfold storeGetAll. change r with (snd (k', r)). now apply in_map. }
  destruct (rmap_throws (Tables t) _ _ Hin'' Hbad) as [e' He'].
  destruct (list_spec Tables t wD) as (w1 & Hrun & Hdb & Hst & _).
  unfold validatedContents, validatedStore in Hrun. rewrite He' in Hrun. simpl in Hrun.
  exists e', w1. split.
  - unfold remove. apply bind_throw. unfold drop.
    rewrite (bind_ok _ _ (a := tt) (w1 := wD))
      by (unfold db_delete; now rewrite Hk).
    now apply bind_throw.
  - rewrite Hdb, Hst. simpl. now rewrite update_at_same.
Qed.

Lemma remove_throws_after_deleting_witness :
  exists e' w',
    remove (fun _ => themedOnly) Settings (JString "user") oneCorrupt = (Throw e', w') /\
    database w' Settings = [(KString "x", record "x")] /\
    _tablesState w' Settings = [themed "dark"].
Proof.
  destruct (@remove_throws_after_deleting (fun _ => themedOnly) Settings
              (JString "user") (KString "user") (KString "x") (record "x")
              ValidationError oneCorrupt eq_refl)
    as (e' & w' & Hrun & Hdb & Hst).
  { simpl. now left. }
  { reflexivity. }
  exists e', w'. split; [exact Hrun |]. split; [exact Hdb | now rewrite Hst].
Defined.

Lemma wrangler_set_spec (Tables : tableName -> validator) (t : tableName)
  (v out : jsval) (k : key) (index : Z) (w : world) :
  Tables t v = Ok out ->
  toKey (prop v (keyPath t)) = Some k ->
  findIndex (sameId v) (_tablesState w t) = Ok index ->
  (index = -1 ->
   exists sorted, sort idComparator (_tablesState w t ++ [out]) = Ok sorted) ->
  exists w',
    wrangler_set Tables t v w = (Ok out, w') /\
    database w' t = storePut k v (database w t) /\
    In out (_tablesState w' t) /\
    (index <> -1 ->
     _tablesState w' t = arraySet (_tablesState w t) index out /\
     length (_tablesState w' t) = length (_tablesState w t)) /\
    (index = -1 ->
     sort idComparator (_tablesState w t ++ [out]) = Ok (_tablesState w' t) /\
     Permutation (out :: _tablesState w t) (_tablesState w' t)) /\
    (forall t', t' <> t ->
       database w' t' = database w t' /\ _tablesState w' t' = _tablesState w t').
Proof.
  intros Hout Hk Hindex Hsort. unfold wrangler_set.
  rewrite (bind_ok _ _ (set_ok Tables t v w Hout Hk)).
  set (wA := mkWorld (update_at (database w) t (storePut k v (database w t)))
                     (_tablesState w) (journal w ++ [Asserted t v])).
  rewrite (bind_ok _ _ (a := out) (w1 := logged (Asserted t v) wA))
    by (now rewrite assert_run, Hout).
  rewrite (bind_ok _ _ (a := _tablesState w t) (w1 := logged (Asserted t v) wA))
    by reflexivity.
  rewrite (bind_ok _ _ (a := index) (w1 := logged (Asserted t v) wA))
    by (unfold lift; now rewrite Hindex).
  destruct (Z.eqb_spec index (-1)) as [Hminus | Hfound]; cbn [negb].
  - destruct (Hsort Hminus) as [sorted Hsorted].
    pose proof (sort_perm _ _ Hsorted) as Hperm.
    rewrite (bind_ok _ _ (a := tt)
               (w1 := mkWorld (database wA) (update_at (update_at (_tablesState w) t
                                 (_tablesState w t ++ [out])) t sorted)
                              (journal wA ++ [Asserted t v]))).
    2:{ rewrite (bind_ok _ _ (a := tt)
                   (w1 := mkWorld (database wA)
                            (update_at (_tablesState w) t (_tablesState w t ++ [out]))
                            (journal wA ++ [Asserted t v]))) by reflexivity.
        rewrite (bind_ok _ _ (a := sorted)
                   (w1 := mkWorld (database wA)
                            (update_at (_tablesState w) t (_tablesState w t ++ [out]))
                            (journal wA ++ [Asserted t v])))
          by (unfold lift; now rewrite Hsorted).
        reflexivity. }
    eexists. split; [reflexivity |]. cbn [database _tablesState wA].
    rewrite !update_at_same.
    assert (Hperm' : Permutation (out :: _tablesState w t) sorted).
    { rewrite <- Hperm. apply Permutation_cons_append. }
    split; [reflexivity |]. split; [| split; [| split]].
    + apply (Permutation_in _ Hperm'). now left.
    + intros; contradiction.
    + intros _. now split.
    + intros t' Hne. rewrite !update_at_other by congruence. now split.
  - destruct (findIndex_found _ _ Hindex Hfound) as (n & y & -> & Hn & _).
    rewrite (bind_ok _ _ (a := tt)
               (w1 := mkWorld (database wA)
                        (update_at (_tablesState w) t
                           (arraySet (_tablesState w t) (Z.of_nat n) out))
                        (journal wA ++ [Asserted t v]))) by reflexivity.
    eexists. split; [reflexivity |]. cbn [database _tablesState wA].
    rewrite !update_at_same.
    split; [reflexivity |]. split; [| split; [| split]].
    + rewrite (arraySet_in_range _ _ out Hn). apply in_or_app. right. now left.
    + intros _. split; [reflexivity |].
      rewrite (arraySet_in_range _ _ out Hn).
      rewrite (nth_error_split_at _ _ Hn) at 3.
      rewrite !length_app. reflexivity.
    + intros; contradiction.
    + intros t' Hne. rewrite !update_at_other by congruence. now split.
Qed.

(** X16. The wrangler's [set] is an upsert. It puts the record in the
    store and returns the validator's output, which the mirror holds
    afterwards: in place of the first record of the mirror with the same
    [id], the mirror keeping its length, or else added to the mirror,
    which is then sorted again. Other tables and mirrors are untouched. *)
Theorem wrangler_set_upserts (Tables : tableName -> validator) (t : tableName)
  (v out : jsval) (k : key) (index : Z) (w : world) :
  Tables t v = Ok out ->
  toKey (prop v (keyPath t)) = Some k ->
  findIndex (sameId v) (_tablesState w t) = Ok index ->
  (index = -1 ->
   exists sorted, sort idComparator (_tablesState w t ++ [out]) = Ok sorted) ->
  exists w',
    wrangler_set Tables t v w = (Ok out, w') /\
    database w' t = storePut k v (database w t) /\
    In out (_tablesState w' t) /\
    (index <> -1 ->
     _tablesState w' t = arraySet (_tablesState w t) index out /\
     length (_tablesState w' t) = length (_tablesState w t)) /\
    (index = -1 ->
     sort idComparator (_tablesState w t ++ [out]) = Ok (_tablesState w' t) /\
     Permutation (out :: _tablesState w t) (_tablesState w' t)) /\
    (forall t', t' <> t ->
       database w' t' = database w t' /\ _tablesState w' t' = _tablesState w t').
Proof. exact (@wrangler_set_spec Tables t v out k index w). Qed.

Lemma wrangler_set_upserts_witness :
  (exists w',
     wrangler_set (fun _ => anyRecord) Settings (themed "light") oneSetting
       = (Ok (themed "light"), w') /\
     _tablesState w' Settings = [themed "light"]) /\
  (exists w',
     wrangler_set (fun _ => anyRecord) Settings (record "defaults") oneSetting
       = (Ok (record "defaults"), w') /\
     _tablesState w' Settings = [record "defaults"; themed "dark"]).
Proof.
  split.
  - destruct (@wrangler_set_upserts (fun _ => anyRecord) Settings (themed "light") _
                (KString "user") 0 oneSetting eq_refl eq_refl eq_refl)
      as (w' & Hrun & _ & _ & Hpatch & _).
    { discriminate. }
    exists w'. split; [exact Hrun |].
    destruct Hpatch as [Hst _]; [discriminate |]. rewrite Hst. reflexivity.
  - destruct (@wrangler_set_upserts (fun _ => anyRecord) Settings (record "defaults") _
                (KString "defaults") (-1) oneSetting eq_refl eq_refl eq_refl)
      as (w' & Hrun & _ & _ & _ & Hadd & _).
    { intros _. eexists. vm_compute. reflexivity. }
    exists w'. split; [exact Hrun |].
    destruct (Hadd eq_refl) as [Hsorted _]. vm_compute in Hsorted.
    injection Hsorted as Hs. symmetry. exact Hs.
Defined.

(** ** Stores in key order *)

Lemma ascii_compare_refl c : Ascii.compare c c = Eq.
Proof. unfold Ascii.compare. apply N.compare_refl. Qed.

Lemma ascii_compare_lt_trans a b c :
  Ascii.compare a b = Lt -> Ascii.compare b c = Lt -> Ascii.compare a c = Lt.
Proof.
  unfold Ascii.compare. rewrite !N.compare_lt_iff. apply N.lt_trans.
Qed.

Lemma string_compare_lt_trans s : forall t u,
  String.compare s t = Lt -> String.compare t u = Lt -> String.compare s u = Lt.
Proof.
  induction s as [| a s IH]; intros [| b t] [| c u]; simpl; try discriminate;
    try reflexivity.
  destruct (Ascii.compare a b) eqn:E1; try discriminate;
    destruct (Ascii.compare b c) eqn:E2; try discriminate; intros H1 H2.
  - apply Ascii.compare_eq_iff in E1, E2. subst. rewrite ascii_compare_refl.
    now apply (IH t u).
  - apply Ascii.compare_eq_iff in E1. subst. now rewrite E2.
  - apply Ascii.compare_eq_iff in E2. subst. now rewrite E1.
  - now rewrite (ascii_compare_lt_trans _ _ _ E1 E2).
Qed.

Lemma keyCompare_lt_trans a b c :
  keyCompare a b = Lt -> keyCompare b c = Lt -> keyCompare a c = Lt.
Proof.
  destruct a as [x | s], b as [y | t], c as [z | u]; simpl; try discriminate;
    try reflexivity.
  - rewrite !Z.compare_lt_iff. apply Z.lt_trans.
  - apply string_compare_lt_trans.
Qed.

Lemma keyCompare_antisym a b : keyCompare a b = CompOpp (keyCompare b a).
Proof.
  destruct a as [x | s], b as [y | t]; simpl; try reflexivity.
  - apply Z.compare_antisym.
  - apply String.compare_antisym.
Qed.

Lemma keyCompare_gt_lt a b : keyCompare a b = Gt -> keyCompare b a = Lt.
Proof. intros H. rewrite keyCompare_antisym, H. reflexivity. Qed.

(** The records of a store are held in strictly ascending key order. *)
Definition keysAscending (s : objectStore) : Prop :=
  Sorted.StronglySorted (fun a b => keyCompare (fst a) (fst b) = Lt) s.

Lemma storePut_in k v s x : In x (storePut k v s) -> x = (k, v) \/ In x s.
Proof.
  induction s as [| [k1 v1] rest IH]; simpl.
  - intros [<- | []]. now left.
  - destruct (keyCompare k k1); simpl.
    + intros [<- | H]; [now left | right; now right].
    + intros [<- | H]; [now left | now right].
    + intros [<- | H]; [right; now left |].
      apply IH in H as [-> | H]; [now left | right; now right].
Qed.

Lemma storePut_ascending k v s : keysAscending s -> keysAscending (storePut k v s).
Proof.
  unfold keysAscending.
  induction s as [| [k1 v1] rest IH]; simpl; intros Hs.
  - repeat constructor.
  - apply Sorted.StronglySorted_inv in Hs as [Hrest Hhead].
    destruct (keyCompare k k1) eqn:E.
    + apply keyCompare_eq in E. subst k1. now constructor.
    + constructor; [now constructor |].
      constructor; [exact E |].
      eapply Forall_impl; [| exact Hhead]. simpl. intros x Hx.
      now apply (keyCompare_lt_trans _ _ _ E).
    + constructor; [now apply IH |].
      apply Forall_forall. intros x Hx. apply storePut_in in Hx as [-> | Hx].
      * now apply keyCompare_gt_lt.
      * now apply (proj1 (Forall_forall _ _) Hhead).
Qed.

Lemma storeDelete_in k s x : In x (storeDelete k s) -> In x s.
Proof.
  induction s as [| [k1 v1] rest IH]; simpl; [tauto |].
  destruct (keyCompare k k1); simpl; intuition.
Qed.

Lemma storeDelete_ascending k s : keysAscending s -> keysAscending (storeDelete k s).
Proof.
  unfold keysAscending.
  induction s as [| [k1 v1] rest IH]; simpl; intros Hs; [constructor |].
  apply Sorted.StronglySorted_inv in Hs as [Hrest Hhead].
  assert (Hkeep : Sorted.StronglySorted
                    (fun a b => keyCompare (fst a) (fst b) = Lt)
                    ((k1, v1) :: storeDelete k rest)).
  { constructor; [now apply IH |].
    apply Forall_forall. intros x Hx. apply storeDelete_in in Hx.
    now apply (proj1 (Forall_forall _ _) Hhead). }
  destruct (keyCompare k k1); [now apply IH | exact Hkeep | exact Hkeep].
Qed.

Lemma storeGet_in k s v : storeGet k s = Some v -> In (k, v) s.
Proof.
  induction s as [| [k1 v1] rest IH]; simpl; [discriminate |].
  destruct (keyCompare k k1) eqn:E.
  - apply keyCompare_eq in E. subst. intros [= ->]. now left.
  - intros H. right. now apply IH.
  - intros H. right. now apply IH.
Qed.

Lemma in_storeGet k s v : keysAscending s -> In (k, v) s -> storeGet k s = Some v.
Proof.
  unfold keysAscending.
  induction s as [| [k1 v1] rest IH]; simpl; intros Hs; [contradiction |].
  apply Sorted.StronglySorted_inv in Hs as [Hrest Hhead].
  intros [[= -> ->] | Hin].
  - now rewrite keyCompare_refl.
  - pose proof (proj1 (Forall_forall _ _) Hhead _ Hin) as Hlt. simpl in Hlt.
    rewrite (keyCompare_antisym k k1), Hlt. simpl. now apply IH.
Qed.

Lemma storeDelete_absent k s : storeGet k s = None -> storeDelete k s = s.
Proof.
  induction s as [| [k1 v1] rest IH]; simpl; [reflexivity |].
  destruct (keyCompare k k1); [discriminate | |]; intros H; now rewrite IH.
Qed.

Lemma storePut_length k v s :
  keysAscending s ->
  length (storePut k v s) =
    match storeGet k s with
    | Some _ => length s
    | None => S (length s)
    end.
Proof.
  unfold keysAscending.
  induction s as [| [k1 v1] rest IH]; simpl; intros Hs; [reflexivity |].
  apply Sorted.StronglySorted_inv in Hs as [Hrest Hhead].
  destruct (keyCompare k k1) eqn:E; simpl; [reflexivity | |].
  - destruct (storeGet k rest) eqn:G; [| reflexivity].
    apply storeGet_in in G.
    pose proof (proj1 (Forall_forall _ _) Hhead _ G) as Hlt. simpl in Hlt.
    rewrite keyCompare_antisym, E in Hlt. discriminate.
  - rewrite (IH Hrest). now destruct (storeGet k rest).
Qed.

Lemma keyPath_id t : keyPath t = "id".
Proof. now destruct t. Qed.

(** ** Adding a record under a generated id *)

Lemma lookup_assign_same k x props : lookup k (assign k x props) = Some x.
Proof.
  induction props as [| [k1 v1] rest IH]; simpl.
  - now rewrite String.eqb_refl.
  - destruct (String.eqb k k1) eqn:E; simpl; rewrite E; [reflexivity | exact IH].
Qed.

Lemma lookup_assign_other k k' x props :
  k' <> k -> lookup k' (assign k x props) = lookup k' props.
Proof.
  intros Hne. induction props as [| [k1 v1] rest IH]; simpl.
  - apply String.eqb_neq in Hne. now rewrite Hne.
  - destruct (String.eqb k k1) eqn:E; simpl.
    + apply String.eqb_eq in E. subst k1.
      apply String.eqb_neq in Hne. now rewrite Hne.
    + now rewrite IH.
Qed.

Lemma withId_id value id : prop (withId value id) "id" = JString id.
Proof.
  destruct value as [| | | props]; try reflexivity.
  unfold withId, prop. now rewrite lookup_assign_same.
Qed.

Lemma withId_other value id name :
  name <> "id" -> prop (withId value id) name = prop value name.
Proof.
  intros Hne. destruct value as [| | | props]; simpl;
    try (apply String.eqb_neq in Hne; now rewrite Hne).
  now rewrite lookup_assign_other.
Qed.

(** X17. [add] files the record under the generated id, whatever [id]
    the value carried, and keeps its other fields. Nothing guards against
    a collision: when the store already holds a record at the generated
    id, that record is overwritten and the store keeps its size. *)
Theorem add_files_under_generated_id (Tables : tableName -> validator)
  (t : tableName) (value out : jsval) (fraction : list nat) (index : Z) (w : world) :
  let id := generateId (nameOf t) fraction in
  let v := withId value id in
  Tables t v = Ok out ->
  findIndex (sameId v) (_tablesState w t) = Ok index ->
  (index = -1 ->
   exists sorted, sort idComparator (_tablesState w t ++ [out]) = Ok sorted) ->
  keysAscending (database w t) ->
  exists w',
    add Tables t value fraction w = (Ok out, w') /\
    prop v "id" = JString id /\
    (forall name, name <> "id" -> prop v name = prop value name) /\
    storeGet (KString id) (database w' t) = Some v /\
    (forall old, storeGet (KString id) (database w t) = Some old ->
       length (database w' t) = length (database w t)).
Proof.
  intros id v Hout Hindex Hsort Hasc.
  assert (Hk : toKey (prop v (keyPath t)) = Some (KString id)).
  { rewrite keyPath_id. unfold v. now rewrite withId_id. }
  destruct (@wrangler_set_spec Tables t v out (KString id) index w Hout Hk Hindex Hsort)
    as (w' & Hrun & Hdb & _).
  exists w'. split; [exact Hrun |].
  split; [apply withId_id |]. split; [intros name; apply withId_other |].
  rewrite Hdb. split; [apply storeGet_storePut |].
  intros old Hold. rewrite (storePut_length _ _ Hasc), Hold. reflexivity.
Qed.

Lemma add_files_under_generated_id_witness :
  exists w',
    add (fun _ => anyRecord) Settings
      (JObject [("id", JString "mine"); ("theme", JString "light")])
      [4; 15; 35; 34; 24; 8; 2; 22]%nat oneSetting
    = (Ok (JObject [("id", JString "s4fzyo82"); ("theme", JString "light")]), w') /\
    storeGet (KString "s4fzyo82") (database w' Settings)
    = Some (JObject [("id", JString "s4fzyo82"); ("theme", JString "light")]).
Proof.
  destruct (@add_files_under_generated_id (fun _ => anyRecord) Settings
              (JObject [("id", JString "mine"); ("theme", JString "light")]) _
              [4; 15; 35; 34; 24; 8; 2; 22]%nat (-1) oneSetting
              eq_refl eq_refl)
    as (w' & Hrun & _ & _ & Hget & _).
  { intros _. eexists. vm_compute. reflexivity. }
  { unfold keysAscending. simpl. rewrite update_at_same. repeat constructor. }
  now exists w'.
Defined.

(** ** Keeping the mirror in sync

    The store is well formed when its records are in ascending key order
    and each is filed under the key at its key path, as [put] leaves it.
    A validator keeps the [id] when its output carries the [id] of the
    record it was given. *)

Definition idKey (v : jsval) : option key := toKey (prop v "id").

Definition keepsId (V : validator) : Prop :=
  forall r o, V r = Ok o -> prop o "id" = prop r "id".

Definition storeWellFormed (t : tableName) (s : objectStore) : Prop :=
  keysAscending s /\
  Forall (fun kv => toKey (prop (snd kv) (keyPath t)) = Some (fst kv)) s.

(** The comparator's order: [x] may stay before [y]. *)
Definition leqb (x y : jsval) : bool :=
  match idComparator x y with
  | Ok c => c <=? 0
  | Throw _ => false
  end.

(** The comparator orders the records of [U]: it is transitive on them
    and only records with the same [id] compare equal. *)
Definition orderedIds (U : list jsval) : Prop :=
  (forall x y z, In x U -> In y U -> In z U ->
     leqb x y = true -> leqb y z = true -> leqb x z = true) /\
  (forall x y, In x U -> In y U -> idComparator x y = Ok 0 -> idKey x = idKey y).

Lemma strictEq_eq a b : strictEq a b = true -> a = b.
Proof.
  destruct a, b; simpl; try discriminate; intros H.
  - reflexivity.
  - apply Z.eqb_eq in H. now subst.
  - apply String.eqb_eq in H. now subst.
Qed.

Lemma strictEq_refl_key a k : toKey a = Some k -> strictEq a a = true.
Proof.
  destruct a; simpl; try discriminate; intros _;
    [apply Z.eqb_refl | apply String.eqb_refl].
Qed.

Lemma toKey_inj a b k : toKey a = Some k -> toKey b = Some k -> a = b.
Proof.
  intros Ha Hb. apply ofKey_toKey in Ha, Hb. congruence.
Qed.

Lemma idKey_keyed v k : idKey v = Some k -> keyedRecord v = true.
Proof.
  unfold idKey, keyedRecord. intros H. rewrite H.
  destruct v; simpl in *; try discriminate. reflexivity.
Qed.

Lemma keyed_object v : keyedRecord v = true -> isObject v = true.
Proof. unfold keyedRecord. now destruct (isObject v). Qed.

Lemma keyed_getProp v : keyedRecord v = true -> getProp v "id" = Ok (prop v "id").
Proof. destruct v; simpl; try discriminate; reflexivity. Qed.

Lemma rmap_Forall2 {A B} (f : A -> result B) l l' :
  rmap f l = Ok l' -> Forall2 (fun x y => f x = Ok y) l l'.
Proof.
  revert l'. induction l as [| x l IH]; simpl; intros l'.
  - intros [= <-]. constructor.
  - destruct (f x) as [y |] eqn:E; simpl; [| discriminate].
    destruct (rmap f l) as [ys |]; simpl; [| discriminate].
    intros [= <-]. constructor; [exact E | now apply IH].
Qed.

Lemma Forall2_rmap {A B} (f : A -> result B) l l' :
  Forall2 (fun x y => f x = Ok y) l l' -> rmap f l = Ok l'.
Proof.
  induction 1 as [| x y l l' Hxy _ IH]; simpl; [reflexivity |].
  now rewrite Hxy, IH.
Qed.

Section Validated.

Variable Tables : tableName -> validator.
Variable t : tableName.
Hypothesis Hkeeps : keepsId (Tables t).

(** The validated records of a well-formed store, each beside the entry
    it comes from. *)
Definition validatedBeside (s : objectStore) (outs : list jsval) : Prop :=
  Forall2 (fun kv o => Tables t (snd kv) = Ok o /\ idKey o = Some (fst kv)) s outs.

Lemma validated_beside s outs :
  storeWellFormed t s ->
  rmap (Tables t) (storeGetAll s) = Ok outs ->
  validatedBeside s outs.
Proof.
  intros [_ Hfiled] Hmap. apply rmap_Forall2 in Hmap.
  unfold storeGetAll in Hmap. unfold validatedBeside.
  revert outs Hmap. induction s as [| [k r] s IH]; intros outs Hmap.
  - inversion Hmap. constructor.
  - inversion Hmap as [| x o l l' Ho Hrest]; subst.
    inversion Hfiled as [| kv l Hk Hfiled']; subst.
    constructor; [| now apply IH].
    split; [exact Ho |]. unfold idKey. rewrite (@Hkeeps _ _ Ho).
    simpl in Hk. now rewrite keyPath_id in Hk.
Qed.

Lemma validatedBeside_rmap s outs :
  validatedBeside s outs -> rmap (Tables t) (storeGetAll s) = Ok outs.
Proof.
  intros H. apply Forall2_rmap. unfold storeGetAll.
  induction H as [| kv o s outs [Ho _] _ IH]; simpl; constructor; assumption.
Qed.

Lemma validatedBeside_in s outs o :
  validatedBeside s outs -> In o outs ->
  exists k r, In (k, r) s /\ Tables t r = Ok o /\ idKey o = Some k.
Proof.
  induction 1 as [| [k r] o' s outs [Ho Hk] _ IH]; simpl; [contradiction |].
  intros [<- | Hin].
  - exists k, r. split; [now left | now split].
  - destruct (IH Hin) as (k' & r' & Hin' & Hrest). exists k', r'.
    split; [now right | exact Hrest].
Qed.

Lemma validatedBeside_out s outs k r :
  validatedBeside s outs -> In (k, r) s ->
  exists o, In o outs /\ Tables t r = Ok o /\ idKey o = Some k.
Proof.
  induction 1 as [| [k' r'] o' s outs [Ho Hk] _ IH]; simpl; [contradiction |].
  intros [[= -> ->] | Hin].
  - exists o'. split; [now left | now split].
  - destruct (IH Hin) as (o & Hin' & Hrest). exists o.
    split; [now right | exact Hrest].
Qed.

Lemma validatedBeside_keyed s outs :
  validatedBeside s outs -> Forall (fun o => keyedRecord o = true) outs.
Proof.
  induction 1 as [| kv o s outs [_ Hk] _ IH]; constructor; [| exact IH].
  now apply (idKey_keyed _ Hk).
Qed.

Lemma validatedBeside_ids s outs :
  validatedBeside s outs -> map idKey outs = map (fun kv => Some (fst kv)) s.
Proof.
  induction 1 as [| kv o s outs [_ Hk] _ IH]; simpl; [reflexivity |].
  now rewrite Hk, IH.
Qed.

End Validated.

Lemma keysAscending_NoDup s :
  keysAscending s -> NoDup (map (fun kv : key * jsval => Some (fst kv)) s).
Proof.
  unfold keysAscending. induction 1 as [| kv s _ IH Hhead]; simpl; constructor;
    [| exact IH].
  intros Hin. apply in_map_iff in Hin as (kv' & [= Heq] & Hin).
  pose proof (proj1 (Forall_forall _ _) Hhead _ Hin) as Hlt. simpl in Hlt.
  rewrite Heq, keyCompare_refl in Hlt. discriminate.
Qed.

(** ** Sorting with a comparator that orders the records *)

Definition sortedBy (l : list jsval) : Prop :=
  Sorted.StronglySorted (fun a b => leqb a b = true) l.

Lemma compare_keyed x y :
  keyedRecord x = true -> keyedRecord y = true ->
  exists c c',
    idComparator x y = Ok c /\ idComparator y x = Ok c' /\ Z.sgn c' = - Z.sgn c.
Proof.
  intros Hx Hy.
  destruct (keyedRecord_key x Hx) as [kx Hkx], (keyedRecord_key y Hy) as [ky Hky].
  rewrite !idComparator_keyed by assumption.
  exact (compareIds_keys _ _ Hkx Hky).
Qed.

Lemma leqb_total x y :
  keyedRecord x = true -> keyedRecord y = true ->
  leqb x y = false -> leqb y x = true.
Proof.
  intros Hx Hy. unfold leqb.
  destruct (compare_keyed x y Hx Hy) as (c & c' & -> & -> & Hsgn).
  rewrite Z.leb_gt, Z.leb_le. intros Hc.
  destruct (Z.sgn_spec c) as [[? E] | [[? E] | [? E]]];
    destruct (Z.sgn_spec c') as [[? E'] | [[? E'] | [? E']]]; lia.
Qed.

Lemma leqb_antisym x y :
  keyedRecord x = true -> keyedRecord y = true ->
  leqb x y = true -> leqb y x = true -> idComparator x y = Ok 0.
Proof.
  intros Hx Hy. unfold leqb.
  destruct (compare_keyed x y Hx Hy) as (c & c' & -> & -> & Hsgn).
  rewrite !Z.leb_le. intros Hc Hc'. f_equal.
  destruct (Z.sgn_spec c) as [[? E] | [[? E] | [? E]]];
    destruct (Z.sgn_spec c') as [[? E'] | [[? E'] | [? E']]]; lia.
Qed.

Lemma leqb_same_id x x' z :
  keyedRecord x = true -> keyedRecord x' = true -> keyedRecord z = true ->
  prop x "id" = prop x' "id" ->
  leqb x z = leqb x' z /\ leqb z x = leqb z x'.
Proof.
  intros Hx Hx' Hz Hid. unfold leqb.
  rewrite !idComparator_keyed by assumption. now rewrite Hid.
Qed.

Section Ordered.

Variable U : list jsval.
Hypothesis Hkeyed : Forall (fun o => keyedRecord o = true) U.
Hypothesis Hordered : orderedIds U.

Lemma insertBy_sortedBy x l :
  In x U -> incl l U -> sortedBy l ->
  exists l', insertBy idComparator x l = Ok l' /\ sortedBy l'.
Proof.
  intros Hx. pose proof (proj1 (Forall_forall _ _) Hkeyed) as Hk.
  induction l as [| y rest IH]; intros Hincl Hsorted; simpl.
  - exists [x]. split; [reflexivity | repeat constructor].
  - assert (Hy : In y U) by (apply Hincl; now left).
    assert (Hrest : incl rest U) by (intros z Hz; apply Hincl; now right).
    apply Sorted.StronglySorted_inv in Hsorted as [Hsrest Hhead].
    destruct (compare_keyed x y (Hk _ Hx) (Hk _ Hy)) as (c & c' & Hc & Hc' & Hsgn).
    rewrite Hc. simpl.
    destruct (c <=? 0) eqn:Hle.
    + eexists. split; [reflexivity |].
      assert (Hxy : leqb x y = true) by (unfold leqb; now rewrite Hc).
      constructor; [now constructor |].
      constructor; [exact Hxy |].
      apply Forall_forall. intros z Hz.
      apply (proj1 Hordered x y z Hx Hy (Hrest _ Hz) Hxy).
      exact (proj1 (Forall_forall _ _) Hhead _ Hz).
    + destruct (IH Hrest Hsrest) as (l' & Hins & Hl').
      rewrite Hins. simpl. eexists. split; [reflexivity |].
      constructor; [exact Hl' |].
      apply (Permutation_Forall (@insertBy_perm _ _ _ _ Hins)).
      constructor; [| exact Hhead].
      apply leqb_total; [now apply Hk | now apply Hk |].
      unfold leqb. now rewrite Hc.
Qed.

Lemma insertionSort_sortedBy l :
  incl l U ->
  exists l', insertionSort idComparator l = Ok l' /\ sortedBy l'.
Proof.
  induction l as [| x rest IH]; intros Hincl; simpl.
  - exists []. split; [reflexivity | constructor].
  - destruct IH as (r & Hr & Hsorted); [intros z Hz; apply Hincl; now right |].
    rewrite Hr. simpl. apply insertBy_sortedBy; [apply Hincl; now left | | exact Hsorted].
    intros z Hz. apply Hincl. right.
    apply (Permutation_in _ (Permutation_sym (@insertionSort_perm _ _ _ Hr)) Hz).
Qed.

Lemma sort_sortedBy l :
  incl l U ->
  exists l', sort idComparator l = Ok l' /\ sortedBy l' /\ Permutation l l'.
Proof.
  intros Hincl. destruct (insertionSort_sortedBy Hincl) as (l' & Hl' & Hsorted).
  exists l'. rewrite sort_objects.
  - split; [exact Hl' |]. split; [exact Hsorted |].
    exact (@insertionSort_perm idComparator _ _ Hl').
  - apply forallb_forall. intros x Hx. apply keyed_object.
    apply (proj1 (Forall_forall _ _) Hkeyed). now apply Hincl.
Qed.

(** Two arrangements of the same records, both in the comparator's
    order, are the same list when the ids are pairwise different. *)
Lemma sortedBy_unique l1 : forall l2,
  incl l1 U ->
  NoDup (map idKey l1) ->
  sortedBy l1 -> sortedBy l2 -> Permutation l1 l2 -> l1 = l2.
Proof.
  pose proof (proj1 (Forall_forall _ _) Hkeyed) as Hk.
  induction l1 as [| x1 t1 IH]; intros l2 Hincl Hnodup Hs1 Hs2 Hperm.
  - apply Permutation_nil in Hperm. now subst.
  - destruct l2 as [| x2 t2];
      [apply Permutation_sym, Permutation_nil in Hperm; discriminate |].
    apply Sorted.StronglySorted_inv in Hs1 as [Hs1 Hh1].
    apply Sorted.StronglySorted_inv in Hs2 as [Hs2 Hh2].
    inversion Hnodup as [| ? ? Hnotin Hnodup']; subst.
    assert (Hx1 : In x1 U) by (apply Hincl; now left).
    assert (Heq : x1 = x2).
    { assert (Hin2 : In x2 (x1 :: t1))
        by (apply (Permutation_in _ (Permutation_sym Hperm)); now left).
      destruct Hin2 as [-> | Hin2]; [reflexivity |].
      assert (Hin1 : In x1 (x2 :: t2)) by (apply (Permutation_in _ Hperm); now left).
      destruct Hin1 as [-> | Hin1]; [reflexivity |].
      exfalso. apply Hnotin.
      assert (Hx2 : In x2 U) by (apply Hincl; now right).
      pose proof (proj1 (Forall_forall _ _) Hh1 _ Hin2) as H12.
      pose proof (proj1 (Forall_forall _ _) Hh2 _ Hin1) as H21.
      pose proof (leqb_antisym _ _ (Hk _ Hx1) (Hk _ Hx2) H12 H21) as Hzero.
      rewrite (proj2 Hordered x1 x2 Hx1 Hx2 Hzero).
      now apply in_map. }
    subst x2. f_equal. apply IH; try assumption.
    + intros z Hz. apply Hincl. now right.
    + now apply Permutation_cons_inv in Hperm.
Qed.

End Ordered.

Lemma sortedBy_replace a y b out :
  sortedBy (a ++ y :: b) ->
  (forall z, In z (a ++ b) -> leqb out z = leqb y z /\ leqb z out = leqb z y) ->
  sortedBy (a ++ out :: b).
Proof.
  unfold sortedBy. induction a as [| x a IH]; simpl; intros Hs Hsame.
  - apply Sorted.StronglySorted_inv in Hs as [Hb Hy].
    constructor; [exact Hb |].
    apply Forall_forall. intros z Hz.
    rewrite (proj1 (Hsame z Hz)). exact (proj1 (Forall_forall _ _) Hy z Hz).
  - apply Sorted.StronglySorted_inv in Hs as [Hrest Hx].
    constructor; [apply IH; [exact Hrest | intros z Hz; apply Hsame; now right] |].
    apply Forall_app in Hx as [Hxa Hxyb].
    apply Forall_app. split; [exact Hxa |].
    inversion Hxyb as [| ? ? Hxy Hxb]; subst.
    constructor; [| exact Hxb].
    rewrite (proj2 (Hsame x (or_introl eq_refl))). exact Hxy.
Qed.

Lemma findIndex_total p l :
  (forall x, In x l -> exists b, p x = Ok b) -> exists j, findIndex p l = Ok j.
Proof.
  unfold findIndex. generalize 0.
  induction l as [| x l IH]; intros i Hp; simpl; [now eexists |].
  destruct (Hp x (or_introl eq_refl)) as [[] ->]; simpl; [now eexists |].
  apply IH. intros y Hy. apply Hp. now right.
Qed.

Lemma sameId_keyed v item :
  isObject v = true -> keyedRecord item = true ->
  sameId v item = Ok (strictEq (prop item "id") (prop v "id")).
Proof.
  intros Hv Hitem. unfold sameId. rewrite (keyed_getProp _ Hitem). simpl.
  destruct v; simpl in Hv; try discriminate. reflexivity.
Qed.

Lemma hasId_keyed id item :
  keyedRecord item = true -> hasId id item = Ok (strictEq (prop item "id") id).
Proof. intros Hitem. unfold hasId. now rewrite (keyed_getProp _ Hitem). Qed.

Lemma storeGet_before_head k k1 r1 s :
  keysAscending ((k1, r1) :: s) -> keyCompare k k1 = Lt -> storeGet k s = None.
Proof.
  intros Hs Hlt. apply Sorted.StronglySorted_inv in Hs as [_ Hhead].
  destruct (storeGet k s) as [r |] eqn:G; [| reflexivity].
  apply storeGet_in in G.
  pose proof (proj1 (Forall_forall _ _) Hhead _ G) as H1. simpl in H1.
  pose proof (keyCompare_lt_trans _ _ _ Hlt H1) as Hkk.
  rewrite keyCompare_refl in Hkk. discriminate.
Qed.

Section Writing.

Variable Tables : tableName -> validator.
Variable t : tableName.
Hypothesis Hkeeps : keepsId (Tables t).

Lemma validatedBeside_put s outs k v out :
  keysAscending s ->
  validatedBeside Tables t s outs ->
  Tables t v = Ok out -> idKey out = Some k ->
  exists outs',
    validatedBeside Tables t (storePut k v s) outs' /\
    match storeGet k s with
    | None => Permutation (out :: outs) outs'
    | Some r => exists o, Tables t r = Ok o /\ Permutation (out :: outs) (o :: outs')
    end.
Proof.
  intros Hasc Hbeside Hout Hk. revert Hasc.
  induction Hbeside as [| [k1 r1] o1 s outs [Ho1 Hk1] Hrest IH]; intros Hasc; simpl.
  - exists [out]. split; [| reflexivity].
    constructor; [now split | constructor].
  - destruct (keyCompare k k1) eqn:E.
    + exists (out :: outs). split.
      * constructor; [now split | exact Hrest].
      * exists o1. split; [exact Ho1 | apply perm_swap].
    + exists (out :: o1 :: outs). split.
      * constructor; [now split |]. constructor; [now split | exact Hrest].
      * rewrite (@storeGet_before_head k k1 r1 s Hasc E). reflexivity.
    + destruct IH as (outs' & Hbeside' & Hcase).
      { now apply Sorted.StronglySorted_inv in Hasc as [Hs _]. }
      exists (o1 :: outs'). split.
      * constructor; [now split | exact Hbeside'].
      * destruct (storeGet k s) as [r |].
        -- destruct Hcase as (o & Ho & Hperm). exists o. split; [exact Ho |].
           rewrite perm_swap, Hperm. rewrite perm_swap. reflexivity.
        -- rewrite perm_swap, Hcase. reflexivity.
Qed.

Lemma storePut_wellFormed s k v :
  storeWellFormed t s ->
  toKey (prop v (keyPath t)) = Some k ->
  storeWellFormed t (storePut k v s).
Proof.
  intros [Hasc Hfiled] Hk. split; [now apply storePut_ascending |].
  apply Forall_forall. intros x Hx. apply storePut_in in Hx as [-> | Hx].
  - exact Hk.
  - exact (proj1 (Forall_forall _ _) Hfiled x Hx).
Qed.

Lemma storeDelete_wellFormed s k :
  storeWellFormed t s -> storeWellFormed t (storeDelete k s).
Proof.
  intros [Hasc Hfiled]. split; [now apply storeDelete_ascending |].
  apply Forall_forall. intros x Hx. apply storeDelete_in in Hx.
  exact (proj1 (Forall_forall _ _) Hfiled x Hx).
Qed.

(** What a mirror in sync with a well-formed store consists of. *)
Lemma sync_facts s mirror :
  storeWellFormed t s ->
  validatedStore Tables t s = Ok mirror ->
  exists outs,
    validatedBeside Tables t s outs /\
    sort idComparator outs = Ok mirror /\
    Permutation outs mirror /\
    Forall (fun o => keyedRecord o = true) mirror /\
    NoDup (map idKey mirror).
Proof.
  intros Hwf Hsync. unfold validatedStore in Hsync.
  destruct (rmap (Tables t) (storeGetAll s)) as [outs |] eqn:Hmap; [| discriminate].
  simpl in Hsync.
  pose proof (@validated_beside Tables t Hkeeps s outs Hwf Hmap) as Hbeside.
  pose proof (sort_perm _ _ Hsync) as Hperm.
  exists outs. split; [exact Hbeside |]. split; [exact Hsync |].
  split; [exact Hperm |]. split.
  - apply (Permutation_Forall Hperm). exact (@validatedBeside_keyed Tables t s outs Hbeside).
  - apply (Permutation_NoDup (Permutation_map idKey Hperm)).
    rewrite (@validatedBeside_ids Tables t s outs Hbeside). apply keysAscending_NoDup. apply Hwf.
Qed.

(** A list in the comparator's order that rearranges the validated
    records of a well-formed store is what listing the store returns. *)
Lemma sorted_arrangement_is_listing U s outs mirror :
  Forall (fun o => keyedRecord o = true) U ->
  orderedIds U ->
  keysAscending s ->
  validatedBeside Tables t s outs ->
  Permutation outs mirror ->
  incl mirror U ->
  sortedBy mirror ->
  validatedStore Tables t s = Ok mirror.
Proof.
  intros HU Hord Hasc Hbeside Hperm Hincl Hsorted.
  unfold validatedStore. rewrite (@validatedBeside_rmap Tables t s outs Hbeside). simpl.
  assert (Hincl' : incl outs U).
  { intros z Hz. apply Hincl. now apply (Permutation_in _ Hperm). }
  destruct (@sort_sortedBy U HU Hord outs Hincl') as (l' & Hsort & Hsorted' & Hperm').
  rewrite Hsort. f_equal.
  apply (@sortedBy_unique U HU Hord l' mirror); try assumption.
  - intros z Hz. apply Hincl'. now apply (Permutation_in _ (Permutation_sym Hperm')).
  - apply (Permutation_NoDup (Permutation_map idKey Hperm')).
    rewrite (@validatedBeside_ids Tables t s outs Hbeside). now apply keysAscending_NoDup.
  - now rewrite <- Hperm', Hperm.
Qed.

End Writing.

Section KeepingSync.

Variable Tables : tableName -> validator.
Variable t : tableName.
Hypothesis Hkeeps : keepsId (Tables t).

Lemma middle_swap (y out : jsval) a b :
  Permutation (y :: a ++ out :: b) (out :: a ++ y :: b).
Proof.
  rewrite <- (Permutation_middle a b out), <- (Permutation_middle a b y).
  apply perm_swap.
Qed.

(** A record with the key in the mirror comes from a record of the store
    at that key. *)
Lemma mirrored_key_is_stored s mirror outs y k :
  storeWellFormed t s ->
  validatedBeside Tables t s outs ->
  Permutation outs mirror ->
  In y mirror -> idKey y = Some k ->
  exists r, storeGet k s = Some r /\ Tables t r = Ok y.
Proof.
  intros [Hasc _] Hbeside Hperm Hin Hk.
  apply (Permutation_in _ (Permutation_sym Hperm)) in Hin.
  destruct (@validatedBeside_in Tables t s outs y Hbeside Hin) as (k' & r & Hstored & Hy & Hk').
  assert (k' = k) by congruence. subst k'.
  exists r. split; [now apply in_storeGet | exact Hy].
Qed.

(** A record of the store has its validated output in the mirror. *)
Lemma stored_key_is_mirrored s mirror outs k r :
  validatedBeside Tables t s outs ->
  Permutation outs mirror ->
  storeGet k s = Some r ->
  exists o, In o mirror /\ idKey o = Some k.
Proof.
  intros Hbeside Hperm Hget. apply storeGet_in in Hget.
  destruct (@validatedBeside_out Tables t s outs k r Hbeside Hget) as (o & Hin & _ & Hk).
  exists o. split; [now apply (Permutation_in _ Hperm) | exact Hk].
Qed.

(** The store gains a record at a key it did not hold: the mirror with
    the validated record added and sorted again lists the new store. *)
Lemma added_record_in_sync s mirror k v out mirror' :
  storeWellFormed t s ->
  validatedStore Tables t s = Ok mirror ->
  Tables t v = Ok out -> idKey out = Some k ->
  orderedIds (out :: mirror) ->
  storeGet k s = None ->
  sort idComparator (mirror ++ [out]) = Ok mirror' ->
  validatedStore Tables t (storePut k v s) = Ok mirror'.
Proof.
  intros Hwf Hsync Hout Hk Hord Hnone Hsort.
  destruct (@sync_facts Tables t Hkeeps s mirror Hwf Hsync)
    as (outs & Hbeside & _ & Hperm & Hkeyed & _).
  assert (HU : Forall (fun o => keyedRecord o = true) (out :: mirror)).
  { constructor; [exact (idKey_keyed _ Hk) | exact Hkeyed]. }
  destruct (@validatedBeside_put Tables t s outs k v out (proj1 Hwf) Hbeside Hout Hk)
    as (outs' & Hbeside' & Hcase).
  rewrite Hnone in Hcase.
  assert (Hincl : incl (mirror ++ [out]) (out :: mirror)).
  { intros z Hz. apply in_app_or in Hz as [Hz | [<- | []]]; [now right | now left]. }
  destruct (@sort_sortedBy (out :: mirror) HU Hord (mirror ++ [out]) Hincl)
    as (l' & Hsort' & Hsorted & Hperm').
  rewrite Hsort in Hsort'. injection Hsort' as <-.
  apply (@sorted_arrangement_is_listing Tables t (out :: mirror) _ outs' mirror' HU Hord).
  - now apply storePut_ascending, Hwf.
  - exact Hbeside'.
  - rewrite <- Hcase, <- Hperm', Hperm. apply Permutation_cons_append.
  - intros z Hz. apply Hincl. now apply (Permutation_in _ (Permutation_sym Hperm')).
  - exact Hsorted.
Qed.

(** The store's record at a key is replaced: the mirror with the
    validated record in the place of the one that carried the key lists
    the new store. *)
Lemma replaced_record_in_sync s mirror k v out n y :
  storeWellFormed t s ->
  validatedStore Tables t s = Ok mirror ->
  Tables t v = Ok out -> idKey out = Some k ->
  orderedIds (out :: mirror) ->
  nth_error mirror n = Some y -> idKey y = Some k ->
  validatedStore Tables t (storePut k v s)
  = Ok (firstn n mirror ++ out :: skipn (S n) mirror).
Proof.
  intros Hwf Hsync Hout Hk Hord Hn Hky.
  destruct (@sync_facts Tables t Hkeeps s mirror Hwf Hsync)
    as (outs & Hbeside & Hsortouts & Hperm & Hkeyed & _).
  pose proof (proj1 (Forall_forall _ _) Hkeyed) as Hkm.
  assert (Hkout : keyedRecord out = true) by exact (idKey_keyed _ Hk).
  assert (HU : Forall (fun o => keyedRecord o = true) (out :: mirror))
    by now constructor.
  assert (Hymirror : In y mirror) by (eapply nth_error_In; eassumption).
  destruct (@mirrored_key_is_stored s mirror outs y k Hwf Hbeside Hperm Hymirror Hky)
    as (r & Hget & Hry).
  destruct (@validatedBeside_put Tables t s outs k v out (proj1 Hwf) Hbeside Hout Hk)
    as (outs' & Hbeside' & Hcase).
  rewrite Hget in Hcase. destruct Hcase as (o & Hro & Hcase).
  assert (o = y) by congruence. subst o.
  pose proof (nth_error_split_at _ _ Hn) as Hsplit.
  set (a := firstn n mirror) in *. set (b := skipn (S n) mirror) in *.
  assert (Hsortedm : sortedBy mirror).
  { assert (Hincl : incl outs (out :: mirror)).
    { intros z Hz. right. now apply (Permutation_in _ Hperm). }
    destruct (@sort_sortedBy (out :: mirror) HU Hord outs Hincl) as (l' & Hl' & Hs & _).
    rewrite Hsortouts in Hl'. now injection Hl' as <-. }
  assert (Hab : forall z, In z (a ++ b) -> In z mirror).
  { intros z Hz. rewrite Hsplit. apply in_app_or in Hz as [Hz | Hz];
      apply in_or_app; [now left | right; now right]. }
  apply (@sorted_arrangement_is_listing Tables t (out :: mirror) _ outs' _ HU Hord).
  - now apply storePut_ascending, Hwf.
  - exact Hbeside'.
  - apply (Permutation_cons_inv (a := y)).
    rewrite <- Hcase, Hperm, middle_swap. now rewrite <- Hsplit.
  - intros z Hz. apply in_app_or in Hz as [Hz | [<- | Hz]].
    + right. apply Hab. apply in_or_app. now left.
    + now left.
    + right. apply Hab. apply in_or_app. now right.
  - apply (@sortedBy_replace a y b out); [now rewrite <- Hsplit |].
    intros z Hz. apply leqb_same_id; try assumption.
    + now apply Hkm.
    + now apply Hkm, Hab.
    + apply (toKey_inj _ _ Hk Hky).
Qed.

End KeepingSync.

Lemma wrangler_set_sync_spec (Tables : tableName -> validator) (t : tableName)
  (v out : jsval) (k : key) (w : world) :
  keepsId (Tables t) ->
  storeWellFormed t (database w t) ->
  mirrorInSync Tables t w ->
  Tables t v = Ok out ->
  toKey (prop v (keyPath t)) = Some k ->
  orderedIds (out :: _tablesState w t) ->
  exists w',
    wrangler_set Tables t v w = (Ok out, w') /\
    database w' t = storePut k v (database w t) /\
    storeWellFormed t (database w' t) /\
    mirrorInSync Tables t w'.
Proof.
  intros Hkeeps Hwf Hsync Hout Hk Hord.
  unfold mirrorInSync, validatedContents in Hsync.
  destruct (@sync_facts Tables t Hkeeps _ _ Hwf Hsync)
    as (outs & Hbeside & _ & Hperm & Hkeyed & _).
  pose proof (proj1 (Forall_forall _ _) Hkeyed) as Hkm.
  assert (Hkv : toKey (prop v "id") = Some k) by now rewrite keyPath_id in Hk.
  assert (Hidout : idKey out = Some k).
  { unfold idKey. now rewrite (Hkeeps v out Hout). }
  assert (Hvobj : isObject v = true) by exact (keyed_value_is_object _ _ Hk).
  assert (HU : Forall (fun o => keyedRecord o = true) (out :: _tablesState w t)).
  { constructor; [exact (idKey_keyed _ Hidout) | exact Hkeyed]. }
  destruct (@findIndex_total (sameId v) (_tablesState w t)) as [j Hj].
  { intros x Hx. eexists. apply sameId_keyed; [exact Hvobj | now apply Hkm]. }
  assert (Hsortnew : j = -1 ->
            exists sorted, sort idComparator (_tablesState w t ++ [out]) = Ok sorted).
  { intros _.
    destruct (@sort_sortedBy _ HU Hord (_tablesState w t ++ [out])) as (l' & Hl' & _).
    - intros z Hz. apply in_app_or in Hz as [Hz | [<- | []]]; [now right | now left].
    - now exists l'. }
  destruct (@wrangler_set_spec Tables t v out k j w Hout Hk Hj Hsortnew)
    as (w' & Hrun & Hdb & _ & Hpatch & Hadd & _).
  exists w'. split; [exact Hrun |]. split; [exact Hdb |].
  split; [rewrite Hdb; now apply storePut_wellFormed |].
  unfold mirrorInSync, validatedContents. rewrite Hdb.
  destruct (Z.eq_dec j (-1)) as [-> | Hfound].
  - destruct (Hadd eq_refl) as [Hsorted _].
    apply (@added_record_in_sync Tables t Hkeeps _ (_tablesState w t) k v out);
      try assumption.
    destruct (storeGet k (database w t)) as [r |] eqn:G; [exfalso | reflexivity].
    destruct (@stored_key_is_mirrored Tables t _ _ outs k r Hbeside Hperm G)
      as (o & Hin & Hko).
    pose proof (proj1 (Forall_forall _ _) (findIndex_absent _ _ Hj) o Hin) as Hno.
    cbv beta in Hno. rewrite (sameId_keyed _ _ Hvobj (Hkm o Hin)) in Hno.
    rewrite (toKey_inj _ _ Hko Hkv), (strictEq_refl_key _ Hkv) in Hno. discriminate.
  - destruct (findIndex_found _ _ Hj Hfound) as (n & y & -> & Hn & Hy & _).
    destruct (Hpatch Hfound) as [Hst _].
    rewrite Hst, (arraySet_in_range _ _ out Hn).
    assert (Hymirror : In y (_tablesState w t)) by (eapply nth_error_In; eassumption).
    apply (@replaced_record_in_sync Tables t Hkeeps _ _ k v out n y); try assumption.
    rewrite (sameId_keyed _ _ Hvobj (Hkm y Hymirror)) in Hy. injection Hy as Hy.
    apply strictEq_eq in Hy. unfold idKey. now rewrite Hy.
Qed.

(** X18. The wrangler's [set] keeps the mirror in sync. When the store
    is well formed, the mirror is the validated, sorted contents of the
    store, the validator keeps the [id], and the comparator orders the
    records at hand, then [set] of a record the validator accepts returns
    and leaves the store well formed and the mirror in sync with it. *)
Theorem wrangler_set_keeps_sync (Tables : tableName -> validator) (t : tableName)
  (v out : jsval) (k : key) (w : world) :
  keepsId (Tables t) ->
  storeWellFormed t (database w t) ->
  mirrorInSync Tables t w ->
  Tables t v = Ok out ->
  toKey (prop v (keyPath t)) = Some k ->
  orderedIds (out :: _tablesState w t) ->
  exists w',
    wrangler_set Tables t v w = (Ok out, w') /\
    database w' t = storePut k v (database w t) /\
    storeWellFormed t (database w' t) /\
    mirrorInSync Tables t w'.
Proof. exact (@wrangler_set_sync_spec Tables t v out k w). Qed.

(** *** Identifiers the comparator orders *)

Definition hasTextId (v : jsval) : bool :=
  isObject v &&
  match prop v "id" with
  | JString s => negb (digitsOnly s)
  | _ => false
  end.

Lemma leqb_number_ids x y :
  hasNumberId x = true -> hasNumberId y = true ->
  leqb x y = (idValue x <=? idValue y).
Proof.
  intros Hx Hy. unfold leqb. rewrite (idComparator_number_ids _ _ Hx Hy).
  destruct (Z.leb_spec (idValue x - idValue y) 0), (Z.leb_spec (idValue x) (idValue y));
    try reflexivity; lia.
Qed.

Lemma number_id_key x : hasNumberId x = true -> idKey x = Some (KNumber (idValue x)).
Proof.
  unfold hasNumberId, idKey, idValue. intros H. apply andb_prop in H as [_ H].
  now destruct (prop x "id").
Qed.

Lemma orderedIds_numbers U : forallb hasNumberId U = true -> orderedIds U.
Proof.
  intros HU. rewrite forallb_forall in HU. split.
  - intros x y z Hx Hy Hz.
    rewrite !leqb_number_ids by now apply HU.
    rewrite !Z.leb_le. lia.
  - intros x y Hx Hy. rewrite (idComparator_number_ids _ _ (HU _ Hx) (HU _ Hy)).
    intros [= H]. rewrite !number_id_key by now apply HU.
    f_equal. f_equal. lia.
Qed.

Lemma text_id_string x :
  hasTextId x = true ->
  exists s, prop x "id" = JString s /\ digitsOnly s = false /\ keyedRecord x = true.
Proof.
  unfold hasTextId, keyedRecord. intros H. apply andb_prop in H as [Hobj H].
  destruct (prop x "id") as [| | s |]; try discriminate.
  exists s. rewrite Hobj. repeat split. now apply negb_true_iff.
Qed.

Lemma idComparator_text_ids x y s u :
  hasTextId x = true -> hasTextId y = true ->
  prop x "id" = JString s -> prop y "id" = JString u ->
  idComparator x y = Ok (localeCompare s u).
Proof.
  intros Hx Hy Hs Hu.
  destruct (text_id_string x Hx) as (s' & Hs' & Hnd & Hkx).
  destruct (text_id_string y Hy) as (u' & Hu' & _ & Hky).
  rewrite idComparator_keyed, Hs, Hu by assumption.
  assert (s' = s) by congruence. subst s'.
  simpl. now rewrite Hnd.
Qed.

Lemma localeCompare_leb s u :
  (localeCompare s u <=? 0) = match String.compare s u with Gt => false | _ => true end.
Proof. unfold localeCompare. now destruct (String.compare s u). Qed.

Lemma string_compare_le_trans s u v :
  String.compare s u <> Gt -> String.compare u v <> Gt -> String.compare s v <> Gt.
Proof.
  destruct (String.compare s u) eqn:E1; [| | congruence];
    destruct (String.compare u v) eqn:E2; try congruence; intros _ _.
  - apply String.compare_eq_iff in E1, E2. subst. now rewrite string_compare_refl.
  - apply String.compare_eq_iff in E1. subst. now rewrite E2.
  - apply String.compare_eq_iff in E2. subst. now rewrite E1.
  - now rewrite (string_compare_lt_trans _ _ _ E1 E2).
Qed.

Lemma orderedIds_text U : forallb hasTextId U = true -> orderedIds U.
Proof.
  intros HU. rewrite forallb_forall in HU. split.
  - intros x y z Hx Hy Hz.
    destruct (text_id_string x (HU _ Hx)) as (a & Ha & _).
    destruct (text_id_string y (HU _ Hy)) as (b & Hb & _).
    destruct (text_id_string z (HU _ Hz)) as (c & Hc & _).
    unfold leqb.
    rewrite (idComparator_text_ids x y (HU _ Hx) (HU _ Hy) Ha Hb).
    rewrite (idComparator_text_ids y z (HU _ Hy) (HU _ Hz) Hb Hc).
    rewrite (idComparator_text_ids x z (HU _ Hx) (HU _ Hz) Ha Hc).
    rewrite !localeCompare_leb.
    pose proof (string_compare_le_trans a b c) as Htrans.
    destruct (String.compare a b), (String.compare b c), (String.compare a c);
      try reflexivity; try discriminate; intros _ _; exfalso; apply Htrans; congruence.
  - intros x y Hx Hy.
    destruct (text_id_string x (HU _ Hx)) as (a & Ha & _).
    destruct (text_id_string y (HU _ Hy)) as (b & Hb & _).
    rewrite (idComparator_text_ids x y (HU _ Hx) (HU _ Hy) Ha Hb).
    unfold localeCompare, idKey. rewrite Ha, Hb.
    destruct (String.compare a b) eqn:E; try discriminate.
    apply String.compare_eq_iff in E. now subst.
Qed.

(** Identifiers made of digits and lower-case letters that are not
    strings of digits, as the generated ones are. *)
Definition hasPlainId (v : jsval) : bool :=
  isObject v &&
  match prop v "id" with
  | JString s => allChars isBase36 s && negb (digitsOnly s)
  | _ => false
  end.

Lemma plain_id_is_text v : hasPlainId v = true -> hasTextId v = true.
Proof.
  unfold hasPlainId, hasTextId. intros H. apply andb_prop in H as [-> H].
  destruct (prop v "id"); try discriminate.
  now apply andb_prop in H as [_ H].
Qed.

(** X19. The comparator orders records whose ids are all safe integers,
    and records whose ids are all strings of digits and lower-case
    letters other than strings of digits (the generated ids among them):
    on such records it is transitive, and only records with the same id
    compare equal. *)
Theorem idComparator_orders_uniform_ids (U : list jsval) :
  forallb hasNumberId U && forallb safeRecord U || forallb hasPlainId U = true ->
  orderedIds U.
Proof.
  intros H. apply orb_prop in H as [H | H].
  - apply andb_prop in H as [H _]. now apply orderedIds_numbers.
  - apply orderedIds_text. revert H. apply forallb_weaken, plain_id_is_text.
Qed.

Lemma idComparator_orders_uniform_ids_witness :
  orderedIds [record "w4fzyo82"; record "user"; themed "dark"; record "1a"].
Proof.
  apply (@idComparator_orders_uniform_ids
           [record "w4fzyo82"; record "user"; themed "dark"; record "1a"]).
  reflexivity.
Defined.

Lemma wrangler_set_keeps_sync_witness :
  exists w',
    wrangler_set (fun _ => anyRecord) Settings (record "defaults") oneSetting
      = (Ok (record "defaults"), w') /\
    mirrorInSync (fun _ => anyRecord) Settings w'.
Proof.
  destruct (@wrangler_set_keeps_sync (fun _ => anyRecord) Settings
              (record "defaults") (record "defaults") (KString "defaults") oneSetting)
    as (w' & Hrun & _ & _ & Hsync).
  - intros r o. unfold anyRecord. destruct r; try discriminate.
    destruct (toKey _); [now intros [= <-] | discriminate].
  - split; simpl.
    + unfold keysAscending. repeat constructor.
    + repeat constructor.
  - reflexivity.
  - reflexivity.
  - reflexivity.
  - apply orderedIds_text. reflexivity.
  - now exists w'.
Defined.

Lemma anyRecord_keepsId : keepsId anyRecord.
Proof.
  intros r o. unfold anyRecord. destruct r; try discriminate.
  destruct (toKey _); [now intros [= <-] | discriminate].
Qed.

(** *** Updating a field, removing a record *)

Lemma update_patches (Tables : tableName -> validator) t id k property value
  props out k' index w :
  toKey id = Some k ->
  storeGet k (database w t) = Some (JObject props) ->
  Tables t (JObject (assign property value props)) = Ok out ->
  toKey (prop (JObject (assign property value props)) (keyPath t)) = Some k' ->
  findIndex (hasId id) (_tablesState w t) = Ok index ->
  index <> -1 ->
  exists w',
    update Tables t id property value w = (Ok true, w') /\
    database w' t = storePut k' (JObject (assign property value props)) (database w t) /\
    _tablesState w' t = arraySet (_tablesState w t) index out.
Proof.
  intros Hk Hsome Hout Hk' Hindex Hfound.
  set (item := JObject (assign property value props)) in *.
  unfold update.
  rewrite (bind_ok _ _ (raw_get_run t id w Hk)), Hsome. cbn [truthy negb setProp].
  rewrite (bind_ok _ _ (a := item) (w1 := w)) by reflexivity.
  rewrite (bind_ok _ _ (set_ok Tables t item w Hout Hk')).
  set (wA := mkWorld (update_at (database w) t (storePut k' item (database w t)))
                     (_tablesState w) (journal w ++ [Asserted t item])).
  rewrite (bind_ok _ _ (a := _tablesState w t) (w1 := wA)) by reflexivity.
  rewrite (bind_ok _ _ (a := index) (w1 := wA)) by (unfold lift; now rewrite Hindex).
  destruct (Z.eqb_spec index (-1)) as [| _]; [contradiction |].
  rewrite (bind_ok _ _ (a := tt)
             (w1 := mkWorld (database wA)
                      (update_at (_tablesState wA) t (arraySet (_tablesState w t) index out))
                      (journal wA ++ [Asserted t item])))
    by (rewrite (bind_ok _ _ (a := out) (w1 := logged (Asserted t item) wA));
        [reflexivity | now rewrite assert_run, Hout]).
  eexists. split; [reflexivity |]. simpl. now rewrite !update_at_same.
Qed.

Lemma update_sync_spec (Tables : tableName -> validator) (t : tableName)
  (id : jsval) (k : key) (property : string) (value : jsval)
  (props : list (string * jsval)) (out : jsval) (w : world) :
  keepsId (Tables t) ->
  storeWellFormed t (database w t) ->
  mirrorInSync Tables t w ->
  toKey id = Some k ->
  storeGet k (database w t) = Some (JObject props) ->
  property <> keyPath t ->
  Tables t (JObject (assign property value props)) = Ok out ->
  orderedIds (out :: _tablesState w t) ->
  exists w',
    update Tables t id property value w = (Ok true, w') /\
    database w' t =
      storePut k (JObject (assign property value props)) (database w t) /\
    storeWellFormed t (database w' t) /\
    mirrorInSync Tables t w'.
Proof.
  intros Hkeeps Hwf Hsync Hk Hsome Hprop Hout Hord.
  set (item := JObject (assign property value props)) in *.
  unfold mirrorInSync, validatedContents in Hsync.
  destruct (@sync_facts Tables t Hkeeps _ _ Hwf Hsync)
    as (outs & Hbeside & _ & Hperm & Hkeyed & _).
  pose proof (proj1 (Forall_forall _ _) Hkeyed) as Hkm.
  assert (Hkitem : toKey (prop item (keyPath t)) = Some k).
  { pose proof (proj1 (Forall_forall _ _) (proj2 Hwf) _ (storeGet_in _ _ Hsome)) as Hfiled.
    simpl in Hfiled. unfold item. simpl.
    rewrite lookup_assign_other by congruence. exact Hfiled. }
  assert (Hidout : idKey out = Some k).
  { unfold idKey. rewrite (Hkeeps item out Hout). now rewrite keyPath_id in Hkitem. }
  destruct (@stored_key_is_mirrored Tables t _ _ outs k _ Hbeside Hperm Hsome)
    as (o & Hin & Hko).
  destruct (@findIndex_total (hasId id) (_tablesState w t)) as [j Hj].
  { intros x Hx. eexists. apply hasId_keyed. now apply Hkm. }
  assert (Hfound : j <> -1).
  { intros ->.
    pose proof (proj1 (Forall_forall _ _) (findIndex_absent _ _ Hj) o Hin) as Hno.
    cbv beta in Hno. rewrite (hasId_keyed id o (Hkm o Hin)) in Hno.
    rewrite (toKey_inj _ _ Hko Hk), (strictEq_refl_key _ Hk) in Hno. discriminate. }
  destruct (findIndex_found _ _ Hj Hfound) as (n & y & -> & Hn & Hy & _).
  destruct (@update_patches Tables t id k property value props out k (Z.of_nat n) w
              Hk Hsome Hout Hkitem Hj Hfound) as (w' & Hrun & Hdb & Hst).
  exists w'. split; [exact Hrun |]. split; [exact Hdb |].
  split; [rewrite Hdb; now apply storePut_wellFormed |].
  unfold mirrorInSync, validatedContents.
  rewrite Hdb, Hst, (arraySet_in_range _ _ out Hn).
  assert (Hymirror : In y (_tablesState w t)) by (eapply nth_error_In; eassumption).
  apply (@replaced_record_in_sync Tables t Hkeeps _ _ k item out n y); try assumption.
  rewrite (hasId_keyed id y (Hkm y Hymirror)) in Hy. injection Hy as Hy.
  apply strictEq_eq in Hy. unfold idKey. now rewrite Hy.
Qed.

(** X20. [update] of a field other than the key path keeps the mirror in
    sync: from a well-formed store with its mirror in sync, it rewrites
    the record at the same key, patches the mirror in place, returns true
    and leaves the mirror in sync. *)
Theorem update_keeps_sync (Tables : tableName -> validator) (t : tableName)
  (id : jsval) (k : key) (property : string) (value : jsval)
  (props : list (string * jsval)) (out : jsval) (w : world) :
  keepsId (Tables t) ->
  storeWellFormed t (database w t) ->
  mirrorInSync Tables t w ->
  toKey id = Some k ->
  storeGet k (database w t) = Some (JObject props) ->
  property <> keyPath t ->
  Tables t (JObject (assign property value props)) = Ok out ->
  orderedIds (out :: _tablesState w t) ->
  exists w',
    update Tables t id property value w = (Ok true, w') /\
    database w' t =
      storePut k (JObject (assign property value props)) (database w t) /\
    storeWellFormed t (database w' t) /\
    mirrorInSync Tables t w'.
Proof. exact (@update_sync_spec Tables t id k property value props out w). Qed.

Lemma update_keeps_sync_witness :
  exists w',
    update (fun _ => anyRecord) Settings (JString "user") "theme" (JString "light")
      oneSetting = (Ok true, w') /\
    mirrorInSync (fun _ => anyRecord) Settings w'.
Proof.
  destruct (@update_keeps_sync (fun _ => anyRecord) Settings (JString "user")
              (KString "user") "theme" (JString "light")
              [("id", JString "user"); ("theme", JString "dark")]
              (themed "light") oneSetting)
    as (w' & Hrun & _ & _ & Hsync).
  - exact anyRecord_keepsId.
  - split; simpl; [unfold keysAscending |]; repeat constructor.
  - reflexivity.
  - reflexivity.
  - reflexivity.
  - discriminate.
  - reflexivity.
  - apply orderedIds_text. reflexivity.
  - now exists w'.
Defined.

Lemma insertBy_total_keyed x l :
  keyedRecord x = true -> Forall (fun o => keyedRecord o = true) l ->
  exists l', insertBy idComparator x l = Ok l'.
Proof.
  intros Hx. induction 1 as [| y rest Hy _ IH]; simpl; [now eexists |].
  destruct (compare_keyed x y Hx Hy) as (c & _ & -> & _). simpl.
  destruct (c <=? 0); [now eexists |].
  destruct IH as [l' ->]. simpl. now eexists.
Qed.

Lemma sort_total_keyed l :
  Forall (fun o => keyedRecord o = true) l ->
  exists l', sort idComparator l = Ok l'.
Proof.
  intros Hl. rewrite sort_objects.
  - induction Hl as [| x rest Hx Hrest IH]; simpl; [now eexists |].
    destruct IH as [r Hr]. rewrite Hr. simpl.
    apply insertBy_total_keyed; [exact Hx |].
    exact (Permutation_Forall (@insertionSort_perm idComparator _ _ Hr) Hrest).
  - apply forallb_forall. intros x Hx. apply keyed_object.
    exact (proj1 (Forall_forall _ _) Hl x Hx).
Qed.

Lemma rmap_getProp_keyed l :
  Forall (fun o => keyedRecord o = true) l ->
  exists ids, rmap (fun o => getProp o "id") l = Ok ids.
Proof.
  induction 1 as [| x rest Hx _ [ids IH]]; simpl; [now eexists |].
  rewrite (keyed_getProp _ Hx), IH. simpl. now eexists.
Qed.

Lemma validatedBeside_delete (Tables : tableName -> validator) t s outs k :
  validatedBeside Tables t s outs ->
  exists outs', validatedBeside Tables t (storeDelete k s) outs'.
Proof.
  induction 1 as [| [k1 r1] o1 s outs Ho1 _ [outs' IH]]; simpl.
  - exists []. constructor.
  - destruct (keyCompare k k1); [now exists outs' | |];
      exists (o1 :: outs'); now constructor.
Qed.

Lemma remove_sync_spec (Tables : tableName -> validator) (t : tableName)
  (id : jsval) (k : key) (w : world) :
  keepsId (Tables t) ->
  storeWellFormed t (database w t) ->
  mirrorInSync Tables t w ->
  toKey id = Some k ->
  exists w',
    remove Tables t id w = (Ok tt, w') /\
    database w' t = storeDelete k (database w t) /\
    storeWellFormed t (database w' t) /\
    mirrorInSync Tables t w'.
Proof.
  intros Hkeeps Hwf Hsync Hk.
  unfold mirrorInSync, validatedContents in Hsync.
  destruct (@sync_facts Tables t Hkeeps _ _ Hwf Hsync)
    as (outs & Hbeside & _ & Hperm & Hkeyed & _).
  pose proof (proj1 (Forall_forall _ _) Hkeyed) as Hkm.
  pose proof (@storeDelete_wellFormed t _ k Hwf) as Hwf'.
  set (s' := storeDelete k (database w t)) in *.
  set (wD := mkWorld (update_at (database w) t s') (_tablesState w) (journal w)).
  (* the listing of the store after the deletion *)
  destruct (@validatedBeside_delete Tables t _ outs k Hbeside) as [outs' Hbeside'].
  fold s' in Hbeside'.
  pose proof (@validatedBeside_keyed Tables t s' outs' Hbeside') as Hkeyed'.
  destruct (sort_total_keyed Hkeyed') as [l Hl].
  assert (Hlisted : validatedStore Tables t s' = Ok l).
  { unfold validatedStore. now rewrite (@validatedBeside_rmap Tables t s' outs' Hbeside'). }
  assert (Hkl : Forall (fun o => keyedRecord o = true) l)
    by exact (Permutation_Forall (sort_perm _ _ Hl) Hkeyed').
  destruct (list_spec Tables t wD) as (w1 & Hrun1 & Hdb1 & Hst1 & _).
  unfold validatedContents in Hrun1. simpl in Hrun1.
  rewrite update_at_same, Hlisted in Hrun1.
  destruct (rmap_getProp_keyed Hkl) as [ids Hids].
  assert (Hdrop : drop Tables t id w = (Ok tt, w1)).
  { unfold drop.
    rewrite (bind_ok _ _ (a := tt) (w1 := wD)) by (unfold db_delete; now rewrite Hk).
    rewrite (bind_ok _ _ Hrun1).
    rewrite (bind_ok _ _ (a := ids) (w1 := w1)) by (unfold lift; now rewrite Hids).
    reflexivity. }
  destruct (@findIndex_total (hasId id) (_tablesState w t)) as [j Hj].
  { intros x Hx. eexists. apply hasId_keyed. now apply Hkm. }
  unfold remove. rewrite (bind_ok _ _ Hdrop).
  rewrite (bind_ok _ _ (a := _tablesState w t) (w1 := w1))
    by (unfold readState; now rewrite Hst1).
  rewrite (bind_ok _ _ (a := j) (w1 := w1)) by (unfold lift; now rewrite Hj).
  destruct (Z.eqb_spec j (-1)) as [-> | Hfound]; cbn [negb].
  - (* the mirror does not hold the key: neither does the store *)
    assert (Hnone : storeGet k (database w t) = None).
    { destruct (storeGet k (database w t)) as [r |] eqn:G; [exfalso | reflexivity].
      destruct (@stored_key_is_mirrored Tables t _ _ outs k r Hbeside Hperm G)
        as (o & Hin & Hko).
      pose proof (proj1 (Forall_forall _ _) (findIndex_absent _ _ Hj) o Hin) as Hno.
      cbv beta in Hno. rewrite (hasId_keyed id o (Hkm o Hin)) in Hno.
      rewrite (toKey_inj _ _ Hko Hk), (strictEq_refl_key _ Hk) in Hno. discriminate. }
    eexists. split; [reflexivity |]. unfold writeState. simpl.
    rewrite Hdb1, Hst1. simpl. rewrite !update_at_same.
    split; [reflexivity |]. split; [exact Hwf' |].
    unfold mirrorInSync, validatedContents. simpl. rewrite !update_at_same.
    unfold arrayDelete. simpl. unfold s'. now rewrite (storeDelete_absent _ _ Hnone).
  - destruct (list_spec Tables t w1) as (w2 & Hrun2 & Hdb2 & Hst2 & _).
    unfold validatedContents in Hrun2. rewrite Hdb1 in Hrun2. simpl in Hrun2.
    rewrite update_at_same, Hlisted in Hrun2.
    rewrite (bind_ok _ _ Hrun2).
    eexists. split; [reflexivity |]. unfold writeState. simpl.
    rewrite Hdb2, Hdb1. simpl. rewrite !update_at_same.
    split; [reflexivity |]. split; [exact Hwf' |].
    unfold mirrorInSync, validatedContents. simpl. now rewrite !update_at_same.
Qed.

(** X21. From a well-formed store with its mirror in sync, [remove] of a
    key returns and leaves the mirror in sync: a key the mirror holds
    leads to a reload from the store, and a key the mirror does not hold
    is not in the store either, so that leaving the mirror alone is
    right. *)
Theorem remove_keeps_sync (Tables : tableName -> validator) (t : tableName)
  (id : jsval) (k : key) (w : world) :
  keepsId (Tables t) ->
  storeWellFormed t (database w t) ->
  mirrorInSync Tables t w ->
  toKey id = Some k ->
  exists w',
    remove Tables t id w = (Ok tt, w') /\
    database w' t = storeDelete k (database w t) /\
    storeWellFormed t (database w' t) /\
    mirrorInSync Tables t w'.
Proof. exact (@remove_sync_spec Tables t id k w). Qed.

Lemma remove_keeps_sync_witness :
  exists w',
    remove (fun _ => anyRecord) Settings (JString "user") oneSetting = (Ok tt, w') /\
    database w' Settings = [] /\
    mirrorInSync (fun _ => anyRecord) Settings w'.
Proof.
  destruct (@remove_keeps_sync (fun _ => anyRecord) Settings (JString "user")
              (KString "user") oneSetting)
    as (w' & Hrun & Hdb & _ & Hsync).
  - exact anyRecord_keepsId.
  - split; simpl; [unfold keysAscending |]; repeat constructor.
  - reflexivity.
  - reflexivity.
  - exists w'. split; [exact Hrun |]. split; [rewrite Hdb; reflexivity | exact Hsync].
Defined.

(** * Lazy iteration

    [iterator] is an asynchronous generator over a cursor. A consumer
    that pulls it to the end sees the values yielded, in order, and the
    error that ended the iteration if there was one. *)

Definition yields : Type := (list jsval * option error)%type.

(** [for await (const cursor of iter) yield f(cursor.value)] *)
Fixpoint yieldEach (f : jsval -> M jsval) (values : list jsval) (w : world)
  : yields * world :=
  match values with
  | [] => (([], None), w)
  | v :: rest =>
      match f v w with
      | (Ok out, w1) =>
          let '((ys, e), w2) := yieldEach f rest w1 in ((out :: ys, e), w2)
      | (Throw e, w1) => (([], Some e), w1)
      end
  end.

(** The secondary indexes of a store: [openDatabase] creates one for each
    name after the first of the table's index list. An index holds the
    records that carry a string or a number at its path, in the order of
    that value and, among equal values, of the primary key. *)
Definition declaredIndexes (t : tableName) : list string := tl (indexes t).

Fixpoint insertEntry (ik : key) (v : jsval) (entries : list (key * jsval))
  : list (key * jsval) :=
  match entries with
  | [] => [(ik, v)]
  | (ik', v') :: rest =>
      match keyCompare ik ik' with
      | Gt => (ik', v') :: insertEntry ik v rest
      | _ => (ik, v) :: (ik', v') :: rest
      end
  end.

Fixpoint indexEntries (name : string) (s : objectStore) : list (key * jsval) :=
  match s with
  | [] => []
  | (_, v) :: rest =>
      match toKey (prop v name) with
      | Some ik => insertEntry ik v (indexEntries name rest)
      | None => indexEntries name rest
      end
  end.

(** [store.index(name).iterate()], or [store.iterate()] when [index] is
    undefined or the empty string; an index that was not created is a
    NotFoundError. *)
Definition openCursor (t : tableName) (index : option string) (s : objectStore)
  : result (list jsval) :=
  match index with
  | None => Ok (storeGetAll s)
  | Some name =>
      if String.eqb name "" then Ok (storeGetAll s)
      else if existsb (String.eqb name) (declaredIndexes t)
           then Ok (map snd (indexEntries name s))
           else Throw (Raised "NotFoundError")
  end.

Definition iterator (Tables : tableName -> validator) (tableName : tableName)
  (index : option string) (w : world) : yields * world :=
  let opened := logged (Opened (mkTransaction "" [tableName] readonly)) w in
  match openCursor tableName index (database w tableName) with
  | Ok values => yieldEach (assert Tables tableName) values opened
  | Throw e => (([], Some e), opened)
  end.

(** The wrangler's [all] and [by]. *)
Definition wrangler_all (Tables : tableName -> validator) (table : tableName)
  : world -> yields * world :=
  iterator Tables table None.

Definition wrangler_by (Tables : tableName -> validator) (table : tableName)
  (index : string) : world -> yields * world :=
  iterator Tables table (Some index).

(** The validated values up to the first one rejected. *)
Fixpoint validatedPrefix (V : validator) (values : list jsval) : yields :=
  match values with
  | [] => ([], None)
  | v :: rest =>
      match V v with
      | Ok out => let (ys, e) := validatedPrefix V rest in (out :: ys, e)
      | Throw e => ([], Some e)
      end
  end.

Lemma yieldEach_assert (Tables : tableName -> validator) t values : forall w,
  exists w',
    yieldEach (assert Tables t) values w = (validatedPrefix (Tables t) values, w') /\
    database w' = database w /\
    _tablesState w' = _tablesState w /\
    txEvents (journal w') = txEvents (journal w).
Proof.
  induction values as [| v rest IH]; intros w; cbn [yieldEach validatedPrefix].
  - exists w. now repeat split.
  - rewrite assert_run. destruct (Tables t v) as [out | e].
    + destruct (IH (logged (Asserted t v) w)) as (w' & Hrun & Hdb & Hst & Hj).
      rewrite Hrun. destruct (validatedPrefix (Tables t) rest) as [ys e].
      exists w'. split; [reflexivity |]. repeat split; try assumption.
      rewrite Hj. simpl. rewrite txEvents_app. simpl. apply app_nil_r.
    + eexists. split; [reflexivity |]. repeat split.
      simpl. rewrite txEvents_app. simpl. apply app_nil_r.
Qed.

Lemma validatedPrefix_all V values outs :
  rmap V values = Ok outs -> validatedPrefix V values = (outs, None).
Proof.
  revert outs. induction values as [| v rest IH]; simpl; intros outs.
  - now intros [= <-].
  - destruct (V v) as [out |]; simpl; [| discriminate].
    destruct (rmap V rest) as [ys |]; simpl; [| discriminate].
    intros [= <-]. now rewrite (IH ys eq_refl).
Qed.

Lemma validatedPrefix_stops V before bad after outs e :
  rmap V before = Ok outs -> V bad = Throw e ->
  validatedPrefix V (before ++ bad :: after) = (outs, Some e).
Proof.
  revert outs. induction before as [| v rest IH]; simpl; intros outs.
  - intros [= <-] ->. reflexivity.
  - destruct (V v) as [out |]; simpl; [| discriminate].
    destruct (rmap V rest) as [ys |]; simpl; [| discriminate].
    intros [= <-] Hbad. now rewrite (IH ys eq_refl Hbad).
Qed.

Lemma iterator_primary (Tables : tableName -> validator) t index w :
  index = None \/ index = Some "" ->
  exists w',
    iterator Tables t index w
      = (validatedPrefix (Tables t) (storeGetAll (database w t)), w') /\
    database w' = database w /\
    _tablesState w' = _tablesState w.
Proof.
  intros Hindex.
  destruct (yieldEach_assert Tables t (storeGetAll (database w t))
              (logged (Opened (mkTransaction "" [t] readonly)) w))
    as (w' & Hrun & Hdb & Hst & _).
  exists w'. split; [| now split].
  unfold iterator. destruct Hindex as [-> | ->]; exact Hrun.
Qed.

(** X22. Iterating a table without an index (the wrangler's [all])
    yields the validator's output for each record in key order and stops,
    with its error, at the first record the validator rejects, having
    yielded the records before it. When every record is accepted, the
    values yielded are the ones [list] sorts and returns. The store and
    the mirrors are not touched. *)
Theorem iterator_yields_in_key_order (Tables : tableName -> validator)
  (t : tableName) (w : world) :
  (exists w',
     wrangler_all Tables t w
       = (validatedPrefix (Tables t) (storeGetAll (database w t)), w') /\
     database w' = database w /\
     _tablesState w' = _tablesState w) /\
  (forall outs,
     rmap (Tables t) (storeGetAll (database w t)) = Ok outs ->
     fst (wrangler_all Tables t w) = (outs, None) /\
     fst (list_ Tables t w) = sort idComparator outs) /\
  (forall before k bad after outs e,
     database w t = before ++ (k, bad) :: after ->
     rmap (Tables t) (storeGetAll before) = Ok outs ->
     Tables t bad = Throw e ->
     fst (wrangler_all Tables t w) = (outs, Some e)).
Proof.
  destruct (iterator_primary Tables t w (or_introl eq_refl)) as (w' & Hrun & Hdb & Hst).
  split; [now exists w' |]. unfold wrangler_all. rewrite Hrun. simpl. split.
  - intros outs Houts. split; [now apply validatedPrefix_all |].
    destruct (list_spec Tables t w) as (wl & Hlist & _). rewrite Hlist. simpl.
    unfold validatedContents, validatedStore. now rewrite Houts.
  - intros before k bad after outs e Hsplit Hbefore Hbad.
    rewrite Hsplit. unfold storeGetAll. rewrite map_app. simpl.
    now apply validatedPrefix_stops.
Qed.

Lemma iterator_yields_in_key_order_witness :
  fst (wrangler_all (fun _ => anyRecord) Image threeImages)
    = ([record "10"; record "2"; record "33"], None) /\
  fst (wrangler_all (fun _ => themedOnly) Settings oneCorrupt)
    = ([themed "dark"], Some ValidationError).
Proof.
  split.
  - apply (proj1 (proj2 (iterator_yields_in_key_order (fun _ => anyRecord)
                           Image threeImages))).
    reflexivity.
  - apply (proj2 (proj2 (iterator_yields_in_key_order (fun _ => themedOnly)
                           Settings oneCorrupt))
             [(KString "user", themed "dark")] (KString "x") (record "x") []);
      reflexivity.
Defined.

(** X23. Iterating by an index that the store does not have throws a
    NotFoundError before anything is yielded and without a call of the
    validator. The key path is not an index: [by] with the name of the
    primary key throws for every table. *)
Theorem iterator_unknown_index (Tables : tableName -> validator)
  (t : tableName) (name : string) (w : world) :
  name <> "" ->
  ~ In name (declaredIndexes t) ->
  wrangler_by Tables t name w
    = (([], Some (Raised "NotFoundError")),
       logged (Opened (mkTransaction "" [t] readonly)) w) /\
  ~ In (keyPath t) (declaredIndexes t).
Proof.
  intros Hname Hout. split.
  - unfold wrangler_by, iterator, openCursor.
    apply String.eqb_neq in Hname. rewrite Hname.
    destruct (existsb (String.eqb name) (declaredIndexes t)) eqn:E; [| reflexivity].
    apply existsb_exists in E as (x & Hin & Hx).
    apply String.eqb_eq in Hx. now subst.
  - destruct t; simpl; intuition discriminate.
Qed.

Lemma iterator_unknown_index_witness :
  wrangler_by (fun _ => anyRecord) Image "id" threeImages
    = (([], Some (Raised "NotFoundError")),
       logged (Opened (mkTransaction "" [Image] readonly)) threeImages).
Proof.
  apply (@iterator_unknown_index (fun _ => anyRecord) Image "id" threeImages).
  - discriminate.
  - simpl. intuition discriminate.
Defined.

(** ** The order of an index *)

Lemma keyCompare_le_trans a b c :
  keyCompare a b <> Gt -> keyCompare b c <> Gt -> keyCompare a c <> Gt.
Proof.
  destruct (keyCompare a b) eqn:E1; [| | congruence];
    destruct (keyCompare b c) eqn:E2; try congruence; intros _ _.
  - apply keyCompare_eq in E1, E2. subst. now rewrite keyCompare_refl.
  - apply keyCompare_eq in E1. subst. now rewrite E2.
  - apply keyCompare_eq in E2. subst. now rewrite E1.
  - now rewrite (keyCompare_lt_trans _ _ _ E1 E2).
Qed.

Definition entriesAscending (entries : list (key * jsval)) : Prop :=
  Sorted.StronglySorted (fun a b => keyCompare (fst a) (fst b) <> Gt) entries.

Lemma insertEntry_perm ik v entries :
  Permutation ((ik, v) :: entries) (insertEntry ik v entries).
Proof.
  induction entries as [| [ik' v'] rest IH]; simpl; [reflexivity |].
  destruct (keyCompare ik ik'); try reflexivity.
  rewrite perm_swap. now rewrite IH.
Qed.

Lemma insertEntry_ascending ik v entries :
  entriesAscending entries -> entriesAscending (insertEntry ik v entries).
Proof.
  unfold entriesAscending.
  induction entries as [| [ik' v'] rest IH]; simpl; intros Hs.
  - repeat constructor.
  - pose proof Hs as Hs'. apply Sorted.StronglySorted_inv in Hs' as [Hrest Hhead].
    assert (Hfront : keyCompare ik ik' <> Gt ->
              Sorted.StronglySorted (fun a b => keyCompare (fst a) (fst b) <> Gt)
                ((ik, v) :: (ik', v') :: rest)).
    { intros Hle. constructor; [exact Hs |].
      constructor; [exact Hle |].
      eapply Forall_impl; [| exact Hhead]. simpl. intros x Hx.
      now apply (keyCompare_le_trans _ _ _ Hle). }
    destruct (keyCompare ik ik') eqn:E.
    + apply Hfront. congruence.
    + apply Hfront. congruence.
    + constructor; [now apply IH |].
      apply (Permutation_Forall (insertEntry_perm ik v rest)).
      constructor; [| exact Hhead].
      simpl. rewrite keyCompare_antisym, E. discriminate.
Qed.

Definition hasKeyAt (name : string) (v : jsval) : bool :=
  match toKey (prop v name) with Some _ => true | None => false end.

Lemma indexEntries_spec name s :
  entriesAscending (indexEntries name s) /\
  Forall (fun e => toKey (prop (snd e) name) = Some (fst e)) (indexEntries name s) /\
  Permutation (map snd (indexEntries name s)) (filter (hasKeyAt name) (storeGetAll s)).
Proof.
  induction s as [| [k v] rest (Hasc & Hkeys & Hperm)]; simpl.
  - repeat split; constructor.
  - unfold hasKeyAt at 1. destruct (toKey (prop v name)) as [ik |] eqn:E.
    + split; [now apply insertEntry_ascending |]. split.
      * apply (Permutation_Forall (insertEntry_perm ik v _)). now constructor.
      * rewrite <- (Permutation_map snd (insertEntry_perm ik v _)). simpl.
        now constructor.
    + now repeat split.
Qed.

(** Ascending order of the values at the index path. *)
Definition indexAscending (name : string) (values : list jsval) : Prop :=
  Sorted.StronglySorted
    (fun a b => exists x y,
       toKey (prop a name) = Some x /\ toKey (prop b name) = Some y /\
       keyCompare x y <> Gt)
    values.

Lemma entries_indexAscending name entries :
  entriesAscending entries ->
  Forall (fun e => toKey (prop (snd e) name) = Some (fst e)) entries ->
  indexAscending name (map snd entries).
Proof.
  unfold entriesAscending, indexAscending.
  induction 1 as [| e rest _ IH Hhead]; intros Hkeys; simpl; [constructor |].
  inversion Hkeys as [| ? ? He Hrest]; subst.
  constructor; [now apply IH |].
  apply Forall_forall. intros b Hb. apply in_map_iff in Hb as (eb & <- & Hin).
  exists (fst e), (fst eb). split; [exact He |]. split.
  - exact (proj1 (Forall_forall _ _) Hrest eb Hin).
  - exact (proj1 (Forall_forall _ _) Hhead eb Hin).
Qed.

(** X24. Iterating by a declared index (the wrangler's [by]) visits the
    records that carry a string or a number at the index path, each once,
    in ascending order of that value, whatever the order of their keys;
    records without such a value are skipped. It yields the validator's
    outputs for them, up to the first record rejected, and changes
    neither the store nor a mirror. *)
Theorem iterator_by_index (Tables : tableName -> validator)
  (t : tableName) (name : string) (w : world) :
  name <> "" ->
  In name (declaredIndexes t) ->
  exists visited w',
    wrangler_by Tables t name w = (validatedPrefix (Tables t) visited, w') /\
    Permutation visited (filter (hasKeyAt name) (storeGetAll (database w t))) /\
    indexAscending name visited /\
    database w' = database w /\
    _tablesState w' = _tablesState w.
Proof.
  intros Hname Hin.
  destruct (indexEntries_spec name (database w t)) as (Hasc & Hkeys & Hperm).
  destruct (yieldEach_assert Tables t (map snd (indexEntries name (database w t)))
              (logged (Opened (mkTransaction "" [t] readonly)) w))
    as (w' & Hrun & Hdb & Hst & _).
  exists (map snd (indexEntries name (database w t))), w'.
  split; [| split; [exact Hperm | split; [| now split]]].
  - unfold wrangler_by, iterator, openCursor.
    apply String.eqb_neq in Hname. rewrite Hname.
    assert (E : existsb (String.eqb name) (declaredIndexes t) = true).
    { apply existsb_exists. exists name. split; [exact Hin | apply String.eqb_refl]. }
    rewrite E. exact Hrun.
  - now apply entries_indexAscending.
Qed.

(** Three observations added in an order that is not the order of their
    keys; the third has no date. *)
Definition dated (id addedAt : string) : jsval :=
  JObject [("id", JString id); ("addedAt", JString addedAt)].

Definition threeObservations : world :=
  mkWorld (update_at (fun _ => []) Observation
             [(KString "a", dated "a" "2024-03-01");
              (KString "b", dated "b" "2024-01-01");
              (KString "c", record "c")])
          (fun _ => []) [].

Lemma iterator_by_index_witness :
  exists visited w',
    wrangler_by (fun _ => anyRecord) Observation "addedAt" threeObservations
      = (validatedPrefix anyRecord visited, w') /\
    Permutation visited [dated "a" "2024-03-01"; dated "b" "2024-01-01"] /\
    indexAscending "addedAt" visited.
Proof.
  destruct (@iterator_by_index (fun _ => anyRecord) Observation "addedAt"
              threeObservations) as (visited & w' & Hrun & Hperm & Hasc & _).
  - discriminate.
  - simpl. now left.
  - exists visited, w'. split; [exact Hrun |]. split; [exact Hperm | exact Hasc].
Defined.

(** * A transaction on one table *)

(** X25. The wrangler's [do] runs its actions on the store of its table
    inside one read-write transaction over that table alone. When the
    actions return with the handle active, having awaited nothing but
    requests on the store they were handed, the handle is committed and
    the mirror of the table refreshed, in this order, and the mirror is
    in sync. When they return after the handle has finished, the commit
    throws an InvalidStateError and the mirror is not refreshed. When
    they throw, the error reaches the caller and nothing is committed or
    refreshed. *)
Theorem do_runs_one_transaction (Tables : tableName -> validator)
  (txid : string) (t : tableName)
  (actions : transaction * tableName -> Task unit)
  (active : list string) (w w1 : world) :
  let tx := mkTransaction txid [t] readwrite in
  isReactiveTable t = true ->
  (forall active1,
     actions (tx, t) (txid :: active) (logged (Opened tx) w)
       = (Ok (tt, active1), w1) ->
     (isActive tx active1 = true ->
      (exists l, validatedContents Tables t w1 = Ok l) ->
      exists w' active',
        do Tables txid t actions active w = (Ok (tt, active'), w') /\
        txEvents (journal w') = txEvents (journal w1) ++ [Committed tx; Refreshed t] /\
        database w' = database w1 /\
        mirrorInSync Tables t w') /\
     (isActive tx active1 = false ->
      do Tables txid t actions active w
        = (Throw (Raised "InvalidStateError"), w1))) /\
  (forall e,
     actions (tx, t) (txid :: active) (logged (Opened tx) w) = (Throw e, w1) ->
     do Tables txid t actions active w = (Throw e, w1)).
Proof.
  intros tx Hre.
  assert (Hopens : opens [t] None) by (split; discriminate).
  pose proof (@do_body_run txid t actions active w) as Hstore.
  cbv zeta in Hstore. change (newHandle txid [t] None) with tx in Hstore.
  split.
  - intros active1 Hbody. rewrite <- Hstore in Hbody. split.
    + intros Hactive Hvalid.
      destruct (@openTransaction_new_handle Tables txid [t] None
                  (fun h => store <~ tx_objectStore h t ;; actions store)
                  active active1 w w1 Hopens Hbody Hactive)
        as (w' & active' & Hrun & _ & Hj & Hdb & Hsync & _).
      { intros t' [<- | []] _. exact Hvalid. }
      exists w', active'. split; [exact Hrun |]. split; [| split; [exact Hdb |]].
      * rewrite Hj. simpl. now rewrite Hre.
      * apply Hsync; [now left | exact Hre].
    + intros Hfinished.
      exact (@openTransaction_finished_handle Tables txid [t] None
               (fun h => store <~ tx_objectStore h t ;; actions store)
               active active1 w w1 Hopens Hbody Hfinished).
  - intros e Hbody. rewrite <- Hstore in Hbody.
    exact (@openTransaction_failed_body Tables txid [t] None
             (fun h => store <~ tx_objectStore h t ;; actions store)
             active w w1 e Hopens Hbody).
Qed.

Lemma do_runs_one_transaction_witness :
  (exists w' active',
     do (fun _ => anyRecord) "t1" Settings
       (fun store => store_put store (record "user") ~;; done tt) [] emptyWorld
     = (Ok (tt, active'), w') /\
     mirrorInSync (fun _ => anyRecord) Settings w') /\
  (exists w1,
     do (fun _ => anyRecord) "t1" Settings
       (fun store => await (raw_set (snd store) (record "user")) ~;; done tt)
       [] emptyWorld
     = (Throw (Raised "InvalidStateError"), w1) /\
     _tablesState w1 Settings = []).
Proof.
  split.
  - pose (w1 := snd (store_put (newHandle "t1" [Settings] None, Settings)
                       (record "user") ["t1"]
                       (logged (Opened (newHandle "t1" [Settings] None)) emptyWorld))).
    destruct (proj1 (@do_runs_one_transaction (fun _ => anyRecord) "t1" Settings
                       (fun store => store_put store (record "user") ~;; done tt)
                       [] emptyWorld w1 eq_refl) ["t1"] eq_refl)
      as [Hcommits _].
    destruct Hcommits as (w' & active' & Hrun & _ & _ & Hsync).
    + reflexivity.
    + eexists. reflexivity.
    + now exists w', active'.
  - pose (w1 := snd (raw_set Settings (record "user")
                       (logged (Opened (newHandle "t1" [Settings] None)) emptyWorld))).
    exists w1. split; [| reflexivity].
    apply (proj1 (@do_runs_one_transaction (fun _ => anyRecord) "t1" Settings
                    (fun store => await (raw_set (snd store) (record "user")) ~;; done tt)
                    [] emptyWorld w1 eq_refl) [] eq_refl).
    reflexivity.
Defined.

(** * The library entry point

    The members [get] and [transaction] of the object that [Littrow]
    returns, for a database that is open. The reactive state is the
    object the caller passes: a getter and a setter per table. *)

Module Littrow.

(** The handle handed to the actions. *)
Definition Txn : Type := transaction.

Inductive keyPaths : Type :=
| OnePath (path : string)
| Paths (paths : list string).

Record Table : Type := mkTable {
  schema : validator;
  indexes : list string
}.

(** [table(keyPaths, schema)]: a single path stands for the list of it. *)
Definition table (paths : keyPaths) (schema : validator) : Table :=
  mkTable schema
          (match paths with
           | OnePath path => [path]
           | Paths l => map (fun keyPath => keyPath) l
           end).

Record ReactiveState : Type := mkReactiveState {
  state_get : tableName -> M (list jsval);
  state_set : tableName -> list jsval -> M unit
}.

Definition noopReactiveState : ReactiveState :=
  mkReactiveState (fun _ => ret []) (fun _ _ => ret tt).

(** A reactive state kept in the world's mirror. *)
Definition mirrorState : ReactiveState := mkReactiveState readState writeState.

Section Instance.

Variable tables : tableName -> Table.
Variable reactiveState : ReactiveState.

(** With or without a handle the read goes to the store. *)
Definition raw_get (name : tableName) (tx : option Txn) (id : jsval)
  : M jsval :=
  db_get name id.

Definition get (name : tableName) (tx : option Txn) (id : jsval) : M jsval :=
  value <- raw_get name tx id ;;
  assert (fun n => schema (tables n)) name value.

(** [_db.transaction(tableNames, mode)] with no mode opens a read-only
    handle. The wranglers handed to the actions beside the handle are
    built without it: they are [get name None] and [raw_get name None]. *)
Definition transaction (tableNames : list tableName)
  (mode : option IDBTransactionMode) (tx : option Txn)
  (actions : Txn -> Task unit) : Task unit :=
  match tx with
  | Some tx => actions tx
  | None =>
      opened <~ db_transaction tableNames
                  (match mode with Some m => m | None => readonly end) "" ;;
      actions opened ~;;
      commit opened ~;;
      forEachTask (fun table => all <~ await (db_getAll table) ;;
                                sync (state_set reactiveState table all))
                  tableNames
  end.

End Instance.

Lemma publish_all names : forall active w,
  exists w' active',
    forEachTask (fun table => all <~ await (db_getAll table) ;;
                              sync (state_set mirrorState table all))
                names active w = (Ok (tt, active'), w') /\
    database w' = database w /\
    journal w' = journal w /\
    (forall t, In t names -> _tablesState w' t = storeGetAll (database w t)) /\
    (forall t, ~ In t names -> _tablesState w' t = _tablesState w t).
Proof.
  induction names as [| n names IH]; intros active w; simpl.
  - exists w, active. repeat split; tauto.
  - set (w1 := mkWorld (database w)
                       (update_at (_tablesState w) n (storeGetAll (database w n)))
                       (journal w)).
    destruct (IH [] w1) as (w' & active' & Hrun & Hdb & Hj & Hin & Hout).
    exists w', active'. split; [| split; [exact Hdb | split; [exact Hj | split]]].
    + rewrite (andThen_ok _ _ (a := tt) (active1 := []) (w1 := w1)) by reflexivity.
      exact Hrun.
    + intros t [<- | Ht].
      * destruct (in_dec tableName_eq_dec n names) as [Hn | Hn].
        -- now apply Hin.
        -- rewrite (Hout n Hn). simpl. apply update_at_same.
      * now apply Hin.
    + intros t Ht. rewrite Hout by tauto. simpl. apply update_at_other. tauto.
Qed.

(** X26. The library's [get] hands whatever the store returns to the
    schema: the stored record when there is one, and undefined when the
    key is missing, so that reading a missing key throws with every
    schema that rejects undefined. *)
Theorem get_validates_what_the_store_returns (tables : tableName -> Table)
  (name : tableName) (tx : option Txn) (id : jsval) (k : key) (w : world) :
  toKey id = Some k ->
  let read := match storeGet k (database w name) with
              | Some v => v
              | None => JUndefined
              end in
  get tables name tx id w
    = (schema (tables name) read, logged (Asserted name read) w) /\
  (storeGet k (database w name) = None ->
   forall e, schema (tables name) JUndefined = Throw e ->
     fst (get tables name tx id w) = Throw e).
Proof.
  intros Hk read.
  assert (Hrun : get tables name tx id w
                 = (schema (tables name) read, logged (Asserted name read) w)).
  { unfold get. rewrite (bind_ok _ _ (raw_get_run name id w Hk)). reflexivity. }
  split; [exact Hrun |].
  intros Hnone e He. rewrite Hrun. unfold read. rewrite Hnone. exact He.
Qed.

Lemma get_validates_what_the_store_returns_witness :
  fst (get (fun _ => table (OnePath "id") anyRecord) Settings None
         (JString "nobody") oneSetting) = Throw ValidationError.
Proof.
  apply (proj2 (@get_validates_what_the_store_returns
                  (fun _ => table (OnePath "id") anyRecord) Settings None
                  (JString "nobody") (KString "nobody") oneSetting eq_refl));
    reflexivity.
Defined.

(** X27. The library's [transaction], given no handle, opens one over
    [tableNames], read-only unless a mode is given, and runs the actions.
    When they return with the handle active it commits and then sets the
    reactive state of every table of [tableNames] to the store's records
    as they are, in key order: no schema is applied to them and no table
    is left out. When they return after the handle has finished, as they
    do once they have awaited one of the wranglers handed to them, the
    commit throws an InvalidStateError and nothing is published. When
    they throw, the error reaches the caller and nothing is committed or
    published. *)
Theorem transaction_publishes_raw_contents (names : list tableName)
  (mode : option IDBTransactionMode) (actions : Txn -> Task unit)
  (active : list string) (w w1 : world) :
  let tx := mkTransaction "" names (match mode with Some m => m | None => readonly end) in
  names <> [] ->
  mode <> Some versionchange ->
  (forall active1,
     actions tx ("" :: active) (logged (Opened tx) w) = (Ok (tt, active1), w1) ->
     (isActive tx active1 = true ->
      exists w' active',
        transaction mirrorState names mode None actions active w
          = (Ok (tt, active'), w') /\
        journal w' = journal w1 ++ [Committed tx] /\
        database w' = database w1 /\
        (forall t, In t names -> _tablesState w' t = storeGetAll (database w1 t)) /\
        (forall t, ~ In t names -> _tablesState w' t = _tablesState w1 t)) /\
     (isActive tx active1 = false ->
      transaction mirrorState names mode None actions active w
        = (Throw (Raised "InvalidStateError"), w1))) /\
  (forall e,
     actions tx ("" :: active) (logged (Opened tx) w) = (Throw e, w1) ->
     transaction mirrorState names mode None actions active w = (Throw e, w1)).
Proof.
  intros tx Hnames Hmode.
  assert (Hopen : db_transaction names
                    (match mode with Some m => m | None => readonly end) "" active w
                  = (Ok (tx, "" :: active), logged (Opened tx) w)).
  { unfold db_transaction, tx. destruct names as [| n names]; [congruence |].
    destruct mode as [[| |] |]; try reflexivity. congruence. }
  split.
  - intros active1 Hbody. split.
    + intros Hactive.
      destruct (publish_all names
                  (filter (fun id => negb (String.eqb (txId tx) id)) active1)
                  (logged (Committed tx) w1))
        as (w' & active' & Hrun & Hdb & Hj & Hin & Hout).
      exists w', active'.
      split; [| split; [exact Hj | split; [exact Hdb | now split]]].
      unfold transaction.
      rewrite (andThen_ok _ _ Hopen), (andThen_ok _ _ Hbody).
      rewrite (andThen_ok _ _ (@commit_active tx active1 w1 Hactive)).
      exact Hrun.
    + intros Hfinished. unfold transaction.
      rewrite (andThen_ok _ _ Hopen), (andThen_ok _ _ Hbody).
      apply andThen_throw. now apply commit_finished.
  - intros e Hbody. unfold transaction.
    rewrite (andThen_ok _ _ Hopen). now apply andThen_throw.
Qed.

(** A body that reads on the handle, and one that reads with the
    wrangler handed to it. *)
Definition readOnHandle (tx : Txn) : Task unit :=
  settings <~ tx_objectStore tx Settings ;;
  store_get settings (JString "user") ~;;
  done tt.

Definition readWithWrangler (tx : Txn) : Task unit :=
  await (get (fun _ => table (OnePath "id") anyRecord) Settings None
           (JString "user")) ~;;
  done tt.

Lemma transaction_publishes_raw_contents_witness :
  (exists w' active',
     transaction mirrorState [Settings] None None readOnHandle [] oneCorrupt
       = (Ok (tt, active'), w') /\
     _tablesState oneCorrupt Settings = [themed "dark"] /\
     _tablesState w' Settings = [themed "dark"; record "x"] /\
     _tablesState w' Image = []) /\
  (exists w1,
     transaction mirrorState [Settings] None None readWithWrangler [] oneCorrupt
       = (Throw (Raised "InvalidStateError"), w1) /\
     _tablesState w1 Settings = [themed "dark"]).
Proof.
  split.
  - pose (tx := mkTransaction "" [Settings] readonly).
    pose (w1 := snd (readOnHandle tx [""] (logged (Opened tx) oneCorrupt))).
    destruct (proj1 (@transaction_publishes_raw_contents [Settings] None
                       readOnHandle [] oneCorrupt w1 ltac:(discriminate)
                       ltac:(discriminate)) [""] eq_refl)
      as [Hcommits _].
    destruct (Hcommits eq_refl) as (w' & active' & Hrun & _ & _ & Hin & Hout).
    exists w', active'. split; [exact Hrun |]. split; [reflexivity |]. split.
    + rewrite (Hin Settings); [reflexivity | now left].
    + rewrite (Hout Image); [reflexivity |]. simpl. intuition discriminate.
  - pose (tx := mkTransaction "" [Settings] readonly).
    pose (w1 := snd (readWithWrangler tx [""] (logged (Opened tx) oneCorrupt))).
    exists w1. split; [| reflexivity].
    apply (proj1 (@transaction_publishes_raw_contents [Settings] None
                    readWithWrangler [] oneCorrupt w1 ltac:(discriminate)
                    ltac:(discriminate)) [] eq_refl).
    reflexivity.
Defined.

End Littrow.

(** * Sequences of operations on a table

    The operations of a wrangler, run one after the other on one table;
    an operation that throws leaves the world it had reached, and the
    next one runs from there. *)

Inductive operation : Type :=
| DoSet (value : jsval)
| DoAdd (value : jsval) (fraction : list nat)
| DoUpdate (id : jsval) (property : string) (value : jsval)
| DoRemove (id : jsval)
| DoClear
| DoRefresh.

Definition perform (Tables : tableName -> validator) (t : tableName)
  (op : operation) (w : world) : world :=
  match op with
  | DoSet value => snd (wrangler_set Tables t value w)
  | DoAdd value fraction => snd (add Tables t value fraction w)
  | DoUpdate id property value => snd (update Tables t id property value w)
  | DoRemove id => snd (remove Tables t id w)
  | DoClear => snd (wrangler_clear t w)
  | DoRefresh => snd (refresh Tables t w)
  end.

Definition performAll (Tables : tableName -> validator) (t : tableName)
  (ops : list operation) (w : world) : world :=
  fold_left (fun w op => perform Tables t op w) ops w.

(** An update that does not write the key path. *)
Definition keepsKey (t : tableName) (op : operation) : Prop :=
  match op with
  | DoUpdate _ property _ => property <> keyPath t
  | _ => True
  end.

(** A schema whose records carry as [id] a string of digits and
    lower-case letters other than a string of digits, and that returns
    the [id] it was given. *)
Definition textSchema (V : validator) : Prop :=
  forall r o, V r = Ok o -> hasPlainId o = true /\ prop o "id" = prop r "id".

Definition consistent (Tables : tableName -> validator) (t : tableName)
  (w : world) : Prop :=
  storeWellFormed t (database w t) /\ mirrorInSync Tables t w.

Section Sequences.

Variable Tables : tableName -> validator.
Variable t : tableName.
Hypothesis Htext : textSchema (Tables t).

Lemma textSchema_keepsId : keepsId (Tables t).
Proof. intros r o H. now apply Htext. Qed.

Lemma consistent_same w w' :
  database w' t = database w t -> _tablesState w' t = _tablesState w t ->
  consistent Tables t w -> consistent Tables t w'.
Proof.
  unfold consistent, mirrorInSync, validatedContents. intros -> ->. tauto.
Qed.

Lemma accepted_value_has_key v out :
  Tables t v = Ok out -> exists s, toKey (prop v (keyPath t)) = Some (KString s).
Proof.
  intros Hout. destruct (@Htext _ _ Hout) as [Htxt Hid].
  destruct (@text_id_string out (plain_id_is_text _ Htxt)) as (s & Hs & _).
  exists s. now rewrite keyPath_id, <- Hid, Hs.
Qed.

Lemma text_mirror_ordered w out :
  consistent Tables t w -> hasTextId out = true ->
  orderedIds (out :: _tablesState w t).
Proof.
  intros [Hwf Hsync] Hout. apply orderedIds_text. simpl. rewrite Hout. simpl.
  unfold mirrorInSync, validatedContents in Hsync.
  destruct (@sync_facts Tables t textSchema_keepsId _ _ Hwf Hsync)
    as (outs & Hbeside & _ & Hperm & _).
  apply forallb_forall. intros x Hx.
  apply (Permutation_in _ (Permutation_sym Hperm)) in Hx.
  destruct (@validatedBeside_in Tables t _ outs x Hbeside Hx) as (k & r & _ & Hr & _).
  exact (plain_id_is_text _ (proj1 (@Htext _ _ Hr))).
Qed.

Lemma set_consistent v w :
  consistent Tables t w -> consistent Tables t (snd (wrangler_set Tables t v w)).
Proof.
  intros Hc. destruct (Tables t v) as [out | e] eqn:Hout.
  - destruct (@accepted_value_has_key v out Hout) as [s Hk].
    pose proof (@text_mirror_ordered w out Hc
                  (plain_id_is_text _ (proj1 (@Htext _ _ Hout)))) as Hord.
    destruct (@wrangler_set_sync_spec Tables t v out (KString s) w
                textSchema_keepsId (proj1 Hc) (proj2 Hc) Hout Hk Hord)
      as (w' & Hrun & _ & Hwf & Hsync).
    rewrite Hrun. now split.
  - destruct (jsval_undefined_dec v) as [-> | Hdef]; [exact Hc |].
    unfold wrangler_set.
    rewrite (bind_throw _ _ (set_rejected Tables t v w Hdef Hout)).
    now apply (@consistent_same w).
Qed.

Lemma update_consistent id property value w :
  property <> keyPath t ->
  consistent Tables t w ->
  consistent Tables t (snd (update Tables t id property value w)).
Proof.
  intros Hprop Hc.
  destruct (toKey id) as [k |] eqn:Hk.
  - destruct (storeGet k (database w t)) as [r |] eqn:Hget.
    + pose proof (proj1 (Forall_forall _ _) (proj2 (proj1 Hc)) _
                    (@storeGet_in k (database w t) r Hget)) as Hfiled.
      simpl in Hfiled.
      destruct r as [| | | props]; simpl in Hfiled; try discriminate.
      destruct (Tables t (JObject (assign property value props))) as [out | e] eqn:Hout.
      * pose proof (@text_mirror_ordered w out Hc
                      (plain_id_is_text _ (proj1 (@Htext _ _ Hout)))) as Hord.
        destruct (@update_sync_spec Tables t id k property value props out w
                    textSchema_keepsId (proj1 Hc) (proj2 Hc) Hk Hget Hprop Hout Hord)
          as (w' & Hrun & _ & Hwf & Hsync).
        rewrite Hrun. now split.
      * unfold update.
        rewrite (bind_ok _ _ (raw_get_run t id w Hk)), Hget. cbn [truthy negb setProp].
        rewrite (bind_ok _ _ (a := JObject (assign property value props)) (w1 := w))
          by reflexivity.
        rewrite (bind_throw _ _ (set_rejected Tables t _ w (@object_defined _) Hout)).
        now apply (@consistent_same w).
    + unfold update. rewrite (bind_ok _ _ (raw_get_run t id w Hk)), Hget. exact Hc.
  - unfold update. rewrite (bind_throw _ _ (e := DataError) (w1 := w));
      [exact Hc | unfold raw_get, db_get; now rewrite Hk].
Qed.

Lemma remove_consistent id w :
  consistent Tables t w -> consistent Tables t (snd (remove Tables t id w)).
Proof.
  intros Hc. destruct (toKey id) as [k |] eqn:Hk.
  - destruct (@remove_sync_spec Tables t id k w textSchema_keepsId
                (proj1 Hc) (proj2 Hc) Hk) as (w' & Hrun & _ & Hwf & Hsync).
    rewrite Hrun. now split.
  - unfold remove, drop.
    rewrite (bind_throw _ _ (e := DataError) (w1 := w));
      [exact Hc | apply bind_throw; unfold db_delete; now rewrite Hk].
Qed.

Lemma clear_consistent w : consistent Tables t (snd (wrangler_clear t w)).
Proof.
  unfold consistent, mirrorInSync, validatedContents. simpl.
  rewrite !update_at_same. split; [| reflexivity].
  split; [unfold keysAscending |]; constructor.
Qed.

Lemma refresh_consistent w :
  consistent Tables t w -> consistent Tables t (snd (refresh Tables t w)).
Proof.
  intros Hc. destruct (refresh_ok Tables t w (proj2 Hc)) as (w' & Hrun & Hdb & Hst & _).
  rewrite Hrun. apply (@consistent_same w w'); [now rewrite Hdb | | exact Hc].
  rewrite Hst. apply update_at_same.
Qed.

Lemma perform_consistent op w :
  keepsKey t op -> consistent Tables t w -> consistent Tables t (perform Tables t op w).
Proof.
  destruct op; simpl; intros Hop Hc.
  - now apply set_consistent.
  - now apply set_consistent.
  - now apply update_consistent.
  - now apply remove_consistent.
  - apply clear_consistent.
  - now apply refresh_consistent.
Qed.

End Sequences.


(** A schema that accepts an object whose [id] is a string of digits and
    lower-case letters other than a string of digits, and returns it as
    it is. *)
Definition namedRecord : validator :=
  fun v => if hasPlainId v then Ok v else Throw ValidationError.

Lemma namedRecord_textSchema : textSchema namedRecord.
Proof.
  intros r o. unfold namedRecord. destruct (hasPlainId r) eqn:Hr; [| discriminate].
  intros [= <-]. now split.
Qed.

(** A write, a write that the schema rejects, an update of a record that
    is there and of one that is not, a generated record, two removals
    and a refresh. *)
Definition sampleOperations : list operation :=
  [ DoSet (record "defaults");
    DoSet (record "42");
    DoUpdate (JString "user") "theme" (JString "light");
    DoUpdate (JString "nobody") "theme" (JString "light");
    DoAdd (themed "dark") [3; 1; 4; 1; 5; 9; 2; 6; 5; 3]%nat;
    DoRemove (JString "defaults");
    DoRemove JUndefined;
    DoRefresh ].

